(** * SegyIO: the codec, file-handle and geometry layers of [segy.c]

    A shallow embedding of [src/lib/src/segy.c].  Bytes are [Byte.byte],
    C integers are [Z] with their wrap-around written out, buffers are
    [list byte], and the stream / mapped-region state of a [segy_file] is an
    explicit record that every operation threads through. *)

From Stdlib Require Import Strings.Byte Strings.String Strings.Ascii.
From Stdlib Require Import ZArith List Bool Lia.
From Stdlib Require Import Floats.
Import ListNotations.
Local Open Scope Z_scope.

(** ** Machine integers *)

Definition u32 (z : Z) : Z := z mod 2 ^ 32.
Definition u16 (z : Z) : Z := z mod 2 ^ 16.
Definition u64 (z : Z) : Z := z mod 2 ^ 64.

(** Conversion of an out-of-range value to a signed type (two's complement). *)
Definition s32 (z : Z) : Z :=
  let w := u32 z in if w <? 2 ^ 31 then w else w - 2 ^ 32.
Definition s16 (z : Z) : Z :=
  let w := u16 z in if w <? 2 ^ 15 then w else w - 2 ^ 16.

Definition b2z (b : byte) : Z := Z.of_N (Byte.to_N b).

Definition z2b (z : Z) : byte :=
  match Byte.of_N (Z.to_N (z mod 256)) with
  | Some b => b
  | None => x00
  end.

(** ** EBCDIC / ASCII *)

Module Codec.

Definition a2e : list Z := [
    0;  1;  2;  3;  55; 45; 46; 47; 22; 5;  37; 11; 12; 13; 14; 15;
    16; 17; 18; 19; 60; 61; 50; 38; 24; 25; 63; 39; 28; 29; 30; 31;
    64; 79; 127;123;91; 108;80; 125;77; 93; 92; 78; 107;96; 75; 97;
    240;241;242;243;244;245;246;247;248;249;122;94; 76; 126;110;111;
    124;193;194;195;196;197;198;199;200;201;209;210;211;212;213;214;
    215;216;217;226;227;228;229;230;231;232;233;74; 224;90; 95; 109;
    121;129;130;131;132;133;134;135;136;137;145;146;147;148;149;150;
    151;152;153;162;163;164;165;166;167;168;169;192;106;208;161;7;
    32; 33; 34; 35; 36; 21; 6;  23; 40; 41; 42; 43; 44; 9;  10; 27;
    48; 49; 26; 51; 52; 53; 54; 8;  56; 57; 58; 59; 4;  20; 62; 225;
    65; 66; 67; 68; 69; 70; 71; 72; 73; 81; 82; 83; 84; 85; 86; 87;
    88; 89; 98; 99; 100;101;102;103;104;105;112;113;114;115;116;117;
    118;119;120;128;138;139;140;141;142;143;144;154;155;156;157;158;
    159;160;170;171;172;173;174;175;176;177;178;179;180;181;182;183;
    184;185;186;187;188;189;190;191;202;203;204;205;206;207;218;219;
    220;221;222;223;234;235;236;237;238;239;250;251;252;253;254;255
].

Definition e2a : list Z := [
    0;  1;  2;  3;  156;9;  134;127;151;141;142; 11;12; 13; 14; 15;
    16; 17; 18; 19; 157;133;8;  135;24; 25; 146;143;28; 29; 30; 31;
    128;129;130;131;132;10; 23; 27; 136;137;138;139;140;5;  6;  7;
    144;145;22; 147;148;149;150;4;  152;153;154;155;20; 21; 158;26;
    32; 160;161;162;163;164;165;166;167;168;91; 46; 60; 40; 43; 33;
    38; 169;170;171;172;173;174;175;176;177;93; 36; 42; 41; 59; 94;
    45; 47; 178;179;180;181;182;183;184;185;124;44; 37; 95; 62; 63;
    186;187;188;189;190;191;192;193;194;96; 58; 35; 64; 39; 61; 34;
    195;97; 98; 99; 100;101;102;103;104;105;196;197;198;199;200;201;
    202;106;107;108;109;110;111;112;113;114;203;204;205;206;207;208;
    209;126;115;116;117;118;119;120;121;122;210;211;212;213;214;215;
    216;217;218;219;220;221;222;223;224;225;226;227;228;229;230;231;
    123;65; 66; 67; 68; 69; 70; 71; 72; 73; 232;233;234;235;236;237;
    125;74; 75; 76; 77; 78; 79; 80; 81; 82; 238;239;240;241;242;243;
    92; 159;83; 84; 85; 86; 87; 88; 89; 90; 244;245;246;247;248;249;
    48; 49; 50; 51; 52; 53; 54; 55; 56; 57; 250;251;252;253;254;255
].

(** [table[(unsigned char) c]] *)
Definition lookup (table : list Z) (c : byte) : byte :=
  z2b (nth (Byte.to_nat c) table 0).

(** The loop shared by [ebcdic2ascii] and [ascii2ebcdic]:
    [while( *src != '\0' ) *dst++ = table[(unsigned char) *src++]; *dst = '\0';]
    The result is the run of bytes stored through [dst].  A source buffer
    holding no zero byte makes the loop read past its end: [None]. *)
Fixpoint transcode (table : list Z) (src : list byte) : option (list byte) :=
  match src with
  | [] => None
  | c :: rest =>
      if Byte.eqb c x00 then Some [x00]
      else option_map (cons (lookup table c)) (transcode table rest)
  end.

Definition ebcdic2ascii (ebcdic : list byte) : option (list byte) :=
  transcode e2a ebcdic.

Definition ascii2ebcdic (ascii : list byte) : option (list byte) :=
  transcode a2e ascii.

(** All 256 byte values, in order. *)
Definition all_bytes : list byte := map (fun n => z2b (Z.of_nat n)) (seq 0 256).

End Codec.

(** ** Byte order *)

Inductive endianness : Set := LittleEndian | BigEndian.

(** The value of a byte string read most significant byte first. *)
Definition be_decode (bs : list byte) : Z :=
  fold_left (fun acc b => acc * 256 + b2z b) bs 0.

Definition be_encode32 (w : Z) : list byte :=
  [z2b (Z.shiftr w 24); z2b (Z.shiftr w 16); z2b (Z.shiftr w 8); z2b w].

Definition be_encode16 (w : Z) : list byte :=
  [z2b (Z.shiftr w 8); z2b w].

(** [memcpy( &u, p, n )] and [memcpy( p, &u, n )] on a host of the given
    byte order. *)
Definition host_load (host : endianness) (bs : list byte) : Z :=
  match host with
  | BigEndian => be_decode bs
  | LittleEndian => be_decode (rev bs)
  end.

Definition host_store32 (host : endianness) (w : Z) : list byte :=
  match host with
  | BigEndian => be_encode32 w
  | LittleEndian => rev (be_encode32 w)
  end.

Definition host_store16 (host : endianness) (w : Z) : list byte :=
  match host with
  | BigEndian => be_encode16 w
  | LittleEndian => rev (be_encode16 w)
  end.

(** [ntohl]/[htonl] reinterpret the four bytes of the host representation
    as a big-endian number, and back. *)
Definition ntohl (host : endianness) (u : Z) : Z := be_decode (host_store32 host u).
Definition htonl (host : endianness) (u : Z) : Z := host_load host (be_encode32 u).
Definition ntohs (host : endianness) (u : Z) : Z := be_decode (host_store16 host u).
Definition htons (host : endianness) (u : Z) : Z := host_load host (be_encode16 u).

(** ** IBM float / IEEE float *)

Module IbmFloat.

(** [while (fr < 0x80000000) { --exp; fr <<= 1; }]
    The fuel counts the iterations still allowed; the loop is entered with a
    non-zero 32-bit [fr], for which 32 always suffice ([ibm_normalize_fuel]). *)
Fixpoint ibm_normalize (fuel : nat) (fr exp : Z) : option (Z * Z) :=
  if fr <? 0x80000000 then
    match fuel with
    | O => None
    | S n => ibm_normalize n (u32 (Z.shiftl fr 1)) (exp - 1)
    end
  else Some (fr, exp).

(** [fr = (fr >> 9) | (exp << 23) | (sgn << 31);] *)
Definition pack_ieee (fr exp sgn : Z) : Z :=
  u32 (Z.lor (Z.lor (Z.shiftr fr 9) (Z.shiftl exp 23)) (Z.shiftl sgn 31)).

(** The body of [ibm2ieee] between [ntohl] and the final [memcpy]: from the
    IBM word to the IEEE word. *)
Definition ibm2ieee_word (w : Z) : option Z :=
  let fr := w in
  let sgn := Z.shiftr fr 31 in
  let fr := u32 (Z.shiftl fr 1) in
  let exp := Z.shiftr fr 25 in
  let fr := u32 (Z.shiftl fr 7) in
  if fr =? 0 then Some (pack_ieee fr 0 sgn)
  else
    let exp := Z.shiftl exp 2 - 130 in
    match ibm_normalize 32 fr exp with
    | None => None
    | Some (fr, exp) =>
        if exp <=? 0 then
          let fr := if exp <? -24 then 0 else Z.shiftr fr (- exp) in
          Some (pack_ieee fr 0 sgn)
        else if exp >=? 255 then Some (pack_ieee 0 255 sgn)
        else Some (pack_ieee (u32 (Z.shiftl fr 1)) exp sgn)
    end.

(** [while (fr < 0x10000000) { --exp; fr <<= 4; }] *)
Fixpoint ieee_normalize (fuel : nat) (fr exp : Z) : option (Z * Z) :=
  if fr <? 0x10000000 then
    match fuel with
    | O => None
    | S n => ieee_normalize n (u32 (Z.shiftl fr 4)) (exp - 1)
    end
  else Some (fr, exp).

(** [(fr >> 8) | (exp << 24) | (sgn << 31)], the argument of [htonl]. *)
Definition pack_ibm (fr exp sgn : Z) : Z :=
  u32 (Z.lor (Z.lor (Z.shiftr fr 8) (Z.shiftl exp 24)) (Z.shiftl sgn 31)).

(** The exponent rebasing and renormalisation that follow the case split. *)
Definition ieee2ibm_rebase (fr exp sgn : Z) : option Z :=
  let exp := exp + 130 in
  let fr := Z.shiftr fr (Z.land (- exp) 3) in
  let exp := Z.shiftr (exp + 3) 2 in
  match ieee_normalize 8 fr exp with
  | None => None
  | Some (fr, exp) => Some (pack_ibm fr exp sgn)
  end.

(** The body of [ieee2ibm] between the first [memcpy] and [htonl]: from the
    IEEE word to the IBM word. *)
Definition ieee2ibm_word (w : Z) : option Z :=
  let fr := w in
  let sgn := Z.shiftr fr 31 in
  let fr := u32 (Z.shiftl fr 1) in
  let exp := Z.shiftr fr 24 in
  let fr := u32 (Z.shiftl fr 8) in
  if exp =? 255 then Some (pack_ibm 0xffffff00 0x7f sgn)
  else if exp >? 0 then ieee2ibm_rebase (Z.lor (Z.shiftr fr 1) 0x80000000) exp sgn
  else if fr =? 0 then Some (pack_ibm fr exp sgn)
  else ieee2ibm_rebase fr exp sgn.

(** [void ibm2ieee( void* to, const void* from )]: the four bytes stored at
    [to]; [None] when [from] holds fewer than four bytes. *)
Definition ibm2ieee (host : endianness) (from : list byte) : option (list byte) :=
  match from with
  | b0 :: b1 :: b2 :: b3 :: _ =>
      let fr := host_load host [b0; b1; b2; b3] in
      option_map (host_store32 host) (ibm2ieee_word (ntohl host fr))
  | _ => None
  end.

(** [void ieee2ibm( void* to, const void* from )] *)
Definition ieee2ibm (host : endianness) (from : list byte) : option (list byte) :=
  match from with
  | b0 :: b1 :: b2 :: b3 :: _ =>
      let fr := host_load host [b0; b1; b2; b3] in
      option_map (fun w => host_store32 host (htonl host w)) (ieee2ibm_word fr)
  | _ => None
  end.

(** Composition used by the round-trip statements. *)
Definition roundtrip_word (x : Z) : option Z :=
  match ibm2ieee_word x with
  | Some y => ieee2ibm_word y
  | None => None
  end.

(** The fields of an IBM word and of an IEEE word. *)
Definition ibm_fraction (x : Z) : Z := x mod 2 ^ 24.
Definition ibm_exponent (x : Z) : Z := (x / 2 ^ 24) mod 2 ^ 7.
Definition ieee_exponent (y : Z) : Z := (y / 2 ^ 23) mod 2 ^ 8.

(** An IBM fraction is normalised when its leading hexadecimal digit is
    not zero. *)
Definition ibm_normalized (x : Z) : Prop := 2 ^ 20 <= ibm_fraction x.

(** Number of leading zero bits of a normalised 24-bit fraction: how often
    the renormalisation loop of [ibm2ieee] runs. *)
Definition ibm_lz (f : Z) : Z :=
  if 2 ^ 23 <=? f then 0 else if 2 ^ 22 <=? f then 1
  else if 2 ^ 21 <=? f then 2 else 3.

(** The IEEE exponent field [ibm2ieee] computes for a normalised word. *)
Definition ibm_binexp (x : Z) : Z :=
  4 * ibm_exponent x - 130 - ibm_lz (ibm_fraction x).

(** The IBM words that are their own image under [ibm2ieee] followed by
    [ieee2ibm]: the two zeros; the largest magnitude [7FFFFFFF], to which
    everything above IEEE's range is saturated; and the words with a
    normalised fraction whose value is an IEEE number, either a normal one
    or a denormal one, that is a multiple of [2^-149] (the value of the
    word is [f * 2^(4e - 280)], so twice the fraction must be a multiple of
    [2^(132 - 4e)]). *)
Definition ibm_fixed (x : Z) : Prop :=
  let e := ibm_exponent x in
  let f := ibm_fraction x in
  (e = 0 /\ f = 0)
  \/ x mod 2 ^ 31 = 0x7fffffff
  \/ (ibm_normalized x /\ 1 <= ibm_binexp x <= 254)
  \/ (ibm_normalized x /\ ibm_binexp x <= 0
      /\ (2 * f) mod 2 ^ (132 - 4 * e) = 0).

End IbmFloat.

(** ** Return codes and constants of [segyio/segy.h] *)

(** Modelled from the spec: [segyio/segy.h] is not among the sources; the
    error taxonomy of the specification (section 7) names the return codes
    that [segy.c] uses. *)
Inductive segy_error : Set :=
  | SEGY_OK
  | SEGY_FOPEN_ERROR
  | SEGY_FSEEK_ERROR
  | SEGY_FREAD_ERROR
  | SEGY_FWRITE_ERROR
  | SEGY_INVALID_FIELD
  | SEGY_INVALID_SORTING
  | SEGY_MISSING_LINE_INDEX
  | SEGY_INVALID_OFFSETS
  | SEGY_TRACE_SIZE_MISMATCH
  | SEGY_INVALID_ARGS
  | SEGY_MMAP_ERROR
  | SEGY_MMAP_INVALID.

Definition segy_error_eqb (a b : segy_error) : bool :=
  match a, b with
  | SEGY_OK, SEGY_OK | SEGY_FOPEN_ERROR, SEGY_FOPEN_ERROR
  | SEGY_FSEEK_ERROR, SEGY_FSEEK_ERROR | SEGY_FREAD_ERROR, SEGY_FREAD_ERROR
  | SEGY_FWRITE_ERROR, SEGY_FWRITE_ERROR | SEGY_INVALID_FIELD, SEGY_INVALID_FIELD
  | SEGY_INVALID_SORTING, SEGY_INVALID_SORTING
  | SEGY_MISSING_LINE_INDEX, SEGY_MISSING_LINE_INDEX
  | SEGY_INVALID_OFFSETS, SEGY_INVALID_OFFSETS
  | SEGY_TRACE_SIZE_MISMATCH, SEGY_TRACE_SIZE_MISMATCH
  | SEGY_INVALID_ARGS, SEGY_INVALID_ARGS | SEGY_MMAP_ERROR, SEGY_MMAP_ERROR
  | SEGY_MMAP_INVALID, SEGY_MMAP_INVALID => true
  | _, _ => false
  end.

(** Modelled from the spec: the sizes of the three kinds of header
    (sections 1 and 6 of the specification). *)
Definition SEGY_TEXT_HEADER_SIZE : Z := 3200.
Definition SEGY_BINARY_HEADER_SIZE : Z := 400.
Definition SEGY_TRACE_HEADER_SIZE : Z := 240.

(** Modelled from the spec: the data format codes of binary header byte
    3225 (section 6 of the specification). *)
Definition IBM_FLOAT_4_BYTE : Z := 1.
Definition SIGNED_INTEGER_4_BYTE : Z := 2.
Definition SIGNED_SHORT_2_BYTE : Z := 3.
Definition FIXED_POINT_WITH_GAIN_4_BYTE : Z := 4.
Definition IEEE_FLOAT_4_BYTE : Z := 5.
Definition NOT_IN_USE_1 : Z := 6.
Definition NOT_IN_USE_2 : Z := 7.
Definition SIGNED_CHAR_1_BYTE : Z := 8.

(** ** Sample conversion *)

Module Native.

(** [while( size-- ) { <u from buf>; memcpy( buf++, &u, sizeof( float ) ); }]
    with [conv] computing the four bytes of [u] from the four bytes at [buf].
    A buffer shorter than [size] floats is overrun: [None]. *)
Fixpoint convert_loop (conv : list byte -> option (list byte))
  (size : nat) (buf : list byte) : option (list byte) :=
  match size with
  | O => Some buf
  | S n =>
      match buf with
      | b0 :: b1 :: b2 :: b3 :: rest =>
          match conv [b0; b1; b2; b3] with
          | Some g => option_map (app g) (convert_loop conv n rest)
          | None => None
          end
      | _ => None
      end
  end.

(** [memcpy( &u, buf, 4 ); u = ntohl( u );] *)
Definition swap_ntohl (host : endianness) (g : list byte) : option (list byte) :=
  Some (host_store32 host (ntohl host (host_load host g))).

(** [memcpy( &u, buf, 4 ); u = htonl( u );] *)
Definition swap_htonl (host : endianness) (g : list byte) : option (list byte) :=
  Some (host_store32 host (htonl host (host_load host g))).

(** [int segy_to_native( int format, int size, float* buf )]: the return
    code and the buffer afterwards.  A negative [size] never reaches zero by
    decrements within the buffer: [None]. *)
Definition segy_to_native (host : endianness) (format size : Z)
  (buf : list byte) : option (segy_error * list byte) :=
  if size <? 0 then None
  else
    let conv :=
      if format =? IEEE_FLOAT_4_BYTE then swap_ntohl host
      else IbmFloat.ibm2ieee host in
    option_map (pair SEGY_OK) (convert_loop conv (Z.to_nat size) buf).

(** [int segy_from_native( int format, int size, float* buf )] *)
Definition segy_from_native (host : endianness) (format size : Z)
  (buf : list byte) : option (segy_error * list byte) :=
  if size <? 0 then None
  else
    let conv :=
      if format =? IEEE_FLOAT_4_BYTE then swap_htonl host
      else IbmFloat.ieee2ibm host in
    option_map (pair SEGY_OK) (convert_loop conv (Z.to_nat size) buf).

(** The [i]-th four-byte sample of a buffer. *)
Definition sample (i : nat) (buf : list byte) : list byte :=
  firstn 4 (skipn (4 * i) buf).

(** The four bytes [ibm2ieee] stores, as a total function on groups. *)
Definition ibm_group (host : endianness) (g : list byte) : list byte :=
  match IbmFloat.ibm2ieee host g with
  | Some r => r
  | None => g
  end.

End Native.

(** ** The file handle

    A computation on a handle either returns a value together with the
    handle's new state, or has no defined behaviour in C (a [memcpy] that
    leaves the mapped region or the caller's buffer, a store through a
    read-only mapping): [None]. *)

Module File.

(** *** The C stream *)

Record FILE : Type := mkFILE {
  contents : list byte;   (* the bytes of the file *)
  fpos : Z;               (* the file position indicator *)
  readable : bool;
  writable : bool;
  append : bool           (* opened with "a": every write goes to the end *)
}.

Definition set_fpos (f : FILE) (p : Z) : FILE :=
  mkFILE (contents f) p (readable f) (writable f) (append f).

Definition set_contents (f : FILE) (c : list byte) (p : Z) : FILE :=
  mkFILE c p (readable f) (writable f) (append f).

Definition file_length (f : FILE) : Z := Z.of_nat (length (contents f)).

(** [fseek( fp, off, SEEK_SET )]: non-zero on a negative offset. *)
Definition fseek_set (f : FILE) (off : Z) : Z * FILE :=
  if off <? 0 then (-1, f) else (0, set_fpos f off).

(** [fseek( fp, off, SEEK_CUR )] *)
Definition fseek_cur (f : FILE) (off : Z) : Z * FILE :=
  if fpos f + off <? 0 then (-1, f) else (0, set_fpos f (fpos f + off)).

(** [n] bytes of [l] from position [p] on, fewer at the end of [l]. *)
Definition slice (l : list byte) (p n : Z) : list byte :=
  firstn (Z.to_nat n) (skipn (Z.to_nat p) l).

(** [fread( buf, 1, n, fp )]: the bytes delivered (their number is the
    return value) and the stream afterwards. *)
Definition fread (f : FILE) (n : Z) : list byte * FILE :=
  if readable f then
    let data := slice (contents f) (fpos f) n in
    (data, set_fpos f (fpos f + Z.of_nat (length data)))
  else ([], f).

(** [l] with [data] stored from position [p] on; a gap between the end of
    [l] and [p] reads as zeros. *)
Definition overwrite (l : list byte) (p : Z) (data : list byte) : list byte :=
  let p := Z.to_nat p in
  firstn p l ++ repeat x00 (p - length l) ++ data ++ skipn (p + length data) l.

(** [fwrite( buf, 1, n, fp )]: the number of bytes written and the stream
    afterwards.  A stream that was not opened for writing takes nothing and
    reports 0; otherwise [buf] must hold the [n] bytes. *)
Definition fwrite (f : FILE) (buf : list byte) (n : Z) : option (Z * FILE) :=
  if writable f then
    if Z.of_nat (length buf) <? n then None
    else
      let p := if append f then file_length f else fpos f in
      Some (n, set_contents f (overwrite (contents f) p (slice buf 0 n)) (p + n))
  else Some (0, f).

(** [fopen( path, mode )] on a file holding [disk], for the six modes the
    library is used with. *)
Definition fopen (disk : list byte) (mode : string) : option FILE :=
  if String.eqb mode "rb" then Some (mkFILE disk 0 true false false)
  else if String.eqb mode "wb" then Some (mkFILE [] 0 false true false)
  else if String.eqb mode "ab" then Some (mkFILE disk 0 false true true)
  else if String.eqb mode "r+b" then Some (mkFILE disk 0 true true false)
  else if String.eqb mode "w+b" then Some (mkFILE [] 0 true true false)
  else if String.eqb mode "a+b" then Some (mkFILE disk 0 true true true)
  else None.

(** *** [struct segy_file_handle] *)

Record segy_file : Type := mk_segy_file {
  addr : option bool;   (* [None] for NULL; mapped: is the mapping writable *)
  cur : Z;              (* the cursor, as an offset from [addr] *)
  fp : FILE;
  fsize : Z;
  mode : string
}.

Definition with_fp (h : segy_file) (f : FILE) : segy_file :=
  mk_segy_file (addr h) (cur h) f (fsize h) (mode h).

Definition with_cur (h : segy_file) (c : Z) : segy_file :=
  mk_segy_file (addr h) c (fp h) (fsize h) (mode h).

Definition is_mapped (h : segy_file) : bool :=
  match addr h with Some _ => true | None => false end.

(** [strncpy( file->mode, mode, 3 )] *)
Definition strncpy3 (s : string) : string := String.substring 0 3 s.

(** [strstr( s, sub ) != NULL] *)
Fixpoint strstr (s sub : string) : bool :=
  if String.prefix sub s then true
  else match s with
       | EmptyString => false
       | String _ rest => strstr rest sub
       end.

(** [segy_file* segy_open( const char* path, const char* mode )]: [None] is
    the NULL result. *)
Definition segy_open (disk : list byte) (mode : string) : option segy_file :=
  match fopen disk mode with
  | None => None
  | Some f => Some (mk_segy_file None 0 f 0 (strncpy3 mode))
  end.

(** [int segy_mmap( segy_file* fp )], compiled with HAVE_MMAP.  The system
    refuses to map an empty file or one that is not open for reading. *)
Definition segy_mmap (h : segy_file) : segy_error * segy_file :=
  let size := file_length (fp h) in
  let h := mk_segy_file (addr h) (cur h) (fp h) size (mode h) in
  let rw := strstr (mode h) "+" || strstr (mode h) "w" in
  if (size =? 0) || negb (readable (fp h)) then (SEGY_MMAP_ERROR, h)
  else (SEGY_OK, mk_segy_file (Some rw) 0 (fp h) size (mode h)).

(** [memcpy( buf, fp->cur, n )]: the bytes copied, when the [n] bytes at the
    cursor lie inside the mapped region. *)
Definition map_read (h : segy_file) (n : Z) : option (list byte) :=
  if (0 <=? cur h) && (cur h + n <=? fsize h) && (cur h + n <=? file_length (fp h))
  then Some (slice (contents (fp h)) (cur h) n)
  else None.

(** [memcpy( fp->cur, buf, n )]: the mapping is shared, so the store lands
    in the file.  It needs a writable mapping, [n] bytes at the cursor
    inside the mapped region and [n] bytes in [buf]. *)
Definition map_write (h : segy_file) (buf : list byte) (n : Z) : option segy_file :=
  match addr h with
  | Some true =>
      if (0 <=? cur h) && (cur h + n <=? fsize h)
         && (cur h + n <=? file_length (fp h)) && (n <=? Z.of_nat (length buf))
      then Some (with_fp h (set_contents (fp h)
                              (overwrite (contents (fp h)) (cur h) (slice buf 0 n))
                              (fpos (fp h))))
      else None
  | _ => None
  end.

(** [int segy_seek( segy_file* fp, int trace, long trace0,
    unsigned int trace_bsize )], on a platform where [long] and [long long]
    have the same size.  [trace_bsize += SEGY_TRACE_HEADER_SIZE] wraps as an
    [unsigned int]; [pos] is a [long long] sum, taken exactly (its operands
    keep it far from overflow, which C leaves undefined). *)
Definition segy_seek (h : segy_file) (trace trace0 trace_bsize : Z)
  : segy_error * segy_file :=
  let trace_bsize := u32 (trace_bsize + SEGY_TRACE_HEADER_SIZE) in
  let pos := trace0 + trace * trace_bsize in
  if is_mapped h then
    if u64 pos >=? fsize h then (SEGY_FSEEK_ERROR, h)
    else (SEGY_OK, with_cur h pos)
  else
    let '(err, f) := fseek_set (fp h) pos in
    if negb (err =? 0) then (SEGY_FSEEK_ERROR, with_fp h f)
    else (SEGY_OK, with_fp h f).

(** [int segy_traceheader( segy_file* fp, unsigned int traceno, char* buf,
    long trace0, unsigned int trace_bsize )]: the return code, the handle
    afterwards and the bytes stored at [buf]. *)
Definition segy_traceheader (h : segy_file) (traceno trace0 trace_bsize : Z)
  : option (segy_error * segy_file * list byte) :=
  let '(err, h) := segy_seek h (s32 traceno) trace0 trace_bsize in
  if negb (segy_error_eqb err SEGY_OK) then Some (err, h, [])
  else if is_mapped h then
    match map_read h SEGY_TRACE_HEADER_SIZE with
    | Some data => Some (SEGY_OK, h, data)
    | None => None
    end
  else
    let '(data, f) := fread (fp h) SEGY_TRACE_HEADER_SIZE in
    if negb (Z.of_nat (length data) =? SEGY_TRACE_HEADER_SIZE)
    then Some (SEGY_FREAD_ERROR, with_fp h f, data)
    else Some (SEGY_OK, with_fp h f, data).

(** [int segy_write_traceheader( segy_file* fp, unsigned int traceno,
    const char* buf, long trace0, unsigned int trace_bsize )] with [buf]
    the 240 bytes of the caller's header. *)
Definition segy_write_traceheader (h : segy_file) (traceno : Z)
  (buf : list byte) (trace0 trace_bsize : Z) : option (segy_error * segy_file) :=
  let '(err, h) := segy_seek h (s32 traceno) trace0 trace_bsize in
  if negb (segy_error_eqb err SEGY_OK) then Some (err, h)
  else if is_mapped h then
    match map_write h buf SEGY_TRACE_HEADER_SIZE with
    | Some h => Some (SEGY_OK, h)
    | None => None
    end
  else
    match fwrite (fp h) buf SEGY_TRACE_HEADER_SIZE with
    | None => None
    | Some (writec, f) =>
        if negb (writec =? SEGY_TRACE_HEADER_SIZE)
        then Some (SEGY_FWRITE_ERROR, with_fp h f)
        else Some (SEGY_OK, with_fp h f)
    end.

(** [static int skip_traceheader( segy_file* fp )] *)
Definition skip_traceheader (h : segy_file) : segy_error * segy_file :=
  if is_mapped h then (SEGY_OK, with_cur h (cur h + SEGY_TRACE_HEADER_SIZE))
  else
    let '(err, f) := fseek_cur (fp h) SEGY_TRACE_HEADER_SIZE in
    if negb (err =? 0) then (SEGY_FSEEK_ERROR, with_fp h f)
    else (SEGY_OK, with_fp h f).

(** [int segy_readtrace( segy_file* fp, unsigned int traceno, float* buf,
    long trace0, unsigned int trace_bsize )] *)
Definition segy_readtrace (h : segy_file) (traceno trace0 trace_bsize : Z)
  : option (segy_error * segy_file * list byte) :=
  let '(err, h) := segy_seek h (s32 traceno) trace0 trace_bsize in
  if negb (segy_error_eqb err SEGY_OK) then Some (err, h, [])
  else
    let '(err, h) := skip_traceheader h in
    if negb (segy_error_eqb err SEGY_OK) then Some (err, h, [])
    else if is_mapped h then
      match map_read h trace_bsize with
      | Some data => Some (SEGY_OK, h, data)
      | None => None
      end
    else
      let '(data, f) := fread (fp h) trace_bsize in
      if negb (Z.of_nat (length data) =? trace_bsize)
      then Some (SEGY_FREAD_ERROR, with_fp h f, data)
      else Some (SEGY_OK, with_fp h f, data).

(** [int segy_writetrace( segy_file* fp, unsigned int traceno,
    const float* buf, long trace0, unsigned int trace_bsize )] with [buf]
    the caller's samples, at least [trace_bsize] bytes. *)
Definition segy_writetrace (h : segy_file) (traceno : Z) (buf : list byte)
  (trace0 trace_bsize : Z) : option (segy_error * segy_file) :=
  let '(err, h) := segy_seek h (s32 traceno) trace0 trace_bsize in
  if negb (segy_error_eqb err SEGY_OK) then Some (err, h)
  else
    let '(err, h) := skip_traceheader h in
    if negb (segy_error_eqb err SEGY_OK) then Some (err, h)
    else if is_mapped h then
      match map_write h buf trace_bsize with
      | Some h => Some (SEGY_OK, h)
      | None => None
      end
    else
      match fwrite (fp h) buf trace_bsize with
      | None => None
      | Some (writec, f) =>
          if negb (writec =? trace_bsize)
          then Some (SEGY_FWRITE_ERROR, with_fp h f)
          else Some (SEGY_OK, with_fp h f)
      end.

(** [int segy_binheader( segy_file* fp, char* buf )] on a non-NULL handle. *)
Definition segy_binheader (h : segy_file)
  : segy_error * segy_file * list byte :=
  let '(err, f) := fseek_set (fp h) SEGY_TEXT_HEADER_SIZE in
  if negb (err =? 0) then (SEGY_FSEEK_ERROR, with_fp h f, [])
  else
    let '(data, f) := fread f SEGY_BINARY_HEADER_SIZE in
    if negb (Z.of_nat (length data) =? SEGY_BINARY_HEADER_SIZE)
    then (SEGY_FREAD_ERROR, with_fp h f, data)
    else (SEGY_OK, with_fp h f, data).

(** [int segy_write_binheader( segy_file* fp, const char* buf )] on a
    non-NULL handle. *)
Definition segy_write_binheader (h : segy_file) (buf : list byte)
  : option (segy_error * segy_file) :=
  let '(err, f) := fseek_set (fp h) SEGY_TEXT_HEADER_SIZE in
  if negb (err =? 0) then Some (SEGY_FSEEK_ERROR, with_fp h f)
  else
    match fwrite f buf SEGY_BINARY_HEADER_SIZE with
    | None => None
    | Some (writec, f) =>
        if negb (writec =? SEGY_BINARY_HEADER_SIZE)
        then Some (SEGY_FWRITE_ERROR, with_fp h f)
        else Some (SEGY_OK, with_fp h f)
    end.

(** [int segy_read_textheader( segy_file* fp, char* buf )] on a non-NULL
    handle: [ebcdic2ascii] works in place, so what follows the first zero
    byte stays as it was read. *)
Definition segy_read_textheader (h : segy_file)
  : option (segy_error * segy_file * list byte) :=
  let f := set_fpos (fp h) 0 in
  let '(data, f) := fread f SEGY_TEXT_HEADER_SIZE in
  if negb (Z.of_nat (length data) =? SEGY_TEXT_HEADER_SIZE)
  then Some (SEGY_FREAD_ERROR, with_fp h f, data)
  else
    let buf := data ++ [x00] in
    match Codec.ebcdic2ascii buf with
    | Some text => Some (SEGY_OK, with_fp h f, text ++ skipn (length text) buf)
    | None => None
    end.

(** [int segy_write_textheader( segy_file* fp, unsigned int pos,
    const char* buf )]; [mbuf] is the local array of
    [SEGY_TEXT_HEADER_SIZE + 1] bytes as it is found on entry. *)
Definition segy_write_textheader (h : segy_file) (pos : Z) (buf : list byte)
  (mbuf : list byte) : option (segy_error * segy_file) :=
  match Codec.ascii2ebcdic buf with
  | None => None
  | Some ebcdic =>
      if (length mbuf <? length ebcdic)%nat then None
      else
        let mbuf := ebcdic ++ skipn (length ebcdic) mbuf in
        let offset :=
          if pos =? 0 then 0
          else u32 (SEGY_TEXT_HEADER_SIZE + SEGY_BINARY_HEADER_SIZE
                    + (pos - 1) * SEGY_TEXT_HEADER_SIZE) in
        let '(err, f) := fseek_set (fp h) offset in
        if negb (err =? 0) then Some (SEGY_FSEEK_ERROR, with_fp h f)
        else
          match fwrite f mbuf SEGY_TEXT_HEADER_SIZE with
          | None => None
          | Some (writec, f) =>
              if negb (writec =? SEGY_TEXT_HEADER_SIZE)
              then Some (SEGY_FWRITE_ERROR, with_fp h f)
              else Some (SEGY_OK, with_fp h f)
          end
  end.

End File.

(** ** Positions and handles, for the statements *)

Module Layout.
Import File.

(** The byte position [segy_seek] computes for a trace. *)
Definition trace_pos (trace0 trace_bsize trace : Z) : Z :=
  trace0 + s32 trace * u32 (trace_bsize + SEGY_TRACE_HEADER_SIZE).

(** Trace [i] lies inside a file of [len] bytes, header and samples, and
    the arithmetic of [segy_seek] does not wrap. *)
Definition trace_in_range (len trace0 trace_bsize i : Z) : Prop :=
  0 <= trace0 /\ 0 <= trace_bsize /\
  trace_bsize + SEGY_TRACE_HEADER_SIZE < 2 ^ 32 /\
  0 <= i < 2 ^ 31 /\
  trace0 + (i + 1) * (trace_bsize + SEGY_TRACE_HEADER_SIZE) <= len.

(** A handle as [segy_open] leaves it and the stream operations keep it:
    not mapped, open for reading. *)
Definition buffered (h : segy_file) : Prop :=
  addr h = None /\ readable (fp h) = true.

(** A handle as [segy_mmap] leaves it: the whole file is mapped. *)
Definition mapped (h : segy_file) : Prop :=
  is_mapped h = true /\ fsize h = file_length (fp h) /\ fsize h < 2 ^ 63.

End Layout.

(** ** Header fields *)

Module Field.
Import File.

(** What a field read leaves behind: [SEGY_OK] with the value stored in
    [*f]; [SEGY_INVALID_FIELD] with [*f] untouched; or a [memcpy] that
    leaves the header. *)
Inductive field_read : Set :=
  | FieldValue (v : Z)
  | FieldInvalid
  | FieldOutside.

(** [memcpy( &buf, header + (field - 1), n )] *)
Definition header_bytes (header : list byte) (field n : Z) : option (list byte) :=
  if (1 <=? field) && (field - 1 + n <=? Z.of_nat (length header))
  then Some (slice header (field - 1) n)
  else None.

(** [static int get_field( const char* header, const int* table, int field,
    int32_t* f )].  [memcpy] into a word followed by [ntohl] or [ntohs]
    reads the bytes most significant first on any host
    ([ntohl_host_load], [ntohs_host_load]). *)
Definition get_field (header : list byte) (table : Z -> Z) (field : Z)
  : field_read :=
  let bsize := table field in
  if bsize =? 4 then
    match header_bytes header field 4 with
    | Some bs => FieldValue (s32 (be_decode bs))
    | None => FieldOutside
    end
  else if bsize =? 2 then
    match header_bytes header field 2 with
    | Some bs => FieldValue (s16 (be_decode bs))
    | None => FieldOutside
    end
  else FieldInvalid.

(** Modelled from the spec: the byte of the offset field in a trace header
    (section 3 of the specification; [count_lines] writes the number
    itself). *)
Definition offset : Z := 37.

Section Tables.

(** The two field-size tables of [segy.c] are indexed by the enumerators of
    [segyio/segy.h], which is not among the sources; they are parameters
    here, together with the enumerators the code names. *)
Variable field_size : Z -> Z.
Variable bfield_size : Z -> Z.
Variable TRACE_SAMPLE_INTERVAL : Z.
Variable BIN_Interval : Z.
Variable BIN_Samples : Z.
Variable BIN_ExtendedHeaders : Z.

(** [int segy_get_field( const char* traceheader, int field, int* f )] *)
Definition segy_get_field (traceheader : list byte) (field : Z) : field_read :=
  if (field <? 0) || (field >=? SEGY_TRACE_HEADER_SIZE) then FieldInvalid
  else get_field traceheader field_size field.

(** [int segy_get_bfield( const char* binheader, int field, int32_t* f )] *)
Definition segy_get_bfield (binheader : list byte) (field : Z) : field_read :=
  let field := field - SEGY_TEXT_HEADER_SIZE in
  if (field <? 0) || (field >=? SEGY_BINARY_HEADER_SIZE) then FieldInvalid
  else get_field binheader bfield_size field.

(** [unsigned int segy_samples( const char* buf )]; the local is returned
    uninitialised when the field read fails. *)
Definition segy_samples (buf : list byte) : option Z :=
  match segy_get_bfield buf BIN_Samples with
  | FieldValue samples => Some (u32 samples)
  | _ => None
  end.

(** [unsigned int segy_trace_bsize( unsigned int samples )] *)
Definition segy_trace_bsize (samples : Z) : Z := u32 (samples * 4).

(** [long segy_trace0( const char* binheader )] *)
Definition segy_trace0 (binheader : list byte) : option Z :=
  match segy_get_bfield binheader BIN_ExtendedHeaders with
  | FieldValue extra_headers =>
      Some (SEGY_TEXT_HEADER_SIZE + SEGY_BINARY_HEADER_SIZE
            + SEGY_TEXT_HEADER_SIZE * extra_headers)
  | _ => None
  end.

(** [int segy_traces( segy_file* fp, size_t* traces, long trace0,
    unsigned int trace_bsize )]: the return code and, on success, the
    count.  [file_size] asks the system for the length of the file. *)
Definition segy_traces (h : segy_file) (trace0 trace_bsize : Z)
  : option (segy_error * Z) :=
  let fsize := file_length (fp h) in
  let trace_bsize := u32 (trace_bsize + SEGY_TRACE_HEADER_SIZE) in
  let trace_data_size := u64 (fsize - trace0) in
  if trace_bsize =? 0 then None
  else if negb (trace_data_size mod trace_bsize =? 0)
  then Some (SEGY_TRACE_SIZE_MISMATCH, 0)
  else Some (SEGY_OK, trace_data_size / trace_bsize).

(** [double x = n / 1000.0] for an [int] [n]. *)
Definition double_of_int (n : Z) : float :=
  if n <? 0 then PrimFloat.opp (PrimFloat.of_uint63 (Uint63.of_Z (- n)))
  else PrimFloat.of_uint63 (Uint63.of_Z n).

Definition ms_of_us (us : Z) : float :=
  PrimFloat.div (double_of_int us) 1000%float.

(** [int segy_sample_interval( segy_file* fp, double* dt )]: the return
    code, the handle and the content of [*dt] afterwards, [dt] being its
    content before. *)
Definition segy_sample_interval (h : segy_file) (dt : float)
  : option (segy_error * segy_file * float) :=
  let '(err, h, bin_header) := segy_binheader h in
  if negb (segy_error_eqb err SEGY_OK) then Some (err, h, dt)
  else
    match segy_trace0 bin_header, segy_samples bin_header with
    | Some trace0, Some samples =>
        let trace_bsize := segy_trace_bsize samples in
        match segy_traceheader h 0 trace0 trace_bsize with
        | None => None
        | Some (err, h, trace_header) =>
            if negb (segy_error_eqb err SEGY_OK) then Some (err, h, dt)
            else
              match segy_get_bfield bin_header BIN_Interval,
                    segy_get_field trace_header TRACE_SAMPLE_INTERVAL with
              | FieldValue binary_header_dt_us, FieldValue trace_header_dt_us =>
                  let binary_header_dt_ms := ms_of_us binary_header_dt_us in
                  let trace_header_dt_ms := ms_of_us trace_header_dt_us in
                  if (trace_header_dt_us =? 0) && (binary_header_dt_us =? 0)
                  then Some (SEGY_OK, h, dt)
                  else if binary_header_dt_us =? 0
                  then Some (SEGY_OK, h, trace_header_dt_ms)
                  else if trace_header_dt_us =? 0
                  then Some (SEGY_OK, h, binary_header_dt_ms)
                  else if trace_header_dt_us =? binary_header_dt_us
                  then Some (SEGY_OK, h, trace_header_dt_ms)
                  else Some (SEGY_OK, h, dt)
              | _, _ => None
              end
        end
    | _, _ => None
    end.

End Tables.

End Field.

(** ** Example data

    The byte positions of SEG-Y rev. 1 for the fields the examples use, and
    small files built around them. *)

Module Example.
Import File Field.

Definition field_size (f : Z) : Z :=
  if (f =? 37) || (f =? 189) || (f =? 193) then 4
  else if (f =? 115) || (f =? 117) then 2
  else 0.

Definition bfield_size (f : Z) : Z :=
  if (f =? 17) || (f =? 21) || (f =? 25) || (f =? 305) then 2 else 0.

Definition TRACE_SAMPLE_INTERVAL : Z := 117.
Definition BIN_Interval : Z := 3217.
Definition BIN_Samples : Z := 3221.
Definition BIN_ExtendedHeaders : Z := 3505.
Definition INLINE_3D : Z := 189.
Definition CROSSLINE_3D : Z := 193.

(** A trace header carrying an offset, a sample interval, an inline and a
    crossline number, all other bytes zero. *)
Definition trace_header (off dt il xl : Z) : list byte :=
  repeat x00 36 ++ be_encode32 off ++ repeat x00 76 ++ be_encode16 dt
  ++ repeat x00 70 ++ be_encode32 il ++ be_encode32 xl ++ repeat x00 44.

(** A trace of one sample. *)
Definition trace (off il xl : Z) (sample : list byte) : list byte :=
  trace_header off 0 il xl ++ sample.

(** A binary header carrying a sample interval and a sample count. *)
Definition binary_header (dt samples : Z) : list byte :=
  repeat x00 16 ++ be_encode16 dt ++ repeat x00 2 ++ be_encode16 samples
  ++ repeat x00 378.

(** Text header, binary header and one trace without samples. *)
Definition interval_file (bin_dt trace_dt : Z) : list byte :=
  repeat x40 3200 ++ binary_header bin_dt 0 ++ trace_header 0 trace_dt 1 1.

Definition open_rb (disk : list byte) : segy_file :=
  mk_segy_file None 0 (mkFILE disk 0 true false false) 0 "rb".

Definition open_rw (disk : list byte) : segy_file :=
  mk_segy_file None 0 (mkFILE disk 0 true true false) 0 "r+b".

(** [segy_sample_interval] on [interval_file], return code and [*dt]. *)
Definition example_interval (bin_dt trace_dt : Z) (dt : float)
  : option (segy_error * float) :=
  match segy_sample_interval field_size bfield_size
          TRACE_SAMPLE_INTERVAL BIN_Interval
          BIN_Samples BIN_ExtendedHeaders
          (open_rb (interval_file bin_dt trace_dt)) dt with
  | Some (err, _, dt') => Some (err, dt')
  | None => None
  end.

End Example.

(** ** Geometry *)

Module Geometry.
Import File Field.

Inductive sorting : Set := UNKNOWN_SORTING | CROSSLINE_SORTING | INLINE_SORTING.

(** A loop that is given a bound on its iterations either finishes within
    it or asks for more. *)
Inductive fueled (A : Type) : Type :=
  | Finished (a : A)
  | OutOfFuel.
Arguments Finished {A} a.
Arguments OutOfFuel {A}.

Section Tables.

Variable field_size : Z -> Z.

(** The [do ... while( off0 != off1 && traceno < traces )] loop of
    [segy_sorting], entered with [traceno]: the return code, the handle and
    the last [il1], [xl1] read.  [budget] bounds the iterations that can
    follow the first. *)
Fixpoint sorting_walk (budget : nat) (h : segy_file)
  (il xl off0 traces traceno trace0 trace_bsize : Z)
  : option (segy_error * segy_file * (Z * Z)) :=
  match segy_traceheader h (u32 traceno) trace0 trace_bsize with
  | None => None
  | Some (err, h, traceheader) =>
      if negb (segy_error_eqb err SEGY_OK) then Some (err, h, (0, 0))
      else
        match segy_get_field field_size traceheader il,
              segy_get_field field_size traceheader xl,
              segy_get_field field_size traceheader offset with
        | FieldValue il1, FieldValue xl1, FieldValue off1 =>
            let traceno := traceno + 1 in
            if negb (off0 =? off1) && (traceno <? traces) then
              match budget with
              | O => None
              | S budget =>
                  sorting_walk budget h il xl off0 traces traceno
                    trace0 trace_bsize
              end
            else Some (SEGY_OK, h, (il1, xl1))
        | _, _, _ => None
        end
  end.

(** [int segy_sorting( segy_file* fp, int il, int xl, int* sorting,
    long trace0, unsigned int trace_bsize )]: the return code, the handle
    and, on success, the value stored in [*sorting]. *)
Definition segy_sorting (h : segy_file) (il xl trace0 trace_bsize : Z)
  : option (segy_error * segy_file * sorting) :=
  match segy_traceheader h 0 trace0 trace_bsize with
  | None => None
  | Some (err, h, traceheader) =>
      if negb (segy_error_eqb err SEGY_OK) then Some (err, h, UNKNOWN_SORTING)
      else if (il <? 0) || (il >=? SEGY_TRACE_HEADER_SIZE)
      then Some (SEGY_INVALID_FIELD, h, UNKNOWN_SORTING)
      else if (xl <? 0) || (xl >=? SEGY_TRACE_HEADER_SIZE)
      then Some (SEGY_INVALID_FIELD, h, UNKNOWN_SORTING)
      else if (field_size il =? 0) || (field_size xl =? 0)
      then Some (SEGY_INVALID_FIELD, h, UNKNOWN_SORTING)
      else
        match segy_get_field field_size traceheader il,
              segy_get_field field_size traceheader xl,
              segy_get_field field_size traceheader offset with
        | FieldValue il0, FieldValue xl0, FieldValue off0 =>
            match segy_traces h trace0 trace_bsize with
            | None => None
            | Some (err, traces_size_t) =>
                if negb (segy_error_eqb err SEGY_OK)
                then Some (err, h, UNKNOWN_SORTING)
                else
                  let traces := s32 traces_size_t in
                  match sorting_walk (Z.to_nat traces) h il xl off0 traces 1
                          trace0 trace_bsize with
                  | None => None
                  | Some (err, h, (il1, xl1)) =>
                      if negb (segy_error_eqb err SEGY_OK)
                      then Some (err, h, UNKNOWN_SORTING)
                      else
                        match segy_traceheader h (u32 (traces - 1))
                                trace0 trace_bsize with
                        | None => None
                        | Some (err, h, traceheader) =>
                            if negb (segy_error_eqb err SEGY_OK)
                            then Some (err, h, UNKNOWN_SORTING)
                            else
                              match segy_get_field field_size traceheader il,
                                    segy_get_field field_size traceheader xl with
                              | FieldValue il_last, FieldValue xl_last =>
                                  if il0 =? il_last
                                  then Some (SEGY_OK, h, CROSSLINE_SORTING)
                                  else if xl0 =? xl_last
                                  then Some (SEGY_OK, h, INLINE_SORTING)
                                  else if il0 =? il1
                                  then Some (SEGY_OK, h, INLINE_SORTING)
                                  else if xl0 =? xl1
                                  then Some (SEGY_OK, h, CROSSLINE_SORTING)
                                  else Some (SEGY_INVALID_SORTING, h,
                                             UNKNOWN_SORTING)
                              | _, _ => None
                              end
                        end
                  end
            end
        | _, _, _ => None
        end
  end.

(** The [while( true )] loop of [count_lines], entered with [curr] and
    [lines]: the return code, the handle and the count. *)
Fixpoint count_lines_loop (fuel : nat) (h : segy_file)
  (field offsets first_lineno first_offset curr lines trace0 trace_bsize : Z)
  : fueled (option (segy_error * segy_file * Z)) :=
  match fuel with
  | O => OutOfFuel
  | S fuel =>
      match segy_traceheader h curr trace0 trace_bsize with
      | None => Finished None
      | Some (err, h, header) =>
          if negb (segy_error_eqb err SEGY_OK) then Finished (Some (err, h, 0))
          else
            match segy_get_field field_size header field,
                  segy_get_field field_size header 37 with
            | FieldValue ln, FieldValue off =>
                if (first_offset =? off) && (ln =? first_lineno)
                then Finished (Some (SEGY_OK, h, lines))
                else
                  count_lines_loop fuel h field offsets first_lineno
                    first_offset (u32 (curr + offsets)) (u32 (lines + 1))
                    trace0 trace_bsize
            | _, _ => Finished None
            end
      end
  end.

(** [static int count_lines( segy_file* fp, int field, unsigned int offsets,
    unsigned int* out, long trace0, unsigned int trace_bsize )] *)
Definition count_lines (fuel : nat) (h : segy_file)
  (field offsets trace0 trace_bsize : Z)
  : fueled (option (segy_error * segy_file * Z)) :=
  match segy_traceheader h 0 trace0 trace_bsize with
  | None => Finished None
  | Some (err, h, header) =>
      if negb (segy_error_eqb err SEGY_OK) then Finished (Some (err, h, 0))
      else
        match segy_get_field field_size header field with
        | FieldOutside => Finished None
        | FieldInvalid => Finished (Some (SEGY_INVALID_FIELD, h, 0))
        | FieldValue first_lineno =>
            match segy_get_field field_size header 37 with
            | FieldOutside => Finished None
            | FieldInvalid => Finished (Some (SEGY_INVALID_FIELD, h, 0))
            | FieldValue first_offset =>
                count_lines_loop fuel h field offsets first_lineno
                  first_offset offsets 1 trace0 trace_bsize
            end
        end
  end.

End Tables.

(** The [for( ; line_length--; line_trace0 += stride, buf += ... )] loop of
    [segy_read_line].  [acc] holds the bytes stored through [buf] so far and
    [at_] is the distance of the moving [buf] from its start; it advances by
    [trace_bsize / 4] floats a trace. *)
Fixpoint read_line_loop (line_length : nat) (h : segy_file)
  (line_trace0 stride trace0 trace_bsize : Z) (acc : list byte) (at_ : Z)
  : option (segy_error * segy_file * list byte) :=
  match line_length with
  | O => Some (SEGY_OK, h, acc)
  | S line_length =>
      match segy_readtrace h line_trace0 trace0 trace_bsize with
      | None => None
      | Some (err, h, data) =>
          if negb (segy_error_eqb err SEGY_OK)
          then Some (err, h, overwrite acc at_ data)
          else read_line_loop line_length h (u32 (line_trace0 + stride)) stride
                 trace0 trace_bsize (overwrite acc at_ data)
                 (at_ + 4 * (trace_bsize / 4))
      end
  end.

(** [int segy_read_line( segy_file* fp, unsigned int line_trace0,
    unsigned int line_length, unsigned int stride, int offsets, float* buf,
    long trace0, unsigned int trace_bsize )]: the return code, the handle
    and the bytes stored at [buf]. *)
Definition segy_read_line (h : segy_file)
  (line_trace0 line_length stride offsets trace0 trace_bsize : Z)
  : option (segy_error * segy_file * list byte) :=
  let stride := u32 (stride * offsets) in
  read_line_loop (Z.to_nat line_length) h line_trace0 stride
    trace0 trace_bsize [] 0.

(** The loop of [segy_write_line]; [buf] is what remains of the caller's
    buffer, advanced by [trace_bsize / 4] floats a trace. *)
Fixpoint write_line_loop (line_length : nat) (h : segy_file)
  (line_trace0 stride : Z) (buf : list byte) (trace0 trace_bsize : Z)
  : option (segy_error * segy_file) :=
  match line_length with
  | O => Some (SEGY_OK, h)
  | S line_length =>
      match segy_writetrace h line_trace0 buf trace0 trace_bsize with
      | None => None
      | Some (err, h) =>
          if negb (segy_error_eqb err SEGY_OK) then Some (err, h)
          else write_line_loop line_length h (u32 (line_trace0 + stride)) stride
                 (skipn (Z.to_nat (4 * (trace_bsize / 4))) buf)
                 trace0 trace_bsize
      end
  end.

(** [int segy_write_line( segy_file* fp, unsigned int line_trace0,
    unsigned int line_length, unsigned int stride, int offsets,
    const float* buf, long trace0, unsigned int trace_bsize )] *)
Definition segy_write_line (h : segy_file)
  (line_trace0 line_length stride offsets : Z) (buf : list byte)
  (trace0 trace_bsize : Z) : option (segy_error * segy_file) :=
  let line_trace0 := u32 (line_trace0 * offsets) in
  let stride := u32 (stride * offsets) in
  write_line_loop (Z.to_nat line_length) h line_trace0 stride buf
    trace0 trace_bsize.

(** [static long index_of( unsigned int x, const unsigned int* xs,
    unsigned int sz )] *)
Fixpoint index_of (x : Z) (xs : list Z) (i : Z) : Z :=
  match xs with
  | [] => -1
  | y :: rest => if y =? x then i else index_of x rest (i + 1)
  end.

(** [int segy_line_trace0( unsigned int lineno, unsigned int line_length,
    unsigned int stride, int offsets, const unsigned int* linenos,
    const unsigned int linenos_sz, unsigned int* traceno )] *)
Definition segy_line_trace0 (lineno line_length stride offsets : Z)
  (linenos : list Z) : segy_error * Z :=
  let index := index_of lineno linenos 0 in
  if index <? 0 then (SEGY_MISSING_LINE_INDEX, 0)
  else
    let index := if stride =? 1 then index * line_length else index in
    (SEGY_OK, u32 (index * offsets)).

End Geometry.

(** *** Files of one-sample traces, for the examples *)

Module ExampleTraces.
Import File Field Geometry Example.

(** Eight traces, two offsets each for the inline/crossline pairs
    (1,10) (1,11) (2,10) (2,11); trace [k] carries the sample
    [00 00 00 k]. *)
Definition offsets_file : list byte :=
  trace 1 1 10 [x00; x00; x00; x00] ++ trace 2 1 10 [x00; x00; x00; x01] ++
  trace 1 1 11 [x00; x00; x00; x02] ++ trace 2 1 11 [x00; x00; x00; x03] ++
  trace 1 2 10 [x00; x00; x00; x04] ++ trace 2 2 10 [x00; x00; x00; x05] ++
  trace 1 2 11 [x00; x00; x00; x06] ++ trace 2 2 11 [x00; x00; x00; x07].

(** Four traces of one offset, inline sorted: (1,10) (1,11) (2,10) (2,11). *)
Definition inline_file : list byte :=
  trace 0 1 10 [x00; x00; x00; x00] ++ trace 0 1 11 [x00; x00; x00; x01] ++
  trace 0 2 10 [x00; x00; x00; x02] ++ trace 0 2 11 [x00; x00; x00; x03].

(** The samples of trace [k] of a file opened on [disk]. *)
Definition samples_of (disk : list byte) (k : Z) : option (list byte) :=
  match segy_readtrace (open_rb disk) k 0 4 with
  | Some (SEGY_OK, _, data) => Some data
  | _ => None
  end.

(** The file after [segy_write_line]. *)
Definition after_write_line (disk : list byte)
  (line_trace0 line_length stride offsets : Z) (buf : list byte)
  : option (segy_error * list byte) :=
  match segy_write_line (open_rw disk) line_trace0 line_length stride offsets
          buf 0 4 with
  | Some (err, h) => Some (err, contents (fp h))
  | None => None
  end.

(** What [segy_read_line] stores. *)
Definition line_read (disk : list byte)
  (line_trace0 line_length stride offsets : Z)
  : option (segy_error * list byte) :=
  match segy_read_line (open_rb disk) line_trace0 line_length stride offsets
          0 4 with
  | Some (err, _, data) => Some (err, data)
  | None => None
  end.

End ExampleTraces.

(** ** Vocabulary for the geometry statements *)

Module GeometrySpec.
Import File Field Geometry Layout.

(** The header of trace [i] in a file [c]. *)
Definition header_at (c : list byte) (trace0 trace_bsize i : Z) : list byte :=
  slice c (trace_pos trace0 trace_bsize i) SEGY_TRACE_HEADER_SIZE.

(** The samples of trace [i] in a file [c]. *)
Definition samples_at (c : list byte) (trace0 trace_bsize i : Z) : list byte :=
  slice c (trace_pos trace0 trace_bsize i + SEGY_TRACE_HEADER_SIZE) trace_bsize.

(** The value of a field of a header, 0 where there is none. *)
Definition field_value (field_size : Z -> Z) (header : list byte) (field : Z) : Z :=
  match segy_get_field field_size header field with
  | FieldValue v => v
  | _ => 0
  end.

(** The value of [field] in the header of trace [i]. *)
Definition field_at (field_size : Z -> Z) (c : list byte)
  (trace0 trace_bsize : Z) (field i : Z) : Z :=
  field_value field_size (header_at c trace0 trace_bsize i) field.

(** A byte offset at which the table has a field that lies in the header. *)
Definition valid_field (field_size : Z -> Z) (field : Z) : Prop :=
  1 <= field < SEGY_TRACE_HEADER_SIZE /\
  (field_size field = 4 \/ field_size field = 2) /\
  field - 1 + field_size field <= SEGY_TRACE_HEADER_SIZE.

(** Every field of the table lies inside the header, as in the table of
    [segy.c]. *)
Definition table_in_header (field_size : Z -> Z) : Prop :=
  forall f, field_size f = 4 \/ field_size f = 2 ->
            1 <= f /\ f - 1 + field_size f <= SEGY_TRACE_HEADER_SIZE.

(** A file that consists of [T] whole traces after [trace0]. *)
Definition whole_traces (len trace0 trace_bsize T : Z) : Prop :=
  0 <= trace0 /\ 0 <= trace_bsize /\
  trace_bsize + SEGY_TRACE_HEADER_SIZE < 2 ^ 32 /\
  0 <= T < 2 ^ 31 /\
  len = trace0 + T * (trace_bsize + SEGY_TRACE_HEADER_SIZE) /\
  len < 2 ^ 63.

(** A handle in one of its two open states. *)
Definition opened (h : segy_file) : Prop := buffered h \/ mapped h.

(** Two states of a handle that differ in the stream position and the
    cursor at most. *)
Definition same_store (a b : segy_file) : Prop :=
  addr a = addr b /\ fsize a = fsize b /\
  contents (fp a) = contents (fp b) /\ readable (fp a) = readable (fp b).

(** The loop of [count_lines] is left at trace index [curr]: the header
    read does not succeed, or the header carries the line number [fl] and
    the offset [fo] of trace 0. *)
Definition leaves_at (field_size : Z -> Z) (h : segy_file)
  (field fl fo curr trace0 trace_bsize : Z) : Prop :=
  match segy_traceheader h curr trace0 trace_bsize with
  | None => True
  | Some (err, _, header) =>
      err <> SEGY_OK \/
      match segy_get_field field_size header field,
            segy_get_field field_size header 37 with
      | FieldValue ln, FieldValue off => off = fo /\ ln = fl
      | _, _ => True
      end
  end.

(** No header read on this store runs outside the mapped region. *)
Definition never_faults (h : segy_file) (trace0 trace_bsize : Z) : Prop :=
  forall h' t, same_store h h' ->
    segy_traceheader h' t trace0 trace_bsize <> None.

(** The tie-break table of the sorting detector; [None] stands for
    [SEGY_INVALID_SORTING]. *)
Definition sorting_table (il0 xl0 il1 xl1 il_last xl_last : Z) : option sorting :=
  if il0 =? il_last then Some CROSSLINE_SORTING
  else if xl0 =? xl_last then Some INLINE_SORTING
  else if il0 =? il1 then Some INLINE_SORTING
  else if xl0 =? xl1 then Some CROSSLINE_SORTING
  else None.

(** The walk as the specification words it: from trace [j] on, forward
    until the offset differs from that of trace 0 or the last trace is
    reached. *)
Fixpoint spec_walk (off : Z -> Z) (T : Z) (steps : nat) (j : Z) : Z :=
  match steps with
  | O => j
  | S steps =>
      if negb (off j =? off 0) || (T <=? j + 1) then j
      else spec_walk off T steps (j + 1)
  end.

(** The sorting the specification's table gives when "trace 1" is where
    the specification's walk stops. *)
Definition spec_detect_sorting (field_size : Z -> Z) (c : list byte)
  (trace0 trace_bsize il xl T : Z) : option sorting :=
  let at_ := field_at field_size c trace0 trace_bsize in
  let k := spec_walk (at_ offset) T (Z.to_nat T) 1 in
  sorting_table (at_ il 0) (at_ xl 0) (at_ il k) (at_ xl k)
    (at_ il (T - 1)) (at_ xl (T - 1)).

End GeometrySpec.

(** ** Storing header fields *)

Module FieldStore.
Import File Field.

(** [memcpy( header + (field - 1), &buf, n )] with [bs] the [n] bytes of
    [buf]: the header afterwards, when the bytes land inside it. *)
Definition store_bytes (header : list byte) (field : Z) (bs : list byte)
  : option (list byte) :=
  if (1 <=? field)
     && (field - 1 + Z.of_nat (length bs) <=? Z.of_nat (length header))
  then Some (overwrite header (field - 1) bs)
  else None.

(** [static int set_field( char* header, const int* table, int field,
    int32_t val )]: the return code and the header afterwards.  [htonl]
    or [htons] followed by [memcpy] stores the bytes most significant first
    on any host ([host_store32_htonl], [host_store16_htons]). *)
Definition set_field (header : list byte) (table : Z -> Z) (field val : Z)
  : option (segy_error * list byte) :=
  let bsize := table field in
  if bsize =? 4 then
    match store_bytes header field (be_encode32 (u32 val)) with
    | Some header => Some (SEGY_OK, header)
    | None => None
    end
  else if bsize =? 2 then
    match store_bytes header field (be_encode16 (u16 val)) with
    | Some header => Some (SEGY_OK, header)
    | None => None
    end
  else Some (SEGY_INVALID_FIELD, header).

Section Tables.

Variable field_size : Z -> Z.
Variable bfield_size : Z -> Z.

(** [int segy_set_field( char* traceheader, int field, int val )] *)
Definition segy_set_field (traceheader : list byte) (field val : Z)
  : option (segy_error * list byte) :=
  if (field <? 0) || (field >=? SEGY_TRACE_HEADER_SIZE)
  then Some (SEGY_INVALID_FIELD, traceheader)
  else set_field traceheader field_size field val.

(** [int segy_set_bfield( char* binheader, int field, int val )] *)
Definition segy_set_bfield (binheader : list byte) (field val : Z)
  : option (segy_error * list byte) :=
  let field := field - SEGY_TEXT_HEADER_SIZE in
  if (field <? 0) || (field >=? SEGY_BINARY_HEADER_SIZE)
  then Some (SEGY_INVALID_FIELD, binheader)
  else set_field binheader bfield_size field val.

End Tables.

(** How a value comes back from a field of the given width: converted to
    [int32_t] or to [int16_t]. *)
Definition as_stored (width v : Z) : Z := if width =? 4 then s32 v else s16 v.

(** A field of the binary header table that lies in the header; [field] is
    the byte offset from the start of the text header. *)
Definition valid_bfield (bfield_size : Z -> Z) (field : Z) : Prop :=
  let f := field - SEGY_TEXT_HEADER_SIZE in
  1 <= f < SEGY_BINARY_HEADER_SIZE /\
  (bfield_size f = 4 \/ bfield_size f = 2) /\
  f - 1 + bfield_size f <= SEGY_BINARY_HEADER_SIZE.

End FieldStore.

(** ** Handles open for update *)

Module Update.
Import File Layout.

(** A stream opened for reading and for writing in place, as [segy_open]
    leaves it for the modes "r+b" and "w+b". *)
Definition stream_rw (h : segy_file) : Prop :=
  buffered h /\ writable (fp h) = true /\ append (fp h) = false.

(** A writable mapping of the whole file, as [segy_mmap] leaves it on a
    handle opened with "r+b". *)
Definition mapped_rw (h : segy_file) : Prop :=
  mapped h /\ addr h = Some true.

Definition updatable (h : segy_file) : Prop := stream_rw h \/ mapped_rw h.

End Update.

(** ** Offsets, line counts and line numbers *)

Module Cube.
Import File Field Geometry.

(** [buf[k] = v] on the caller's array; a store outside it has no defined
    behaviour. *)
Definition store_at (buf : list Z) (k : nat) (v : Z) : option (list Z) :=
  if (k <? length buf)%nat then Some (firstn k buf ++ v :: skipn (S k) buf)
  else None.

Section Tables.

Variable field_size : Z -> Z.

(** The [do { ++offsets; ... } while( il0 == il1 && xl0 == xl1 )] loop of
    [segy_offsets], entered with [offsets]: the return code, the handle and
    the count.  A field read that returns SEGY_INVALID_FIELD here would have
    done so for trace 0 already. *)
Fixpoint offsets_loop (fuel : nat) (h : segy_file)
  (il xl il0 xl0 traces offsets trace0 trace_bsize : Z)
  : fueled (option (segy_error * segy_file * Z)) :=
  match fuel with
  | O => OutOfFuel
  | S fuel =>
      let offsets := u32 (offsets + 1) in
      if offsets =? traces then Finished (Some (SEGY_OK, h, offsets))
      else
        match segy_traceheader h offsets trace0 trace_bsize with
        | None => Finished None
        | Some (err, h, header) =>
            if negb (segy_error_eqb err SEGY_OK)
            then Finished (Some (err, h, 0))
            else
              match segy_get_field field_size header il,
                    segy_get_field field_size header xl with
              | FieldValue il1, FieldValue xl1 =>
                  if (il0 =? il1) && (xl0 =? xl1)
                  then offsets_loop fuel h il xl il0 xl0 traces offsets
                         trace0 trace_bsize
                  else Finished (Some (SEGY_OK, h, offsets))
              | _, _ => Finished None
              end
        end
  end.

(** [int segy_offsets( segy_file* fp, int il, int xl, unsigned int traces,
    unsigned int* out, long trace0, unsigned int trace_bsize )]: the return
    code, the handle and, on SEGY_OK, the value stored in [*out].  The
    return code of the read of trace 0 is not looked at: when that read
    fails, the fields are taken from a header that was never filled, and
    nothing is said about the result. *)
Definition segy_offsets (fuel : nat) (h : segy_file)
  (il xl traces trace0 trace_bsize : Z)
  : fueled (option (segy_error * segy_file * Z)) :=
  if traces =? 1 then Finished (Some (SEGY_OK, h, 1))
  else if (field_size il =? 0) || (field_size xl =? 0)
  then Finished (Some (SEGY_INVALID_FIELD, h, 0))
  else
    match segy_traceheader h 0 trace0 trace_bsize with
    | None => Finished None
    | Some (err, h, header) =>
        if negb (segy_error_eqb err SEGY_OK) then Finished None
        else
          match segy_get_field field_size header il,
                segy_get_field field_size header xl with
          | FieldValue il0, FieldValue xl0 =>
              offsets_loop fuel h il xl il0 xl0 traces 0 trace0 trace_bsize
          | _, _ => Finished None
          end
    end.

(** The [for( int i = 0; i < offsets; ++i )] loop of [segy_offset_indices];
    [x] is the local the fields are read into and [out] holds the values
    stored through [out] so far. *)
Fixpoint offset_indices_loop (n : nat) (h : segy_file)
  (offset_field i x : Z) (out : list Z) (trace0 trace_bsize : Z)
  : option (segy_error * segy_file * list Z) :=
  match n with
  | O => Some (SEGY_OK, h, out)
  | S n =>
      match segy_traceheader h i trace0 trace_bsize with
      | None => None
      | Some (err, h, header) =>
          if negb (segy_error_eqb err SEGY_OK) then Some (err, h, out)
          else
            match segy_get_field field_size header offset_field with
            | FieldValue v =>
                offset_indices_loop n h offset_field (i + 1) v (out ++ [v])
                  trace0 trace_bsize
            | FieldInvalid =>
                offset_indices_loop n h offset_field (i + 1) x (out ++ [x])
                  trace0 trace_bsize
            | FieldOutside => None
            end
      end
  end.

(** [int segy_offset_indices( segy_file* fp, int offset_field, int offsets,
    int* out, long trace0, unsigned int trace_bsize )] *)
Definition segy_offset_indices (h : segy_file)
  (offset_field offsets trace0 trace_bsize : Z)
  : option (segy_error * segy_file * list Z) :=
  if field_size offset_field =? 0 then Some (SEGY_INVALID_FIELD, h, [])
  else offset_indices_loop (Z.to_nat offsets) h offset_field 0 0 []
         trace0 trace_bsize.

(** The [for( ; num_indices--; traceno += stride, ++buf )] loop of
    [segy_line_indices]; [buf] is the caller's array and [k] the distance of
    the moving pointer from its start.  The field is stored as an [int]
    into an [unsigned int] slot. *)
Fixpoint line_indices_loop (num_indices : nat) (h : segy_file)
  (field traceno stride : Z) (buf : list Z) (k : nat) (trace0 trace_bsize : Z)
  : option (segy_error * segy_file * list Z) :=
  match num_indices with
  | O => Some (SEGY_OK, h, buf)
  | S num_indices =>
      match segy_traceheader h traceno trace0 trace_bsize with
      | None => None
      | Some (err, h, header) =>
          if negb (segy_error_eqb err SEGY_OK)
          then Some (SEGY_FREAD_ERROR, h, buf)
          else
            match segy_get_field field_size header field with
            | FieldValue v =>
                match store_at buf k (u32 v) with
                | Some buf =>
                    line_indices_loop num_indices h field
                      (u32 (traceno + stride)) stride buf (S k)
                      trace0 trace_bsize
                | None => None
                end
            | FieldInvalid =>
                line_indices_loop num_indices h field
                  (u32 (traceno + stride)) stride buf (S k) trace0 trace_bsize
            | FieldOutside => None
            end
      end
  end.

(** [static int segy_line_indices( segy_file* fp, int field,
    unsigned int traceno, unsigned int stride, unsigned int num_indices,
    unsigned int* buf, long trace0, unsigned int trace_bsize )] *)
Definition segy_line_indices (h : segy_file)
  (field traceno stride num_indices : Z) (buf : list Z)
  (trace0 trace_bsize : Z) : option (segy_error * segy_file * list Z) :=
  if field_size field =? 0 then Some (SEGY_INVALID_FIELD, h, buf)
  else line_indices_loop (Z.to_nat num_indices) h field traceno stride buf 0
         trace0 trace_bsize.

(** [int segy_count_lines( segy_file* fp, int field, unsigned int offsets,
    unsigned int* l1out, unsigned int* l2out, long trace0,
    unsigned int trace_bsize )]: the return code, the handle and, on
    SEGY_OK, the values stored in [*l1out] and [*l2out].  A line length of
    zero makes the division undefined. *)
Definition segy_count_lines (fuel : nat) (h : segy_file)
  (field offsets trace0 trace_bsize : Z)
  : fueled (option (segy_error * segy_file * (Z * Z))) :=
  match count_lines field_size fuel h field offsets trace0 trace_bsize with
  | OutOfFuel => OutOfFuel
  | Finished None => Finished None
  | Finished (Some (err, h, l2count)) =>
      if negb (segy_error_eqb err SEGY_OK) then Finished (Some (err, h, (0, 0)))
      else
        match segy_traces h trace0 trace_bsize with
        | None => Finished None
        | Some (err, traces) =>
            if negb (segy_error_eqb err SEGY_OK)
            then Finished (Some (err, h, (0, 0)))
            else
              let line_length := u32 (l2count * offsets) in
              if line_length =? 0 then Finished None
              else
                let l1count := u32 (traces / line_length) in
                Finished (Some (SEGY_OK, h, (l1count, l2count)))
        end
  end.

(** [int segy_lines_count( segy_file* fp, int il, int xl, int sorting,
    int offsets, int* il_count, int* xl_count, long trace0,
    unsigned int trace_bsize )] for [sorting] one of the three enumerators:
    the return code, the handle and, on SEGY_OK, [*il_count] and
    [*xl_count]. *)
Definition segy_lines_count (fuel : nat) (h : segy_file)
  (il xl : Z) (s : sorting) (offsets trace0 trace_bsize : Z)
  : fueled (option (segy_error * segy_file * (Z * Z))) :=
  match s with
  | UNKNOWN_SORTING => Finished (Some (SEGY_INVALID_SORTING, h, (0, 0)))
  | _ =>
      let field := match s with INLINE_SORTING => xl | _ => il end in
      match segy_count_lines fuel h field (u32 offsets) trace0 trace_bsize with
      | OutOfFuel => OutOfFuel
      | Finished None => Finished None
      | Finished (Some (err, h, (l1out, l2out))) =>
          if negb (segy_error_eqb err SEGY_OK)
          then Finished (Some (err, h, (0, 0)))
          else
            match s with
            | INLINE_SORTING => Finished (Some (SEGY_OK, h, (s32 l1out, s32 l2out)))
            | _ => Finished (Some (SEGY_OK, h, (s32 l2out, s32 l1out)))
            end
      end
  end.

(** [unsigned int segy_inline_length( unsigned int crossline_count )] *)
Definition segy_inline_length (crossline_count : Z) : Z := crossline_count.

(** [unsigned int segy_crossline_length( unsigned int inline_count )] *)
Definition segy_crossline_length (inline_count : Z) : Z := inline_count.

(** [int segy_inline_indices( segy_file* fp, int il, int sorting,
    unsigned int inline_count, unsigned int crossline_count,
    unsigned int offsets, unsigned int* buf, long trace0,
    unsigned int trace_bsize )] for [sorting] one of the three
    enumerators. *)
Definition segy_inline_indices (h : segy_file) (il : Z) (s : sorting)
  (inline_count crossline_count offsets : Z) (buf : list Z)
  (trace0 trace_bsize : Z) : option (segy_error * segy_file * list Z) :=
  match s with
  | INLINE_SORTING =>
      match segy_traces h trace0 trace_bsize with
      | None => None
      | Some (err, _) =>
          if negb (segy_error_eqb err SEGY_OK) then Some (err, h, buf)
          else
            let stride := u32 (crossline_count * offsets) in
            segy_line_indices h il 0 stride inline_count buf trace0 trace_bsize
      end
  | CROSSLINE_SORTING =>
      segy_line_indices h il 0 offsets inline_count buf trace0 trace_bsize
  | UNKNOWN_SORTING => Some (SEGY_INVALID_SORTING, h, buf)
  end.

(** [int segy_crossline_indices( segy_file* fp, int xl, int sorting,
    unsigned int inline_count, unsigned int crossline_count,
    unsigned int offsets, unsigned int* buf, long trace0,
    unsigned int trace_bsize )] for [sorting] one of the three
    enumerators. *)
Definition segy_crossline_indices (h : segy_file) (xl : Z) (s : sorting)
  (inline_count crossline_count offsets : Z) (buf : list Z)
  (trace0 trace_bsize : Z) : option (segy_error * segy_file * list Z) :=
  match s with
  | INLINE_SORTING =>
      segy_line_indices h xl 0 offsets crossline_count buf trace0 trace_bsize
  | CROSSLINE_SORTING =>
      match segy_traces h trace0 trace_bsize with
      | None => None
      | Some (err, _) =>
          if negb (segy_error_eqb err SEGY_OK) then Some (err, h, buf)
          else
            let stride := u32 (inline_count * offsets) in
            segy_line_indices h xl 0 stride crossline_count buf
              trace0 trace_bsize
      end
  | UNKNOWN_SORTING => Some (SEGY_INVALID_SORTING, h, buf)
  end.

End Tables.

(** [int segy_inline_stride( int sorting, unsigned int inline_count,
    unsigned int* stride )] for [sorting] one of the three enumerators: the
    return code and the content of [*stride] afterwards, [stride] being its
    content before. *)
Definition segy_inline_stride (s : sorting) (inline_count stride : Z)
  : segy_error * Z :=
  match s with
  | CROSSLINE_SORTING => (SEGY_OK, inline_count)
  | INLINE_SORTING => (SEGY_OK, 1)
  | UNKNOWN_SORTING => (SEGY_INVALID_SORTING, stride)
  end.

(** [int segy_crossline_stride( int sorting, unsigned int crossline_count,
    unsigned int* stride )] *)
Definition segy_crossline_stride (s : sorting) (crossline_count stride : Z)
  : segy_error * Z :=
  match s with
  | CROSSLINE_SORTING => (SEGY_OK, 1)
  | INLINE_SORTING => (SEGY_OK, crossline_count)
  | UNKNOWN_SORTING => (SEGY_INVALID_SORTING, stride)
  end.

End Cube.

(** * Verified properties *)

(** ** Facts about the two tables and the transcoding loop *)

Module CodecFacts.
Import Codec.

Lemma a2e_e2a (c : byte) : lookup a2e (lookup e2a c) = c.
Proof. destruct c; reflexivity. Qed.

Lemma e2a_a2e (c : byte) : lookup e2a (lookup a2e c) = c.
Proof. destruct c; reflexivity. Qed.

Lemma a2e_zero : lookup a2e x00 = x00.
Proof. reflexivity. Qed.

Lemma e2a_zero : lookup e2a x00 = x00.
Proof. reflexivity. Qed.

Lemma a2e_nonzero (c : byte) : c <> x00 -> lookup a2e c <> x00.
Proof.
  intros Hc Hz. apply Hc.
  rewrite <- (e2a_a2e c), Hz. exact e2a_zero.
Qed.

Lemma e2a_nonzero (c : byte) : c <> x00 -> lookup e2a c <> x00.
Proof.
  intros Hc Hz. apply Hc.
  rewrite <- (a2e_e2a c), Hz. exact a2e_zero.
Qed.

Lemma eqb_x00 (c : byte) : Byte.eqb c x00 = false <-> c <> x00.
Proof.
  split.
  - intros H E. subst c. discriminate H.
  - intros H. destruct (Byte.eqb c x00) eqn:E; [|reflexivity].
    apply Byte.byte_dec_bl in E. contradiction.
Qed.

(** The loop stops at the first zero byte: what lies before it is mapped
    through the table, what lies after it is never read. *)
Lemma transcode_stop (table : list Z) (pre post : list byte) :
  Forall (fun c => c <> x00) pre ->
  transcode table (pre ++ x00 :: post) = Some (map (lookup table) pre ++ [x00]).
Proof.
  induction 1 as [|c pre Hc _ IH]; simpl.
  - reflexivity.
  - apply eqb_x00 in Hc. rewrite Hc, IH. reflexivity.
Qed.

(** Conversely a run that returns has found a zero byte. *)
Lemma transcode_some (table : list Z) (src out : list byte) :
  transcode table src = Some out ->
  exists pre post,
    src = pre ++ x00 :: post /\ Forall (fun c => c <> x00) pre /\
    out = map (lookup table) pre ++ [x00].
Proof.
  revert out. induction src as [|c rest IH]; simpl; intros out H.
  - discriminate.
  - destruct (Byte.eqb c x00) eqn:E.
    + apply Byte.byte_dec_bl in E. subst c. inversion H; subst.
      exists [], rest. repeat split. constructor.
    + destruct (transcode table rest) as [o|] eqn:Er; [|discriminate].
      inversion H; subst. destruct (IH o eq_refl) as (pre & post & -> & Hp & ->).
      exists (c :: pre), post. repeat split.
      constructor; [apply eqb_x00; exact E | exact Hp].
Qed.

Lemma map_nonzero (table : list Z) (pre : list byte) :
  (forall c, c <> x00 -> lookup table c <> x00) ->
  Forall (fun c => c <> x00) pre ->
  Forall (fun c => c <> x00) (map (lookup table) pre).
Proof.
  intros Ht. induction 1; simpl; constructor; auto.
Qed.

End CodecFacts.

(** ** Arithmetic of shifts and masks *)

Lemma land_low_shiftl (a b n : Z) :
  0 <= n -> 0 <= a < 2 ^ n -> Z.land a (Z.shiftl b n) = 0.
Proof.
  intros Hn Ha. apply Z.bits_inj'. intros i Hi.
  rewrite Z.land_spec, Z.bits_0.
  destruct (Z.lt_ge_cases i n) as [Hlt|Hge].
  - rewrite Z.shiftl_spec_low by lia. apply andb_false_r.
  - rewrite <- (Z.mod_small a (2 ^ n)) by lia.
    rewrite Z.mod_pow2_bits_high by lia. reflexivity.
Qed.

Lemma lor_shiftl_add (a b n : Z) :
  0 <= n -> 0 <= a < 2 ^ n -> Z.lor a (Z.shiftl b n) = a + b * 2 ^ n.
Proof.
  intros Hn Ha.
  pose proof (land_low_shiftl a b n Hn Ha) as Hz.
  rewrite <- Z.lxor_lor by exact Hz.
  rewrite <- Z.add_nocarry_lxor by exact Hz.
  rewrite Z.shiftl_mul_pow2 by lia. reflexivity.
Qed.

Lemma land_3_mod (a : Z) : Z.land a 3 = a mod 4.
Proof. change 3 with (Z.ones 2). rewrite Z.land_ones by lia. reflexivity. Qed.

(** ** The float codec *)

Module IbmFloatFacts.
Import IbmFloat.

Lemma pack_ieee_val (fr exp sgn : Z) :
  0 <= fr < 2 ^ 32 -> 0 <= exp < 2 ^ 8 -> 0 <= sgn < 2 ->
  pack_ieee fr exp sgn = fr / 2 ^ 9 + exp * 2 ^ 23 + sgn * 2 ^ 31.
Proof.
  intros Hf He Hs. unfold pack_ieee, u32.
  rewrite Z.shiftr_div_pow2 by lia.
  assert (Hq : 0 <= fr / 2 ^ 9 < 2 ^ 23).
  { split; [apply Z.div_pos; lia | apply Z.div_lt_upper_bound; lia]. }
  rewrite (lor_shiftl_add (fr / 2 ^ 9) exp 23) by lia.
  rewrite lor_shiftl_add by lia.
  apply Z.mod_small. lia.
Qed.

Lemma pack_ibm_val (fr exp sgn : Z) :
  0 <= fr < 2 ^ 32 -> 0 <= exp < 2 ^ 7 -> 0 <= sgn < 2 ->
  pack_ibm fr exp sgn = fr / 2 ^ 8 + exp * 2 ^ 24 + sgn * 2 ^ 31.
Proof.
  intros Hf He Hs. unfold pack_ibm, u32.
  rewrite Z.shiftr_div_pow2 by lia.
  assert (Hq : 0 <= fr / 2 ^ 8 < 2 ^ 24).
  { split; [apply Z.div_pos; lia | apply Z.div_lt_upper_bound; lia]. }
  rewrite (lor_shiftl_add (fr / 2 ^ 8) exp 24) by lia.
  rewrite lor_shiftl_add by lia.
  apply Z.mod_small. lia.
Qed.

Lemma ibm_normalize_more (fuel : nat) (fr exp : Z) :
  fr < 0x80000000 ->
  ibm_normalize (S fuel) fr exp = ibm_normalize fuel (u32 (Z.shiftl fr 1)) (exp - 1).
Proof.
  intros H. simpl. apply Z.ltb_lt in H. rewrite H. reflexivity.
Qed.

Lemma ibm_normalize_done (fuel : nat) (fr exp : Z) :
  0x80000000 <= fr -> ibm_normalize fuel fr exp = Some (fr, exp).
Proof.
  intros H. apply Z.ltb_ge in H. destruct fuel; simpl; rewrite H; reflexivity.
Qed.

Lemma ieee_normalize_more (fuel : nat) (fr exp : Z) :
  fr < 0x10000000 ->
  ieee_normalize (S fuel) fr exp = ieee_normalize fuel (u32 (Z.shiftl fr 4)) (exp - 1).
Proof.
  intros H. simpl. apply Z.ltb_lt in H. rewrite H. reflexivity.
Qed.

Lemma ieee_normalize_done (fuel : nat) (fr exp : Z) :
  0x10000000 <= fr -> ieee_normalize fuel fr exp = Some (fr, exp).
Proof.
  intros H. apply Z.ltb_ge in H. destruct fuel; simpl; rewrite H; reflexivity.
Qed.

End IbmFloatFacts.

Module IbmFloatRoundTrip.
Import IbmFloat IbmFloatFacts.

Ltac shift_arith :=
  unfold u32;
  repeat rewrite Z.shiftl_mul_pow2 by lia;
  repeat rewrite Z.shiftr_div_pow2 by lia;
  Z.div_mod_to_equations; lia.

(** The first lines of [ibm2ieee]: sign, exponent and fraction of the word
    [s·2^31 + e·2^24 + f]. *)
Lemma ibm2ieee_split (s e f : Z) :
  0 <= s < 2 -> 0 <= e < 2 ^ 7 -> 0 <= f < 2 ^ 24 ->
  ibm2ieee_word (s * 2 ^ 31 + e * 2 ^ 24 + f) =
    if f * 2 ^ 8 =? 0 then Some (pack_ieee (f * 2 ^ 8) 0 s)
    else
      match ibm_normalize 32 (f * 2 ^ 8) (4 * e - 130) with
      | None => None
      | Some (fr, exp) =>
          if exp <=? 0 then
            let fr := if exp <? -24 then 0 else Z.shiftr fr (- exp) in
            Some (pack_ieee fr 0 s)
          else if exp >=? 255 then Some (pack_ieee 0 255 s)
          else Some (pack_ieee (u32 (Z.shiftl fr 1)) exp s)
      end.
Proof.
  intros Hs He Hf. unfold ibm2ieee_word. cbv zeta.
  set (x := s * 2 ^ 31 + e * 2 ^ 24 + f).
  assert (E1 : Z.shiftr x 31 = s) by (subst x; shift_arith).
  assert (E2 : u32 (Z.shiftl x 1) = e * 2 ^ 25 + 2 * f) by (subst x; shift_arith).
  rewrite E1, E2.
  assert (E3 : Z.shiftr (e * 2 ^ 25 + 2 * f) 25 = e) by shift_arith.
  assert (E4 : u32 (Z.shiftl (e * 2 ^ 25 + 2 * f) 7) = f * 2 ^ 8) by shift_arith.
  rewrite E3, E4.
  replace (Z.shiftl e 2 - 130) with (4 * e - 130) by shift_arith.
  reflexivity.
Qed.


Lemma ibm_normalize_lz (f exp : Z) :
  2 ^ 20 <= f < 2 ^ 24 ->
  ibm_normalize 32 (f * 2 ^ 8) exp =
    Some (f * 2 ^ (8 + ibm_lz f), exp - ibm_lz f).
Proof.
  intros Hf. unfold ibm_lz.
  destruct (2 ^ 23 <=? f) eqn:E3; [apply Z.leb_le in E3 | apply Z.leb_gt in E3].
  { rewrite ibm_normalize_done by lia. f_equal. f_equal; lia. }
  rewrite ibm_normalize_more by lia.
  replace (u32 (Z.shiftl (f * 2 ^ 8) 1)) with (f * 2 ^ 9) by shift_arith.
  destruct (2 ^ 22 <=? f) eqn:E2; [apply Z.leb_le in E2 | apply Z.leb_gt in E2].
  { rewrite ibm_normalize_done by lia. reflexivity. }
  rewrite ibm_normalize_more by lia.
  replace (u32 (Z.shiftl (f * 2 ^ 9) 1)) with (f * 2 ^ 10) by shift_arith.
  destruct (2 ^ 21 <=? f) eqn:E1; [apply Z.leb_le in E1 | apply Z.leb_gt in E1].
  { rewrite ibm_normalize_done by lia. f_equal. f_equal; lia. }
  rewrite ibm_normalize_more by lia.
  replace (u32 (Z.shiftl (f * 2 ^ 10) 1)) with (f * 2 ^ 11) by shift_arith.
  rewrite ibm_normalize_done by lia. f_equal. f_equal; lia.
Qed.

Lemma ibm_lz_range (f : Z) : 0 <= ibm_lz f <= 3.
Proof. unfold ibm_lz. repeat match goal with |- context [if ?c then _ else _] => destruct c end; lia. Qed.

Lemma ibm_lz_spec (f : Z) :
  2 ^ 20 <= f < 2 ^ 24 -> 2 ^ 23 <= f * 2 ^ ibm_lz f < 2 ^ 24.
Proof.
  intros Hf. unfold ibm_lz.
  destruct (2 ^ 23 <=? f) eqn:E3; [apply Z.leb_le in E3 | apply Z.leb_gt in E3]; [lia|].
  destruct (2 ^ 22 <=? f) eqn:E2; [apply Z.leb_le in E2 | apply Z.leb_gt in E2]; [lia|].
  destruct (2 ^ 21 <=? f) eqn:E1; [apply Z.leb_le in E1 | apply Z.leb_gt in E1]; lia.
Qed.

(** Decoding a normalised IBM word whose value is a normal IEEE number. *)
Lemma ibm2ieee_normal (s e f : Z) :
  0 <= s < 2 -> 0 <= e < 2 ^ 7 -> 2 ^ 20 <= f < 2 ^ 24 ->
  1 <= 4 * e - 130 - ibm_lz f <= 254 ->
  ibm2ieee_word (s * 2 ^ 31 + e * 2 ^ 24 + f) =
    Some (s * 2 ^ 31 + (4 * e - 130 - ibm_lz f) * 2 ^ 23
          + (f * 2 ^ ibm_lz f - 2 ^ 23)).
Proof.
  intros Hs He Hf Hx.
  rewrite ibm2ieee_split by lia.
  replace (f * 2 ^ 8 =? 0) with false by (symmetry; apply Z.eqb_neq; lia).
  rewrite ibm_normalize_lz by lia.
  pose proof (ibm_lz_range f) as Hk. pose proof (ibm_lz_spec f Hf) as Hn.
  set (k := ibm_lz f) in *.
  replace (4 * e - 130 - k <=? 0) with false by (symmetry; apply Z.leb_gt; lia).
  replace (4 * e - 130 - k >=? 255) with false by (symmetry; rewrite Z.geb_leb; apply Z.leb_gt; lia).
  f_equal.
  assert (Hk' : k = 0 \/ k = 1 \/ k = 2 \/ k = 3) by lia.
  assert (Hfr : u32 (Z.shiftl (f * 2 ^ (8 + k)) 1) = (f * 2 ^ k - 2 ^ 23) * 2 ^ 9).
  { destruct Hk' as [-> | [-> | [-> | ->]]]; shift_arith. }
  rewrite Hfr.
  rewrite pack_ieee_val by lia.
  rewrite Z.div_mul by lia. lia.
Qed.


(** Encoding a normal IEEE number. *)
Lemma ieee2ibm_normal (s E m : Z) :
  0 <= s < 2 -> 1 <= E <= 254 -> 0 <= m < 2 ^ 23 ->
  ieee2ibm_word (s * 2 ^ 31 + E * 2 ^ 23 + m) =
    Some ((m * 2 ^ 8 + 2 ^ 31) / 2 ^ ((- (E + 130)) mod 4) / 2 ^ 8
          + (E + 133) / 4 * 2 ^ 24 + s * 2 ^ 31).
Proof.
  intros Hs HE Hm. unfold ieee2ibm_word. cbv zeta.
  set (y := s * 2 ^ 31 + E * 2 ^ 23 + m).
  assert (E1 : Z.shiftr y 31 = s) by (subst y; shift_arith).
  assert (E2 : u32 (Z.shiftl y 1) = E * 2 ^ 24 + 2 * m) by (subst y; shift_arith).
  rewrite E1, E2.
  assert (E3 : Z.shiftr (E * 2 ^ 24 + 2 * m) 24 = E) by shift_arith.
  assert (E4 : u32 (Z.shiftl (E * 2 ^ 24 + 2 * m) 8) = m * 2 ^ 9) by shift_arith.
  rewrite E3, E4.
  replace (E =? 255) with false by (symmetry; apply Z.eqb_neq; lia).
  replace (E >? 0) with true by (symmetry; rewrite Z.gtb_ltb; apply Z.ltb_lt; lia).
  assert (E5 : Z.lor (Z.shiftr (m * 2 ^ 9) 1) 0x80000000 = m * 2 ^ 8 + 2 ^ 31).
  { change 0x80000000 with (Z.shiftl 1 31).
    replace (Z.shiftr (m * 2 ^ 9) 1) with (m * 2 ^ 8) by shift_arith.
    rewrite lor_shiftl_add by lia. lia. }
  rewrite E5. unfold ieee2ibm_rebase. cbv zeta.
  rewrite land_3_mod.
  assert (Hsh : 0 <= (- (E + 130)) mod 4 < 4) by (apply Z.mod_pos_bound; lia).
  set (sh := (- (E + 130)) mod 4) in *.
  rewrite (Z.shiftr_div_pow2 _ sh) by lia.
  replace (Z.shiftr (E + 130 + 3) 2) with ((E + 133) / 4) by shift_arith.
  assert (Hfr : 2 ^ 28 <= (m * 2 ^ 8 + 2 ^ 31) / 2 ^ sh < 2 ^ 32).
  { assert (Hc : sh = 0 \/ sh = 1 \/ sh = 2 \/ sh = 3) by lia.
    destruct Hc as [-> | [-> | [-> | ->]]]; Z.div_mod_to_equations; lia. }
  rewrite ieee_normalize_done by (change 0x10000000 with (2 ^ 28); lia).
  rewrite pack_ibm_val; [reflexivity | lia | Z.div_mod_to_equations; lia | lia].
Qed.


Lemma ibm_fields (x : Z) :
  0 <= x < 2 ^ 32 ->
  x = (x / 2 ^ 31) * 2 ^ 31 + ibm_exponent x * 2 ^ 24 + ibm_fraction x /\
  0 <= x / 2 ^ 31 < 2 /\ 0 <= ibm_exponent x < 2 ^ 7 /\
  0 <= ibm_fraction x < 2 ^ 24.
Proof.
  intros Hx. unfold ibm_exponent, ibm_fraction.
  Z.div_mod_to_equations. lia.
Qed.

(** The IEEE exponent field of the decoded word is [ibm_binexp]. *)
Lemma ibm2ieee_exponent (x : Z) :
  0 <= x < 2 ^ 32 -> ibm_normalized x -> 1 <= ibm_binexp x <= 254 ->
  exists y, ibm2ieee_word x = Some y /\ ieee_exponent y = ibm_binexp x.
Proof.
  intros Hx Hn Hb. unfold ibm_normalized in Hn. unfold ibm_binexp in *.
  destruct (ibm_fields x Hx) as (Ex & Hs & He & Hf).
  set (s := x / 2 ^ 31) in *. set (e := ibm_exponent x) in *.
  set (f := ibm_fraction x) in *.
  pose proof (ibm_lz_range f) as Hk.
  pose proof (ibm_lz_spec f (conj Hn (proj2 Hf))) as Hm.
  eexists. split.
  - rewrite Ex. apply ibm2ieee_normal; lia.
  - unfold ieee_exponent. set (k := ibm_lz f) in *.
    Z.div_mod_to_equations. lia.
Qed.


Lemma roundtrip_fields (s e f : Z) :
  0 <= s < 2 -> 0 <= e < 2 ^ 7 -> 2 ^ 20 <= f < 2 ^ 24 ->
  1 <= 4 * e - 130 - ibm_lz f <= 254 ->
  roundtrip_word (s * 2 ^ 31 + e * 2 ^ 24 + f) =
    Some (s * 2 ^ 31 + e * 2 ^ 24 + f).
Proof.
  intros Hs He Hf Hb.
  pose proof (ibm_lz_range f) as Hk.
  pose proof (ibm_lz_spec f Hf) as Hm.
  unfold roundtrip_word.
  rewrite ibm2ieee_normal by lia.
  set (k := ibm_lz f) in *.
  rewrite ieee2ibm_normal by lia.
  f_equal.
  replace (- (4 * e - 130 - k + 130)) with (k + (- e) * 4) by lia.
  rewrite Z.mod_add by lia. rewrite (Z.mod_small k 4) by lia.
  replace ((f * 2 ^ k - 2 ^ 23) * 2 ^ 8 + 2 ^ 31) with (f * 2 ^ 8 * 2 ^ k) by lia.
  rewrite Z.div_mul by lia. rewrite Z.div_mul by lia.
  replace (4 * e - 130 - k + 133) with ((3 - k) + e * 4) by lia.
  rewrite Z.div_add by lia. rewrite (Z.div_small (3 - k) 4) by lia.
  lia.
Qed.

(** On every 32-bit IBM word whose fraction is normalised and whose value
    falls in IEEE's normal range, decoding with [ibm2ieee] and encoding the
    result with [ieee2ibm] gives back the word itself. *)
Lemma ibm_ieee_roundtrip_normal (x : Z) :
  0 <= x < 2 ^ 32 -> ibm_normalized x -> 1 <= ibm_binexp x <= 254 ->
  roundtrip_word x = Some x.
Proof.
  intros Hx Hn Hb. unfold ibm_normalized in Hn. unfold ibm_binexp in Hb.
  destruct (ibm_fields x Hx) as (Ex & Hs & He & Hf).
  pose proof (roundtrip_fields (x / 2 ^ 31) (ibm_exponent x) (ibm_fraction x))
    as H.
  rewrite <- Ex in H. apply H; lia.
Qed.

(** C1 as stated fails: the unnormalised IBM word [0x41010000] (0.0625)
    decodes to IEEE [0x3D800000] and is encoded back as the normalised
    word [0x40100000]. *)
Lemma ibm_ieee_roundtrip_counterexample :
  0 <= 0x41010000 < 2 ^ 32 /\
  ibm2ieee_word 0x41010000 = Some 0x3D800000 /\
  ieee2ibm_word 0x3D800000 = Some 0x40100000 /\
  roundtrip_word 0x41010000 <> Some 0x41010000.
Proof.
  split; [lia|]. split; [reflexivity|]. split; [reflexivity|].
  vm_compute. discriminate.
Qed.

(** Further words that do not come back: a zero fraction under a non-zero
    exponent, a magnitude above IEEE's range, one below it. *)
Example roundtrip_zero_fraction : roundtrip_word 0x41000000 = Some 0.
Proof. reflexivity. Qed.

Example roundtrip_overflow : roundtrip_word 0x61100000 = Some 0x7fffffff.
Proof. reflexivity. Qed.

Example roundtrip_underflow : roundtrip_word 0x00100000 = Some 0.
Proof. reflexivity. Qed.

(** Scenario S4 of the specification. *)
Example ibm2ieee_one : ibm2ieee_word 0x41100000 = Some 0x3F800000.
Proof. reflexivity. Qed.

Example ibm2ieee_minus_eight : ibm2ieee_word 0xC2080000 = Some 0xC1000000.
Proof. reflexivity. Qed.

End IbmFloatRoundTrip.

(** ** The conversions are total on 32-bit words *)

Module IbmFloatTotal.
Import IbmFloat IbmFloatFacts IbmFloatRoundTrip.

Lemma ibm_normalize_fuel (n : nat) (fr exp : Z) :
  (n <= 32)%nat -> 2 ^ (32 - Z.of_nat n) <= fr < 2 ^ 32 ->
  exists fr' exp', ibm_normalize n fr exp = Some (fr', exp') /\
                   2 ^ 31 <= fr' < 2 ^ 32 /\ exp - Z.of_nat n <= exp' <= exp.
Proof.
  revert fr exp. induction n as [|n IH]; intros fr exp Hn Hfr.
  - simpl in Hfr. lia.
  - destruct (Z.lt_ge_cases fr 0x80000000) as [Hlt|Hge].
    + rewrite ibm_normalize_more by exact Hlt.
      assert (Hp : 2 ^ (32 - Z.of_nat n) = 2 * 2 ^ (32 - Z.of_nat (S n))).
      { rewrite <- Z.pow_succ_r by lia. f_equal. lia. }
      destruct (IH (u32 (Z.shiftl fr 1)) (exp - 1)) as (fr' & exp' & E & B1 & B2).
      * lia.
      * replace (u32 (Z.shiftl fr 1)) with (2 * fr) by shift_arith. lia.
      * exists fr', exp'. repeat split; try assumption; lia.
    + exists fr, exp. rewrite ibm_normalize_done by exact Hge.
      repeat split; lia.
Qed.

Lemma pack_ieee_range (fr exp sgn : Z) : 0 <= pack_ieee fr exp sgn < 2 ^ 32.
Proof. unfold pack_ieee, u32. apply Z.mod_pos_bound. lia. Qed.

Lemma pack_ibm_range (fr exp sgn : Z) : 0 <= pack_ibm fr exp sgn < 2 ^ 32.
Proof. unfold pack_ibm, u32. apply Z.mod_pos_bound. lia. Qed.

(** [ibm2ieee] returns on every input: its loop never runs out of fuel. *)
Lemma ibm2ieee_word_total (x : Z) :
  0 <= x < 2 ^ 32 -> exists y, ibm2ieee_word x = Some y /\ 0 <= y < 2 ^ 32.
Proof.
  intros Hx. destruct (ibm_fields x Hx) as (Ex & Hs & He & Hf).
  rewrite Ex. rewrite ibm2ieee_split by lia.
  destruct (ibm_fraction x * 2 ^ 8 =? 0) eqn:Ez.
  - eexists; split; [reflexivity | apply pack_ieee_range].
  - apply Z.eqb_neq in Ez.
    destruct (ibm_normalize_fuel 32 (ibm_fraction x * 2 ^ 8)
                (4 * ibm_exponent x - 130)) as (fr' & exp' & E & _ & _);
      [lia | simpl; lia |].
    rewrite E.
    destruct (exp' <=? 0); [|destruct (exp' >=? 255)];
      eexists; (split; [reflexivity | apply pack_ieee_range]).
Qed.

Lemma ieee_normalize_fuel (n : nat) (fr exp : Z) :
  (n <= 8)%nat -> 2 ^ (32 - 4 * Z.of_nat n) <= fr < 2 ^ 32 ->
  exists fr' exp', ieee_normalize n fr exp = Some (fr', exp').
Proof.
  revert fr exp. induction n as [|n IH]; intros fr exp Hn Hfr.
  - simpl in Hfr. lia.
  - destruct (Z.lt_ge_cases fr 0x10000000) as [Hlt|Hge].
    + rewrite ieee_normalize_more by exact Hlt.
      assert (Hp : 2 ^ (32 - 4 * Z.of_nat n) = 16 * 2 ^ (32 - 4 * Z.of_nat (S n))).
      { change 16 with (2 ^ 4). rewrite <- Z.pow_add_r by lia. f_equal. lia. }
      apply IH; [lia|].
      replace (u32 (Z.shiftl fr 4)) with (16 * fr) by shift_arith. lia.
    + exists fr, exp. apply ieee_normalize_done. exact Hge.
Qed.

Lemma ieee2ibm_rebase_total (fr exp sgn : Z) :
  2 ^ 9 <= fr < 2 ^ 32 -> exists x, ieee2ibm_rebase fr exp sgn = Some x.
Proof.
  intros Hfr. unfold ieee2ibm_rebase. cbv zeta.
  rewrite land_3_mod.
  assert (Hsh : 0 <= (- (exp + 130)) mod 4 < 4) by (apply Z.mod_pos_bound; lia).
  set (sh := (- (exp + 130)) mod 4) in *.
  rewrite (Z.shiftr_div_pow2 _ sh) by lia.
  assert (Hq : 2 ^ 0 <= fr / 2 ^ sh < 2 ^ 32).
  { assert (Hc : sh = 0 \/ sh = 1 \/ sh = 2 \/ sh = 3) by lia.
    destruct Hc as [-> | [-> | [-> | ->]]]; Z.div_mod_to_equations; lia. }
  destruct (ieee_normalize_fuel 8 (fr / 2 ^ sh) (Z.shiftr (exp + 130 + 3) 2))
    as (fr' & exp' & E); [lia | exact Hq |].
  rewrite E. eexists. reflexivity.
Qed.

(** [ieee2ibm] returns on every input as well. *)
Lemma ieee2ibm_word_total (y : Z) :
  0 <= y < 2 ^ 32 -> exists x, ieee2ibm_word y = Some x.
Proof.
  intros Hy. unfold ieee2ibm_word. cbv zeta.
  set (fr1 := u32 (Z.shiftl y 1)).
  assert (H1 : 0 <= fr1 < 2 ^ 32) by (apply Z.mod_pos_bound; lia).
  set (fr := u32 (Z.shiftl fr1 8)).
  assert (H2 : 0 <= fr < 2 ^ 32) by (apply Z.mod_pos_bound; lia).
  destruct (Z.shiftr fr1 24 =? 255); [eexists; reflexivity|].
  destruct (Z.shiftr fr1 24 >? 0).
  - apply ieee2ibm_rebase_total.
    change 0x80000000 with (Z.shiftl 1 31).
    assert (Hq : 0 <= Z.shiftr fr 1 < 2 ^ 31) by shift_arith.
    rewrite lor_shiftl_add by lia. lia.
  - destruct (fr =? 0) eqn:Ez; [eexists; reflexivity|].
    apply Z.eqb_neq in Ez. apply ieee2ibm_rebase_total.
    assert (Hm : fr mod 2 ^ 9 = 0) by (subst fr fr1; shift_arith).
    Z.div_mod_to_equations. lia.
Qed.

End IbmFloatTotal.

(** ** Text headers *)

Module TextHeader.
Import Codec CodecFacts.

(** C9: both transcoders stop at the first zero byte.  When that byte is at
    position [k = length pre], exactly the [k] bytes before it go through the
    lookup table, the output carries a zero at position [k], and whatever
    follows the zero in the input ([post]) does not reach the output. *)
Theorem transcode_up_to_first_zero (pre post : list byte) :
  Forall (fun c => c <> x00) pre ->
  ebcdic2ascii (pre ++ x00 :: post) = Some (map (lookup e2a) pre ++ [x00]) /\
  ascii2ebcdic (pre ++ x00 :: post) = Some (map (lookup a2e) pre ++ [x00]).
Proof.
  intros Hpre. split; apply transcode_stop; exact Hpre.
Qed.

Lemma transcode_up_to_first_zero_witness :
  ebcdic2ascii ([xc1; x40] ++ x00 :: [xc1]) = Some (map (lookup e2a) [xc1; x40] ++ [x00]) /\
  ascii2ebcdic ([xc1; x40] ++ x00 :: [xc1]) = Some (map (lookup a2e) [xc1; x40] ++ [x00]).
Proof.
  apply (transcode_up_to_first_zero [xc1; x40] [xc1]).
  repeat constructor; discriminate.
Defined.

(** The output has [k + 1] bytes and its last one is the terminator. *)
Lemma transcode_length (table : list Z) (pre post : list byte) (out : list byte) :
  Forall (fun c => c <> x00) pre ->
  transcode table (pre ++ x00 :: post) = Some out ->
  length out = S (length pre) /\ nth_error out (length pre) = Some x00.
Proof.
  intros Hpre H. rewrite transcode_stop in H by exact Hpre.
  inversion H; subst. split.
  - rewrite length_app, length_map. simpl. lia.
  - rewrite nth_error_app2; rewrite length_map; [|lia].
    rewrite Nat.sub_diag. reflexivity.
Qed.

(** C8: a buffer produced by [ascii2ebcdic] is a fixed point of
    [ascii2ebcdic] after [ebcdic2ascii]. *)
Theorem ascii2ebcdic_ebcdic2ascii_id (ascii buf : list byte) :
  ascii2ebcdic ascii = Some buf ->
  exists text, ebcdic2ascii buf = Some text /\ ascii2ebcdic text = Some buf.
Proof.
  unfold ascii2ebcdic, ebcdic2ascii. intros H.
  apply transcode_some in H. destruct H as (pre & post & -> & Hpre & ->).
  exists (pre ++ [x00]). split.
  - rewrite transcode_stop by (apply map_nonzero; [exact a2e_nonzero | exact Hpre]).
    rewrite map_map. f_equal. f_equal.
    rewrite <- (map_id pre) at 2. apply map_ext. exact e2a_a2e.
  - apply transcode_stop. exact Hpre.
Qed.

Lemma ascii2ebcdic_ebcdic2ascii_id_witness :
  exists text,
    ebcdic2ascii [xc1; x40; x00] = Some text /\
    ascii2ebcdic text = Some [xc1; x40; x00].
Proof.
  apply (ascii2ebcdic_ebcdic2ascii_id [x41; x20; x00; x41]).
  reflexivity.
Defined.

(** The same holds for any zero-terminated EBCDIC string, written by the
    library or not, because the two tables are inverse permutations. *)
Lemma ebcdic_roundtrip_any (pre post : list byte) :
  Forall (fun c => c <> x00) pre ->
  exists text,
    ebcdic2ascii (pre ++ x00 :: post) = Some text /\
    ascii2ebcdic text = Some (pre ++ [x00]).
Proof.
  intros Hpre. exists (map (lookup e2a) pre ++ [x00]). split.
  - apply transcode_stop. exact Hpre.
  - unfold ascii2ebcdic.
    rewrite transcode_stop by (apply map_nonzero; [exact e2a_nonzero | exact Hpre]).
    rewrite map_map. f_equal. f_equal.
    rewrite <- (map_id pre) at 2. apply map_ext. exact a2e_e2a.
Qed.

(** Scenario S5 of the specification. *)
Example ebcdic_A : lookup e2a xc1 = x41 /\ lookup a2e x41 = xc1.
Proof. split; reflexivity. Qed.

Example ebcdic_space : lookup e2a x40 = x20 /\ lookup a2e x20 = x40.
Proof. split; reflexivity. Qed.

End TextHeader.

(** ** Bytes and byte order *)

Lemma b2z_range (b : byte) : 0 <= b2z b < 256.
Proof. destruct b; vm_compute; split; congruence. Qed.

Lemma z2b_b2z (b : byte) : z2b (b2z b) = b.
Proof. destruct b; reflexivity. Qed.

Lemma z2b_mod (z : Z) (b : byte) : z mod 256 = b2z b -> z2b z = b.
Proof.
  intros H. rewrite <- (z2b_b2z b). unfold z2b. rewrite H.
  rewrite (Z.mod_small (b2z b)) by apply b2z_range. reflexivity.
Qed.

Lemma be_decode4 (a b c d : byte) :
  be_decode [a; b; c; d] = ((b2z a * 256 + b2z b) * 256 + b2z c) * 256 + b2z d.
Proof. unfold be_decode. simpl. lia. Qed.

Lemma be_decode4_range (a b c d : byte) : 0 <= be_decode [a; b; c; d] < 2 ^ 32.
Proof.
  rewrite be_decode4.
  pose proof (b2z_range a). pose proof (b2z_range b).
  pose proof (b2z_range c). pose proof (b2z_range d). lia.
Qed.

Lemma be_encode32_decode (a b c d : byte) :
  be_encode32 (be_decode [a; b; c; d]) = [a; b; c; d].
Proof.
  rewrite be_decode4. unfold be_encode32.
  pose proof (b2z_range a). pose proof (b2z_range b).
  pose proof (b2z_range c). pose proof (b2z_range d).
  repeat rewrite Z.shiftr_div_pow2 by lia.
  f_equal; [|f_equal; [|f_equal; [|f_equal]]];
    apply z2b_mod; Z.div_mod_to_equations; lia.
Qed.

(** [memcpy] into a word followed by [ntohl] reads the four bytes
    most significant first, whatever the host. *)
Lemma ntohl_host_load (host : endianness) (a b c d : byte) :
  ntohl host (host_load host [a; b; c; d]) = be_decode [a; b; c; d].
Proof.
  destruct host; unfold ntohl, host_load, host_store32.
  - change (rev [a; b; c; d]) with [d; c; b; a].
    rewrite be_encode32_decode. reflexivity.
  - rewrite be_encode32_decode. reflexivity.
Qed.

Lemma be_encode16_decode (a b : byte) :
  be_encode16 (be_decode [a; b]) = [a; b].
Proof.
  unfold be_decode, be_encode16. cbn [fold_left].
  pose proof (b2z_range a). pose proof (b2z_range b).
  rewrite Z.shiftr_div_pow2 by lia.
  f_equal; [|f_equal]; apply z2b_mod; Z.div_mod_to_equations; lia.
Qed.

(** The same for two bytes and [ntohs]. *)
Lemma ntohs_host_load (host : endianness) (a b : byte) :
  ntohs host (host_load host [a; b]) = be_decode [a; b].
Proof.
  destruct host; unfold ntohs, host_load, host_store16.
  - change (rev [a; b]) with [b; a].
    rewrite be_encode16_decode. reflexivity.
  - rewrite be_encode16_decode. reflexivity.
Qed.

Lemma host_store32_length (host : endianness) (w : Z) :
  length (host_store32 host w) = 4%nat.
Proof. destruct host; reflexivity. Qed.

(** ** Sample conversion *)

Module NativeFacts.
Import Native.

Lemma sample_cons4 (i : nat) (g rest : list byte) :
  length g = 4%nat -> sample (S i) (g ++ rest) = sample i rest.
Proof.
  intros Hg. unfold sample.
  replace (4 * S i)%nat with (length g + 4 * i)%nat by lia.
  rewrite skipn_app.
  replace (length g + 4 * i - length g)%nat with (4 * i)%nat by lia.
  rewrite skipn_all2 by lia. reflexivity.
Qed.

Lemma sample_0 (g rest : list byte) :
  length g = 4%nat -> sample 0 (g ++ rest) = g.
Proof.
  intros Hg. unfold sample. simpl skipn.
  rewrite firstn_app, <- Hg, firstn_all, Nat.sub_diag. simpl.
  apply app_nil_r.
Qed.

(** What the conversion loop does when [conv] is the total function [f] on
    four-byte groups. *)
Lemma convert_loop_samples (conv : list byte -> option (list byte))
  (f : list byte -> list byte) (n : nat) :
  (forall g, length g = 4%nat -> conv g = Some (f g) /\ length (f g) = 4%nat) ->
  forall buf, (4 * n <= length buf)%nat ->
  exists out,
    convert_loop conv n buf = Some out /\
    length out = length buf /\
    skipn (4 * n) out = skipn (4 * n) buf /\
    forall i, (i < n)%nat -> sample i out = f (sample i buf).
Proof.
  intros Hconv. induction n as [|n IH]; intros buf Hlen.
  - exists buf. simpl. repeat split. intros i Hi. lia.
  - destruct buf as [|b0 [|b1 [|b2 [|b3 rest]]]]; simpl in Hlen; try lia.
    destruct (Hconv [b0; b1; b2; b3] eq_refl) as [Ec Hl].
    destruct (IH rest) as (out & Eo & Lo & So & Po); [lia|].
    exists (f [b0; b1; b2; b3] ++ out).
    simpl convert_loop. rewrite Ec, Eo. simpl option_map.
    split; [reflexivity|]. split; [|split].
    + rewrite length_app, Hl, Lo. reflexivity.
    + replace (4 * S n)%nat with (length (f [b0; b1; b2; b3]) + 4 * n)%nat by lia.
      rewrite skipn_app.
      replace (length (f [b0; b1; b2; b3]) + 4 * n - length (f [b0; b1; b2; b3]))%nat
        with (4 * n)%nat by lia.
      rewrite skipn_all2 by lia. rewrite Hl. simpl. exact So.
    + intros i Hi. destruct i as [|i].
      * rewrite sample_0 by exact Hl. reflexivity.
      * rewrite sample_cons4 by exact Hl.
        change (b0 :: b1 :: b2 :: b3 :: rest) with ([b0; b1; b2; b3] ++ rest).
        rewrite sample_cons4 by reflexivity. apply Po. lia.
Qed.

End NativeFacts.

Module NativeConversion.
Import Native NativeFacts IbmFloat.

Lemma sample_four (i : nat) (buf : list byte) :
  (4 * S i <= length buf)%nat ->
  exists a b c d, sample i buf = [a; b; c; d].
Proof.
  intros Hlen. unfold sample.
  assert (Hl : length (firstn 4 (skipn (4 * i) buf)) = 4%nat).
  { rewrite length_firstn, length_skipn. lia. }
  destruct (firstn 4 (skipn (4 * i) buf)) as [|a [|b [|c [|d [|e r]]]]];
    simpl in Hl; try lia.
  exists a, b, c, d. reflexivity.
Qed.

Lemma ibm2ieee_group (host : endianness) (g : list byte) :
  length g = 4%nat ->
  ibm2ieee host g = Some (ibm_group host g) /\ length (ibm_group host g) = 4%nat.
Proof.
  intros Hg. destruct g as [|a [|b [|c [|d [|e r]]]]]; simpl in Hg; try lia.
  unfold ibm_group, ibm2ieee. rewrite ntohl_host_load.
  destruct (IbmFloatTotal.ibm2ieee_word_total (be_decode [a; b; c; d])
              (be_decode4_range a b c d)) as (y & Ey & _).
  rewrite Ey. simpl. split; [reflexivity | apply host_store32_length].
Qed.

(** C7 (as amended): [segy_to_native] knows two cases only.  For format 5
    every sample is the big-endian word of the buffer stored in host order;
    for every other format code, 2, 3, 4 and 8 included, every sample is
    put through the IBM-to-IEEE conversion.  Bytes after the [n] samples are
    left alone. *)
Theorem segy_to_native_two_cases (host : endianness) (format : Z)
  (n : nat) (buf : list byte) :
  (4 * n <= length buf)%nat ->
  exists out,
    segy_to_native host format (Z.of_nat n) buf = Some (SEGY_OK, out) /\
    length out = length buf /\
    skipn (4 * n) out = skipn (4 * n) buf /\
    forall i, (i < n)%nat ->
      if format =? IEEE_FLOAT_4_BYTE
      then sample i out = host_store32 host (be_decode (sample i buf))
      else exists y,
             ibm2ieee_word (be_decode (sample i buf)) = Some y /\
             sample i out = host_store32 host y.
Proof.
  intros Hlen. unfold segy_to_native.
  replace (Z.of_nat n <? 0) with false by (symmetry; apply Z.ltb_ge; lia).
  rewrite Nat2Z.id.
  destruct (format =? IEEE_FLOAT_4_BYTE).
  - destruct (convert_loop_samples (swap_ntohl host)
                (fun g => host_store32 host (ntohl host (host_load host g))) n)
      with (buf := buf) as (out & Eo & Lo & So & Po).
    + intros g _. split; [reflexivity | apply host_store32_length].
    + exact Hlen.
    + exists out. rewrite Eo. repeat split; try assumption.
      intros i Hi. rewrite (Po i Hi).
      destruct (sample_four i buf) as (a & b & c & d & Es); [lia|].
      rewrite Es, ntohl_host_load. reflexivity.
  - destruct (convert_loop_samples (ibm2ieee host) (ibm_group host) n)
      with (buf := buf) as (out & Eo & Lo & So & Po).
    + apply ibm2ieee_group.
    + exact Hlen.
    + exists out. rewrite Eo. repeat split; try assumption.
      intros i Hi. rewrite (Po i Hi).
      destruct (sample_four i buf) as (a & b & c & d & Es); [lia|].
      rewrite Es. unfold ibm_group, ibm2ieee. rewrite ntohl_host_load.
      destruct (IbmFloatTotal.ibm2ieee_word_total (be_decode [a; b; c; d])
                  (be_decode4_range a b c d)) as (y & Ey & _).
      exists y. rewrite Ey. split; reflexivity.
Qed.

Lemma segy_to_native_two_cases_witness :
  exists out,
    segy_to_native LittleEndian IBM_FLOAT_4_BYTE (Z.of_nat 1)
      [x41; x10; x00; x00] = Some (SEGY_OK, out) /\
    length out = length [x41; x10; x00; x00] /\
    skipn (4 * 1) out = skipn (4 * 1) [x41; x10; x00; x00] /\
    forall i, (i < 1)%nat ->
      if IBM_FLOAT_4_BYTE =? IEEE_FLOAT_4_BYTE
      then sample i out =
           host_store32 LittleEndian (be_decode (sample i [x41; x10; x00; x00]))
      else exists y,
             ibm2ieee_word (be_decode (sample i [x41; x10; x00; x00])) = Some y /\
             sample i out = host_store32 LittleEndian y.
Proof.
  apply (segy_to_native_two_cases LittleEndian IBM_FLOAT_4_BYTE 1
           [x41; x10; x00; x00]).
  simpl. lia.
Defined.

(** C7 as stated fails for the pass-through formats: under format 2
    (32-bit integer) the sample [41 10 00 00] does not stay as it is, it
    becomes the IEEE float 1.0, on a host of either byte order. *)
Lemma segy_to_native_passthrough_counterexample :
  segy_to_native LittleEndian SIGNED_INTEGER_4_BYTE 1 [x41; x10; x00; x00]
    = Some (SEGY_OK, [x00; x00; x80; x3f]) /\
  segy_to_native BigEndian SIGNED_INTEGER_4_BYTE 1 [x41; x10; x00; x00]
    = Some (SEGY_OK, [x3f; x80; x00; x00]) /\
  [x00; x00; x80; x3f] <> [x41; x10; x00; x00] /\
  [x3f; x80; x00; x00] <> [x41; x10; x00; x00].
Proof.
  split; [reflexivity|]. split; [reflexivity|]. split; discriminate.
Qed.

(** Formats 3, 4 and 8 take the same branch. *)
Example segy_to_native_format_3_4_8 :
  segy_to_native BigEndian SIGNED_SHORT_2_BYTE 1 [x41; x10; x00; x00]
    = Some (SEGY_OK, [x3f; x80; x00; x00]) /\
  segy_to_native BigEndian FIXED_POINT_WITH_GAIN_4_BYTE 1 [x41; x10; x00; x00]
    = Some (SEGY_OK, [x3f; x80; x00; x00]) /\
  segy_to_native BigEndian SIGNED_CHAR_1_BYTE 1 [x41; x10; x00; x00]
    = Some (SEGY_OK, [x3f; x80; x00; x00]).
Proof. repeat split; reflexivity. Qed.

End NativeConversion.

(** ** Reading through the stream and through the mapping *)

Module ReadFacts.
Import File Layout.

Lemma s32_small (i : Z) : 0 <= i < 2 ^ 31 -> s32 i = i.
Proof.
  intros H. unfold s32, u32. rewrite Z.mod_small by lia.
  replace (i <? 2 ^ 31) with true by (symmetry; apply Z.ltb_lt; lia).
  reflexivity.
Qed.

Lemma u32_small (z : Z) : 0 <= z < 2 ^ 32 -> u32 z = z.
Proof. intros H. apply Z.mod_small. exact H. Qed.

Lemma slice_length (l : list byte) (p n : Z) :
  0 <= p -> 0 <= n -> p + n <= Z.of_nat (length l) ->
  Z.of_nat (length (slice l p n)) = n.
Proof.
  intros Hp Hn Hl. unfold slice.
  rewrite length_firstn, length_skipn. lia.
Qed.

Lemma trace_pos_in_range (len trace0 bsize i : Z) :
  trace_in_range len trace0 bsize i ->
  trace_pos trace0 bsize i = trace0 + i * (bsize + 240) /\
  0 <= trace_pos trace0 bsize i /\
  trace_pos trace0 bsize i + 240 + bsize <= len.
Proof.
  unfold trace_in_range, trace_pos, SEGY_TRACE_HEADER_SIZE.
  intros (H0 & Hb & Hw & Hi & Hlen).
  rewrite s32_small by lia. rewrite u32_small by lia.
  split; [reflexivity|]. split; nia.
Qed.

(** [segy_seek] on a stream. *)
Lemma segy_seek_buffered (h : segy_file) (trace trace0 bsize : Z) :
  addr h = None ->
  0 <= trace0 + trace * u32 (bsize + SEGY_TRACE_HEADER_SIZE) ->
  segy_seek h trace trace0 bsize =
    (SEGY_OK,
     with_fp h (set_fpos (fp h)
                  (trace0 + trace * u32 (bsize + SEGY_TRACE_HEADER_SIZE)))).
Proof.
  intros Ha Hp. unfold segy_seek, is_mapped. rewrite Ha.
  unfold fseek_set.
  replace (_ <? 0) with false by (symmetry; apply Z.ltb_ge; lia).
  reflexivity.
Qed.

(** [segy_seek] on a mapping. *)
Lemma segy_seek_mapped (h : segy_file) (trace trace0 bsize : Z) :
  is_mapped h = true ->
  0 <= trace0 + trace * u32 (bsize + SEGY_TRACE_HEADER_SIZE) < fsize h ->
  fsize h < 2 ^ 64 ->
  segy_seek h trace trace0 bsize =
    (SEGY_OK,
     with_cur h (trace0 + trace * u32 (bsize + SEGY_TRACE_HEADER_SIZE))).
Proof.
  intros Ha Hp Hs. unfold segy_seek. rewrite Ha.
  unfold u64. rewrite (Z.mod_small (trace0 + _)) by lia.
  replace (_ >=? fsize h) with false
    by (symmetry; rewrite Z.geb_leb; apply Z.leb_gt; lia).
  reflexivity.
Qed.

Lemma segy_traceheader_buffered (h : segy_file) (trace0 bsize i : Z) :
  buffered h ->
  trace_in_range (file_length (fp h)) trace0 bsize i ->
  exists h',
    segy_traceheader h i trace0 bsize =
      Some (SEGY_OK, h',
            slice (contents (fp h)) (trace_pos trace0 bsize i)
              SEGY_TRACE_HEADER_SIZE) /\
    contents (fp h') = contents (fp h) /\ buffered h'.
Proof.
  intros [Ha Hr] Hin.
  destruct (trace_pos_in_range _ _ _ _ Hin) as (Ep & Hp0 & Hp1).
  assert (Hb : 0 <= bsize) by (destruct Hin as (_ & ? & _); assumption).
  unfold trace_pos in *. unfold segy_traceheader.
  rewrite segy_seek_buffered by (assumption || lia).
  cbn -[Z.mul Z.add slice s32 u32 Z.of_nat].
  unfold is_mapped, with_fp. cbn -[Z.mul Z.add slice s32 u32 Z.of_nat].
  rewrite Ha. unfold fread. cbn -[Z.mul Z.add slice s32 u32 Z.of_nat].
  rewrite Hr.
  rewrite slice_length by (unfold file_length, SEGY_TRACE_HEADER_SIZE in *; lia).
  cbn -[Z.mul Z.add slice s32 u32 Z.of_nat].
  eexists. split; [reflexivity|]. split; [reflexivity|].
  split; [reflexivity | exact Hr].
Qed.

Lemma segy_traceheader_mapped (h : segy_file) (trace0 bsize i : Z) :
  mapped h ->
  trace_in_range (file_length (fp h)) trace0 bsize i ->
  exists h',
    segy_traceheader h i trace0 bsize =
      Some (SEGY_OK, h',
            slice (contents (fp h)) (trace_pos trace0 bsize i)
              SEGY_TRACE_HEADER_SIZE) /\
    contents (fp h') = contents (fp h) /\ mapped h'.
Proof.
  intros (Ha & Hs & Hlim) Hin.
  destruct (trace_pos_in_range _ _ _ _ Hin) as (Ep & Hp0 & Hp1).
  assert (Hb : 0 <= bsize) by (destruct Hin as (_ & ? & _); assumption).
  unfold trace_pos in *. unfold segy_traceheader.
  rewrite segy_seek_mapped by (assumption || lia).
  cbn -[Z.mul Z.add slice s32 u32 Z.of_nat].
  replace (is_mapped (with_cur h _)) with true by (symmetry; exact Ha).
  unfold map_read. cbn -[Z.mul Z.add slice s32 u32 Z.of_nat file_length].
  unfold SEGY_TRACE_HEADER_SIZE in *.
  replace (0 <=? _) with true by (symmetry; apply Z.leb_le; lia).
  replace (_ <=? fsize h) with true by (symmetry; apply Z.leb_le; lia).
  replace (_ <=? file_length (fp h)) with true by (symmetry; apply Z.leb_le; lia).
  cbn -[Z.mul Z.add slice s32 u32 Z.of_nat file_length].
  eexists. split; [reflexivity|]. split; [reflexivity|].
  repeat split; assumption.
Qed.


Lemma segy_readtrace_buffered (h : segy_file) (trace0 bsize i : Z) :
  buffered h ->
  trace_in_range (file_length (fp h)) trace0 bsize i ->
  exists h',
    segy_readtrace h i trace0 bsize =
      Some (SEGY_OK, h',
            slice (contents (fp h))
              (trace_pos trace0 bsize i + SEGY_TRACE_HEADER_SIZE) bsize) /\
    contents (fp h') = contents (fp h) /\ buffered h'.
Proof.
  intros [Ha Hr] Hin.
  destruct (trace_pos_in_range _ _ _ _ Hin) as (Ep & Hp0 & Hp1).
  assert (Hb : 0 <= bsize) by (destruct Hin as (_ & ? & _); assumption).
  unfold trace_pos in *. unfold segy_readtrace.
  rewrite segy_seek_buffered by (assumption || lia).
  cbn -[Z.mul Z.add slice s32 u32 Z.of_nat].
  unfold skip_traceheader, is_mapped, with_fp.
  cbn -[Z.mul Z.add slice s32 u32 Z.of_nat].
  rewrite Ha. unfold fseek_cur. cbn -[Z.mul Z.add slice s32 u32 Z.of_nat].
  unfold SEGY_TRACE_HEADER_SIZE in *.
  replace (_ <? 0) with false by (symmetry; apply Z.ltb_ge; lia).
  cbn -[Z.mul Z.add slice s32 u32 Z.of_nat].
  unfold fread. cbn -[Z.mul Z.add slice s32 u32 Z.of_nat].
  rewrite Hr.
  rewrite slice_length by (unfold file_length in *; lia).
  rewrite Z.eqb_refl.
  cbn -[Z.mul Z.add slice s32 u32 Z.of_nat].
  eexists. split; [reflexivity|]. split; [reflexivity|].
  split; [reflexivity | exact Hr].
Qed.

Lemma segy_readtrace_mapped (h : segy_file) (trace0 bsize i : Z) :
  mapped h ->
  trace_in_range (file_length (fp h)) trace0 bsize i ->
  exists h',
    segy_readtrace h i trace0 bsize =
      Some (SEGY_OK, h',
            slice (contents (fp h))
              (trace_pos trace0 bsize i + SEGY_TRACE_HEADER_SIZE) bsize) /\
    contents (fp h') = contents (fp h) /\ mapped h'.
Proof.
  intros (Ha & Hs & Hlim) Hin.
  destruct (trace_pos_in_range _ _ _ _ Hin) as (Ep & Hp0 & Hp1).
  assert (Hb : 0 <= bsize) by (destruct Hin as (_ & ? & _); assumption).
  unfold trace_pos in *. unfold segy_readtrace.
  rewrite segy_seek_mapped by (assumption || lia).
  cbn -[Z.mul Z.add slice s32 u32 Z.of_nat].
  unfold skip_traceheader.
  replace (is_mapped (with_cur h _)) with true by (symmetry; exact Ha).
  cbn -[Z.mul Z.add slice s32 u32 Z.of_nat file_length].
  replace (is_mapped (with_cur _ _)) with true by (symmetry; exact Ha).
  unfold map_read. cbn -[Z.mul Z.add slice s32 u32 Z.of_nat file_length].
  unfold SEGY_TRACE_HEADER_SIZE in *.
  replace (0 <=? _) with true by (symmetry; apply Z.leb_le; lia).
  replace (_ <=? fsize h) with true by (symmetry; apply Z.leb_le; lia).
  replace (_ <=? file_length (fp h)) with true by (symmetry; apply Z.leb_le; lia).
  cbn -[Z.mul Z.add slice s32 u32 Z.of_nat file_length].
  eexists. split; [reflexivity|]. split; [reflexivity|].
  repeat split; assumption.
Qed.

End ReadFacts.

Module MappedVsBuffered.
Import File Layout ReadFacts.

(** C2: for a trace index in range, [segy_traceheader] and [segy_readtrace]
    succeed on a mapped handle and on a buffered handle over the same file
    contents, and deliver the same bytes: the 240 bytes of the header and
    the [trace_bsize] bytes of the samples. *)
Theorem mapped_buffered_same_bytes (hb hm : segy_file) (trace0 bsize i : Z) :
  buffered hb -> mapped hm ->
  contents (fp hb) = contents (fp hm) ->
  trace_in_range (file_length (fp hb)) trace0 bsize i ->
  exists hb1 hm1 hb2 hm2 header samples,
    segy_traceheader hb i trace0 bsize = Some (SEGY_OK, hb1, header) /\
    segy_traceheader hm i trace0 bsize = Some (SEGY_OK, hm1, header) /\
    segy_readtrace hb i trace0 bsize = Some (SEGY_OK, hb2, samples) /\
    segy_readtrace hm i trace0 bsize = Some (SEGY_OK, hm2, samples) /\
    Z.of_nat (length header) = SEGY_TRACE_HEADER_SIZE /\
    Z.of_nat (length samples) = bsize.
Proof.
  intros Hb Hm Hc Hin.
  assert (Hin' : trace_in_range (file_length (fp hm)) trace0 bsize i).
  { unfold file_length in *. rewrite <- Hc. exact Hin. }
  destruct (segy_traceheader_buffered hb _ _ _ Hb Hin) as (hb1 & E1 & _).
  destruct (segy_traceheader_mapped hm _ _ _ Hm Hin') as (hm1 & E2 & _).
  destruct (segy_readtrace_buffered hb _ _ _ Hb Hin) as (hb2 & E3 & _).
  destruct (segy_readtrace_mapped hm _ _ _ Hm Hin') as (hm2 & E4 & _).
  rewrite <- Hc in E2, E4.
  exists hb1, hm1, hb2, hm2. eexists. eexists.
  split; [exact E1|]. split; [exact E2|]. split; [exact E3|]. split; [exact E4|].
  destruct (trace_pos_in_range _ _ _ _ Hin) as (_ & Hp0 & Hp1).
  destruct Hin as (_ & Hbs & _).
  unfold file_length, SEGY_TRACE_HEADER_SIZE in *.
  split; apply slice_length; lia.
Qed.

End MappedVsBuffered.

Module SuccessfulReads.
Import File Layout ReadFacts.

(** Without any assumption on the index: whenever both branches of
    [segy_traceheader] report success, they have stored the same bytes. *)
Lemma segy_traceheader_agree (hb hm hb' hm' : segy_file)
  (trace0 bsize i : Z) (d1 d2 : list byte) :
  addr hb = None -> is_mapped hm = true ->
  contents (fp hb) = contents (fp hm) ->
  segy_traceheader hb i trace0 bsize = Some (SEGY_OK, hb', d1) ->
  segy_traceheader hm i trace0 bsize = Some (SEGY_OK, hm', d2) ->
  d1 = d2.
Proof.
  intros Hb Hm Hc. unfold segy_traceheader, segy_seek.
  unfold is_mapped in *. rewrite Hb.
  destruct (addr hm) as [w|] eqn:Eam; [|discriminate].
  set (pos := trace0 + s32 i * u32 (bsize + SEGY_TRACE_HEADER_SIZE)).
  unfold fseek_set.
  destruct (pos <? 0); cbn -[slice]; [discriminate|].
  rewrite Hb. unfold fread. cbn -[slice].
  destruct (readable (fp hb)); cbn -[slice]; [|discriminate].
  destruct (negb _); [discriminate|].
  intros H1. inversion H1; subst; clear H1.
  destruct (u64 pos >=? fsize hm); cbn -[slice]; [discriminate|].
  rewrite Eam. unfold map_read. cbn -[slice].
  destruct (_ && _); [|discriminate].
  intros H2. inversion H2; subst. rewrite Hc. reflexivity.
Qed.

(** The same for [segy_readtrace]. *)
Lemma segy_readtrace_agree (hb hm hb' hm' : segy_file)
  (trace0 bsize i : Z) (d1 d2 : list byte) :
  addr hb = None -> is_mapped hm = true ->
  contents (fp hb) = contents (fp hm) ->
  segy_readtrace hb i trace0 bsize = Some (SEGY_OK, hb', d1) ->
  segy_readtrace hm i trace0 bsize = Some (SEGY_OK, hm', d2) ->
  d1 = d2.
Proof.
  intros Hb Hm Hc. unfold segy_readtrace, segy_seek.
  unfold is_mapped in *. rewrite Hb.
  destruct (addr hm) as [w|] eqn:Eam; [|discriminate].
  set (pos := trace0 + s32 i * u32 (bsize + SEGY_TRACE_HEADER_SIZE)).
  unfold fseek_set.
  destruct (pos <? 0); cbn -[slice]; [discriminate|].
  unfold skip_traceheader, is_mapped. cbn -[slice].
  rewrite Hb. unfold fseek_cur. cbn -[slice].
  destruct (pos + SEGY_TRACE_HEADER_SIZE <? 0); cbn -[slice]; [discriminate|].
  unfold fread. cbn -[slice].
  destruct (readable (fp hb)); cbn -[slice]; rewrite Hb.
  - destruct (negb _); [discriminate|].
    intros H1. inversion H1; subst; clear H1.
    destruct (u64 pos >=? fsize hm); cbn -[slice]; [discriminate|].
    rewrite Eam. cbn -[slice]. rewrite Eam. unfold map_read. cbn -[slice].
    destruct (_ && _); [|discriminate].
    intros H2. inversion H2; subst. rewrite Hc. reflexivity.
  - (* a stream that cannot be read still delivers zero bytes *)
    destruct bsize as [|p|p]; cbn -[slice]; try discriminate.
    intros H1. inversion H1; subst; clear H1.
    destruct (u64 pos >=? fsize hm); cbn -[slice]; [discriminate|].
    rewrite Eam. cbn -[slice]. rewrite Eam. unfold map_read. cbn -[slice].
    destruct (_ && _); [|discriminate].
    intros H2. inversion H2; subst. reflexivity.
Qed.

End SuccessfulReads.

(** ** The sample interval *)

Module SampleInterval.
Import File Field.

Section WithTables.

Variable field_size : Z -> Z.
Variable bfield_size : Z -> Z.
Variable TRACE_SAMPLE_INTERVAL : Z.
Variable BIN_Interval : Z.
Variable BIN_Samples : Z.
Variable BIN_ExtendedHeaders : Z.

(** C4 (as amended): on a file whose binary header and first trace header
    can be read, with [b] the interval of the binary header and [t] that of
    the trace header (microseconds), [segy_sample_interval] succeeds and
    stores [t] in milliseconds when [b] is zero and [t] is not, [b] in
    milliseconds when [t] is zero and [b] is not, their common value when
    both are non-zero and equal; when both are zero it stores nothing and
    [*dt] keeps the value the caller gave it. *)
Theorem segy_sample_interval_cases (h h1 h2 : segy_file) (dt : float)
  (bin hdr : list byte) (trace0 samples b t : Z) :
  segy_binheader h = (SEGY_OK, h1, bin) ->
  segy_trace0 bfield_size BIN_ExtendedHeaders bin = Some trace0 ->
  segy_samples bfield_size BIN_Samples bin = Some samples ->
  segy_traceheader h1 0 trace0 (segy_trace_bsize samples)
    = Some (SEGY_OK, h2, hdr) ->
  segy_get_bfield bfield_size bin BIN_Interval = FieldValue b ->
  segy_get_field field_size hdr TRACE_SAMPLE_INTERVAL = FieldValue t ->
  exists dt',
    segy_sample_interval field_size bfield_size TRACE_SAMPLE_INTERVAL
      BIN_Interval BIN_Samples BIN_ExtendedHeaders h dt
      = Some (SEGY_OK, h2, dt') /\
    (b = 0 -> t <> 0 -> dt' = ms_of_us t) /\
    (t = 0 -> b <> 0 -> dt' = ms_of_us b) /\
    (t <> 0 -> t = b -> dt' = ms_of_us t) /\
    (t = 0 -> b = 0 -> dt' = dt).
Proof.
  intros Hbin Ht0 Hs Hhdr Hb Ht.
  unfold segy_sample_interval.
  rewrite Hbin. cbn -[segy_traceheader]. rewrite Ht0, Hs, Hhdr.
  cbn -[segy_traceheader]. rewrite Hb, Ht.
  destruct (Z.eqb_spec t 0) as [Et|Et]; destruct (Z.eqb_spec b 0) as [Eb|Eb];
    cbn [andb].
  - exists dt. repeat split; intros; congruence.
  - exists (ms_of_us b). repeat split; intros; congruence.
  - exists (ms_of_us t). repeat split; intros; congruence.
  - destruct (Z.eqb_spec t b) as [Etb|Etb].
    + exists (ms_of_us t). repeat split; intros; congruence.
    + exists dt. repeat split; intros; congruence.
Qed.

End WithTables.

Lemma segy_sample_interval_cases_witness :
  exists h2 dt',
    segy_sample_interval Example.field_size Example.bfield_size
      Example.TRACE_SAMPLE_INTERVAL Example.BIN_Interval
      Example.BIN_Samples Example.BIN_ExtendedHeaders
      (Example.open_rb (Example.interval_file 4000 0)) 7%float
      = Some (SEGY_OK, h2, dt') /\
    dt' = ms_of_us 4000.
Proof.
  edestruct (segy_sample_interval_cases Example.field_size Example.bfield_size
               Example.TRACE_SAMPLE_INTERVAL Example.BIN_Interval
               Example.BIN_Samples Example.BIN_ExtendedHeaders
               (Example.open_rb (Example.interval_file 4000 0)))
    with (dt := 7%float) (b := 4000) (t := 0)
    as (dt' & E & _ & C & _).
  - reflexivity.
  - reflexivity.
  - reflexivity.
  - reflexivity.
  - reflexivity.
  - reflexivity.
  - eexists. exists dt'. split; [exact E|]. apply C; [reflexivity | discriminate].
Defined.

(** C4 as stated fails when both intervals are zero: the output is not set
    to zero, it keeps what the caller had stored (here 7.0). *)
Lemma segy_sample_interval_both_zero_counterexample :
  Example.example_interval 0 0 7%float = Some (SEGY_OK, 7%float) /\
  7%float <> 0%float.
Proof.
  split; [vm_compute; reflexivity|].
  intros H. apply (f_equal PrimFloat.is_zero) in H. vm_compute in H.
  discriminate H.
Qed.

(** The three cases in which a value is stored, on files. *)
Example interval_from_binary_header :
  Example.example_interval 4000 0 7%float = Some (SEGY_OK, 4%float).
Proof. vm_compute. reflexivity. Qed.

Example interval_from_trace_header :
  Example.example_interval 0 2000 7%float = Some (SEGY_OK, 2%float).
Proof. vm_compute. reflexivity. Qed.

Example interval_common_value :
  Example.example_interval 4000 4000 7%float = Some (SEGY_OK, 4%float).
Proof. vm_compute. reflexivity. Qed.

End SampleInterval.

(** ** Reading headers and fields of a well-formed file *)

Module GeometryFacts.
Import File Field Geometry Layout GeometrySpec ReadFacts.

Lemma traceheader_opened (h : segy_file) (c : list byte) (trace0 bsize i : Z) :
  opened h -> contents (fp h) = c ->
  trace_in_range (Z.of_nat (length c)) trace0 bsize i ->
  exists h',
    segy_traceheader h i trace0 bsize
      = Some (SEGY_OK, h', header_at c trace0 bsize i) /\
    opened h' /\ contents (fp h') = c.
Proof.
  intros Ho Hc Hin. unfold header_at. subst c.
  destruct Ho as [Hb|Hm].
  - destruct (segy_traceheader_buffered h trace0 bsize i Hb Hin)
      as (h' & E & Hc' & Hb').
    exists h'. split; [exact E|]. split; [left; exact Hb' | exact Hc'].
  - destruct (segy_traceheader_mapped h trace0 bsize i Hm Hin)
      as (h' & E & Hc' & Hm').
    exists h'. split; [exact E|]. split; [right; exact Hm' | exact Hc'].
Qed.

Lemma header_at_length (c : list byte) (trace0 bsize i : Z) :
  trace_in_range (Z.of_nat (length c)) trace0 bsize i ->
  Z.of_nat (length (header_at c trace0 bsize i)) = SEGY_TRACE_HEADER_SIZE.
Proof.
  intros Hin. destruct (trace_pos_in_range _ _ _ _ Hin) as (_ & Hp0 & Hp1).
  destruct Hin as (_ & Hb & _).
  unfold header_at. apply slice_length; unfold SEGY_TRACE_HEADER_SIZE; lia.
Qed.

Lemma whole_traces_in_range (len trace0 bsize T i : Z) :
  whole_traces len trace0 bsize T -> 0 <= i < T ->
  trace_in_range len trace0 bsize i.
Proof.
  unfold whole_traces, trace_in_range, SEGY_TRACE_HEADER_SIZE.
  intros (H0 & Hb & Hw & HT & Hl & _) Hi.
  repeat split; try lia. nia.
Qed.

Section WithTable.

Variable field_size : Z -> Z.

Lemma get_field_valid (header : list byte) (field : Z) :
  valid_field field_size field ->
  Z.of_nat (length header) = SEGY_TRACE_HEADER_SIZE ->
  segy_get_field field_size header field
    = FieldValue (field_value field_size header field).
Proof.
  unfold valid_field, SEGY_TRACE_HEADER_SIZE. intros (Hr & Hs & Hi) Hl.
  unfold field_value, segy_get_field, get_field, header_bytes,
    SEGY_TRACE_HEADER_SIZE.
  replace (field <? 0) with false by (symmetry; apply Z.ltb_ge; lia).
  replace (field >=? 240) with false
    by (symmetry; rewrite Z.geb_leb; apply Z.leb_gt; lia).
  cbn [orb]. rewrite Hl.
  replace (1 <=? field) with true by (symmetry; apply Z.leb_le; lia).
  destruct Hs as [Hs|Hs]; rewrite Hs in *; cbn [Z.eqb Pos.eqb andb];
    (replace (_ <=? 240) with true by (symmetry; apply Z.leb_le; lia));
    reflexivity.
Qed.

Lemma segy_traces_whole (h : segy_file) (trace0 bsize T : Z) :
  whole_traces (file_length (fp h)) trace0 bsize T ->
  segy_traces h trace0 bsize = Some (SEGY_OK, T).
Proof.
  unfold whole_traces, SEGY_TRACE_HEADER_SIZE.
  intros (H0 & Hb & Hw & HT & Hl & Hlim).
  unfold segy_traces, SEGY_TRACE_HEADER_SIZE.
  rewrite u32_small by lia.
  replace (file_length (fp h) - trace0) with (T * (bsize + 240)) by lia.
  unfold u64. rewrite (Z.mod_small (T * (bsize + 240))) by nia.
  replace (bsize + 240 =? 0) with false by (symmetry; apply Z.eqb_neq; lia).
  rewrite Z.mod_mul by lia. rewrite Z.div_mul by lia. reflexivity.
Qed.

End WithTable.

End GeometryFacts.

(** ** Sorting detection *)

Module Sorting.
Import File Field Geometry Layout GeometrySpec ReadFacts GeometryFacts.

Section WithTable.

Variable field_size : Z -> Z.

Lemma sorting_walk_eq (budget : nat) (h : segy_file)
  (il xl off0 traces traceno trace0 bsize : Z) :
  sorting_walk field_size budget h il xl off0 traces traceno trace0 bsize =
  match segy_traceheader h (u32 traceno) trace0 bsize with
  | None => None
  | Some (err, h, traceheader) =>
      if negb (segy_error_eqb err SEGY_OK) then Some (err, h, (0, 0))
      else
        match segy_get_field field_size traceheader il,
              segy_get_field field_size traceheader xl,
              segy_get_field field_size traceheader offset with
        | FieldValue il1, FieldValue xl1, FieldValue off1 =>
            if negb (off0 =? off1) && (traceno + 1 <? traces) then
              match budget with
              | O => None
              | S budget =>
                  sorting_walk field_size budget h il xl off0 traces
                    (traceno + 1) trace0 bsize
              end
            else Some (SEGY_OK, h, (il1, xl1))
        | _, _, _ => None
        end
  end.
Proof. destruct budget; reflexivity. Qed.

Variable c : list byte.
Variables il xl trace0 bsize T k : Z.

Hypothesis Hfile : whole_traces (Z.of_nat (length c)) trace0 bsize T.
Hypothesis Hil : valid_field field_size il.
Hypothesis Hxl : valid_field field_size xl.
Hypothesis Hoff : valid_field field_size offset.

Let at_ := field_at field_size c trace0 bsize.

Hypothesis Hk : 1 <= k <= T - 1.
Hypothesis Hbefore : forall j, 1 <= j < k -> at_ offset j <> at_ offset 0.
Hypothesis Hstop : at_ offset k = at_ offset 0 \/ k = T - 1.

(** The do-while loop started at [j] stops at [k]. *)
Lemma sorting_walk_reaches (n : nat) :
  forall (budget : nat) (j : Z) (h : segy_file),
    Z.of_nat n = k - j -> (n <= budget)%nat -> 1 <= j ->
    opened h -> contents (fp h) = c ->
    exists h',
      sorting_walk field_size budget h il xl (at_ offset 0) T j trace0 bsize
        = Some (SEGY_OK, h', (at_ il k, at_ xl k)) /\
      opened h' /\ contents (fp h') = c.
Proof.
  induction n as [|n IH]; intros budget j h Hn Hbud Hj Ho Hc.
  - assert (j = k) by lia. subst j.
    assert (Hin : trace_in_range (Z.of_nat (length c)) trace0 bsize k).
    { apply (whole_traces_in_range _ _ _ T); [exact Hfile | lia]. }
    rewrite sorting_walk_eq.
    rewrite u32_small by (destruct Hfile as (_ & _ & _ & ? & _); lia).
    destruct (traceheader_opened h c trace0 bsize k Ho Hc Hin)
      as (h' & E & Ho' & Hc').
    rewrite E. cbn [negb segy_error_eqb].
    pose proof (header_at_length c trace0 bsize k Hin) as Hl.
    rewrite !get_field_valid by assumption.
    fold (field_at field_size c trace0 bsize il k).
    fold (field_at field_size c trace0 bsize xl k).
    fold (field_at field_size c trace0 bsize offset k).
    fold at_.
    replace (negb (at_ offset 0 =? at_ offset k) && (k + 1 <? T)) with false.
    + exists h'. split; [reflexivity|]. split; assumption.
    + symmetry. destruct Hstop as [Hs|Hs].
      * rewrite Hs, Z.eqb_refl. reflexivity.
      * replace (k + 1 <? T) with false by (symmetry; apply Z.ltb_ge; lia).
        apply andb_false_r.
  - assert (Hjk : 1 <= j < k) by lia.
    assert (Hin : trace_in_range (Z.of_nat (length c)) trace0 bsize j).
    { apply (whole_traces_in_range _ _ _ T); [exact Hfile | lia]. }
    rewrite sorting_walk_eq.
    rewrite u32_small by (destruct Hfile as (_ & _ & _ & ? & _); lia).
    destruct (traceheader_opened h c trace0 bsize j Ho Hc Hin)
      as (h' & E & Ho' & Hc').
    rewrite E. cbn [negb segy_error_eqb].
    pose proof (header_at_length c trace0 bsize j Hin) as Hl.
    rewrite !get_field_valid by assumption.
    fold (field_at field_size c trace0 bsize offset j).
    fold at_.
    replace (negb (at_ offset 0 =? at_ offset j) && (j + 1 <? T)) with true.
    + destruct budget as [|budget]; [lia|].
      apply IH; try assumption; lia.
    + symmetry. apply andb_true_intro. split.
      * apply negb_true_iff, Z.eqb_neq. intros Heq.
        apply (Hbefore j Hjk). symmetry. exact Heq.
      * apply Z.ltb_lt. lia.
Qed.

(** C3 (as amended): on a file of [T >= 2] whole traces, with valid inline
    and crossline fields, [segy_sorting] applies the tie-break table to
    trace 0, the last trace and "trace 1", where "trace 1" is the trace [k]
    at which the code's do-while loop stops: the first trace after trace 0
    whose offset equals that of trace 0, or the last trace when there is
    none. *)
Theorem segy_sorting_table (h : segy_file) :
  opened h -> contents (fp h) = c ->
  exists h',
    segy_sorting field_size h il xl trace0 bsize =
      Some (match sorting_table (at_ il 0) (at_ xl 0) (at_ il k) (at_ xl k)
                    (at_ il (T - 1)) (at_ xl (T - 1)) with
            | Some s => (SEGY_OK, h', s)
            | None => (SEGY_INVALID_SORTING, h', UNKNOWN_SORTING)
            end).
Proof.
  intros Ho Hc.
  assert (HT : 0 <= T < 2 ^ 31) by (destruct Hfile as (_ & _ & _ & ? & _); lia).
  assert (Hin0 : trace_in_range (Z.of_nat (length c)) trace0 bsize 0).
  { apply (whole_traces_in_range _ _ _ T); [exact Hfile | lia]. }
  assert (HinL : trace_in_range (Z.of_nat (length c)) trace0 bsize (T - 1)).
  { apply (whole_traces_in_range _ _ _ T); [exact Hfile | lia]. }
  unfold segy_sorting.
  destruct (traceheader_opened h c trace0 bsize 0 Ho Hc Hin0)
    as (h0 & E0 & Ho0 & Hc0).
  rewrite E0. cbn [negb segy_error_eqb].
  destruct Hil as (Hil1 & Hil2 & Hil3). destruct Hxl as (Hxl1 & Hxl2 & Hxl3).
  replace (il <? 0) with false by (symmetry; apply Z.ltb_ge; lia).
  replace (il >=? SEGY_TRACE_HEADER_SIZE) with false
    by (symmetry; rewrite Z.geb_leb; apply Z.leb_gt; lia).
  replace (xl <? 0) with false by (symmetry; apply Z.ltb_ge; lia).
  replace (xl >=? SEGY_TRACE_HEADER_SIZE) with false
    by (symmetry; rewrite Z.geb_leb; apply Z.leb_gt; lia).
  replace (field_size il =? 0) with false by (symmetry; apply Z.eqb_neq; lia).
  replace (field_size xl =? 0) with false by (symmetry; apply Z.eqb_neq; lia).
  cbn [orb].
  pose proof (header_at_length c trace0 bsize 0 Hin0) as Hl0.
  rewrite !get_field_valid by (assumption || (repeat split; assumption)).
  rewrite (segy_traces_whole h0 trace0 bsize T)
    by (unfold file_length; rewrite Hc0; exact Hfile).
  cbn [negb segy_error_eqb]. rewrite s32_small by lia.
  fold (field_at field_size c trace0 bsize offset 0).
  fold (field_at field_size c trace0 bsize il 0).
  fold (field_at field_size c trace0 bsize xl 0). fold at_.
  destruct (sorting_walk_reaches (Z.to_nat (k - 1)) (Z.to_nat T) 1 h0)
    as (h1 & E1 & Ho1 & Hc1); try assumption; try lia.
  rewrite E1. cbn [negb segy_error_eqb].
  rewrite u32_small by lia.
  destruct (traceheader_opened h1 c trace0 bsize (T - 1) Ho1 Hc1 HinL)
    as (h2 & E2 & Ho2 & Hc2).
  rewrite E2. cbn [negb segy_error_eqb].
  pose proof (header_at_length c trace0 bsize (T - 1) HinL) as HlL.
  rewrite !get_field_valid by (assumption || (repeat split; assumption)).
  fold (field_at field_size c trace0 bsize il (T - 1)).
  fold (field_at field_size c trace0 bsize xl (T - 1)). fold at_.
  exists h2. unfold sorting_table.
  destruct (at_ il 0 =? at_ il (T - 1)); [reflexivity|].
  destruct (at_ xl 0 =? at_ xl (T - 1)); [reflexivity|].
  destruct (at_ il 0 =? at_ il k); [reflexivity|].
  destruct (at_ xl 0 =? at_ xl k); reflexivity.
Qed.

End WithTable.

Import Example ExampleTraces.

Lemma inline_file_whole : whole_traces (Z.of_nat (length inline_file)) 0 4 4.
Proof.
  unfold whole_traces, SEGY_TRACE_HEADER_SIZE.
  replace (Z.of_nat (length inline_file)) with 976 by (vm_compute; reflexivity).
  lia.
Qed.

Lemma example_valid_fields :
  valid_field Example.field_size INLINE_3D /\
  valid_field Example.field_size CROSSLINE_3D /\
  valid_field Example.field_size offset.
Proof.
  unfold valid_field, SEGY_TRACE_HEADER_SIZE, INLINE_3D, CROSSLINE_3D, offset.
  repeat split; try lia; try (left; reflexivity); vm_compute; discriminate.
Qed.

Lemma segy_sorting_table_witness :
  exists h',
    segy_sorting Example.field_size (open_rb inline_file)
      INLINE_3D CROSSLINE_3D 0 4 = Some (SEGY_OK, h', INLINE_SORTING).
Proof.
  destruct (segy_sorting_table Example.field_size inline_file
              INLINE_3D CROSSLINE_3D 0 4 4 1) with (h := open_rb inline_file)
    as (h' & E).
  - exact inline_file_whole.
  - exact (proj1 example_valid_fields).
  - exact (proj1 (proj2 example_valid_fields)).
  - exact (proj2 (proj2 example_valid_fields)).
  - lia.
  - intros j Hj. lia.
  - left. vm_compute. reflexivity.
  - left. split; reflexivity.
  - reflexivity.
  - exists h'. rewrite E. reflexivity.
Defined.

(** C3 as stated fails.  On the four traces (1,10) (1,11) (2,10) (2,11),
    all of one offset, the walk the specification describes ("until the
    offset changes or the end of the file") runs to the last trace, for
    which the table gives InvalidSorting; [segy_sorting] stops at trace 1
    and answers INLINE. *)
Lemma segy_sorting_spec_walk_counterexample :
  whole_traces (Z.of_nat (length inline_file)) 0 4 4 /\
  spec_detect_sorting Example.field_size inline_file 0 4
    INLINE_3D CROSSLINE_3D 4 = None /\
  match segy_sorting Example.field_size (open_rb inline_file)
          INLINE_3D CROSSLINE_3D 0 4 with
  | Some (err, _, s) => Some (err, s)
  | None => None
  end = Some (SEGY_OK, INLINE_SORTING).
Proof.
  split; [exact inline_file_whole|].
  split; vm_compute; reflexivity.
Qed.

(** With two offsets a trace the loop passes over trace 1, whose offset
    differs, and stops at trace 2. *)
Example segy_sorting_two_offsets :
  match segy_sorting Example.field_size (open_rb offsets_file)
          INLINE_3D CROSSLINE_3D 0 4 with
  | Some (err, _, s) => Some (err, s)
  | None => None
  end = Some (SEGY_OK, INLINE_SORTING).
Proof. vm_compute. reflexivity. Qed.

End Sorting.

(** ** Examples on a mapped and a buffered handle *)

Module MappedExample.
Import File Layout Example ExampleTraces.

Lemma open_rb_is_segy_open (disk : list byte) :
  segy_open disk "rb" = Some (open_rb disk).
Proof. reflexivity. Qed.

Lemma mmap_offsets_file :
  fst (segy_mmap (open_rb offsets_file)) = SEGY_OK /\
  mapped (snd (segy_mmap (open_rb offsets_file))).
Proof.
  split; [vm_compute; reflexivity|].
  unfold mapped. split; [vm_compute; reflexivity|].
  split; vm_compute; reflexivity.
Qed.

Lemma mapped_buffered_same_bytes_witness :
  exists hb1 hm1 hb2 hm2 header samples,
    segy_traceheader (open_rb offsets_file) 3 0 4
      = Some (SEGY_OK, hb1, header) /\
    segy_traceheader (snd (segy_mmap (open_rb offsets_file))) 3 0 4
      = Some (SEGY_OK, hm1, header) /\
    segy_readtrace (open_rb offsets_file) 3 0 4
      = Some (SEGY_OK, hb2, samples) /\
    segy_readtrace (snd (segy_mmap (open_rb offsets_file))) 3 0 4
      = Some (SEGY_OK, hm2, samples) /\
    Z.of_nat (length header) = SEGY_TRACE_HEADER_SIZE /\
    Z.of_nat (length samples) = 4.
Proof.
  apply (MappedVsBuffered.mapped_buffered_same_bytes
           (open_rb offsets_file) (snd (segy_mmap (open_rb offsets_file)))
           0 4 3).
  - split; reflexivity.
  - exact (proj2 mmap_offsets_file).
  - reflexivity.
  - unfold trace_in_range, SEGY_TRACE_HEADER_SIZE.
    replace (file_length (fp (open_rb offsets_file))) with 1952
      by (vm_compute; reflexivity).
    lia.
Defined.

(** Scenario S6 of the specification on the buffered handle: reading the
    trace after the last fails, and trace 0 is read afterwards. *)
Example read_past_the_end :
  match segy_readtrace (open_rb offsets_file) 8 0 4 with
  | Some (err, h, _) =>
      Some (err,
            match segy_readtrace h 0 0 4 with
            | Some (err0, _, data) => Some (err0, data)
            | None => None
            end)
  | None => None
  end = Some (SEGY_FREAD_ERROR, Some (SEGY_OK, [x00; x00; x00; x00])).
Proof. vm_compute. reflexivity. Qed.

(** On the mapped handle the seek already fails. *)
Example read_past_the_end_mapped :
  match segy_readtrace (snd (segy_mmap (open_rb offsets_file))) 8 0 4 with
  | Some (err, h, _) =>
      Some (err,
            match segy_readtrace h 0 0 4 with
            | Some (err0, _, data) => Some (err0, data)
            | None => None
            end)
  | None => None
  end = Some (SEGY_FSEEK_ERROR, Some (SEGY_OK, [x00; x00; x00; x00])).
Proof. vm_compute. reflexivity. Qed.

End MappedExample.

(** ** Reading and writing a line *)

Module Lines.
Import File Field Geometry Layout GeometrySpec ReadFacts GeometryFacts.

Lemma readtrace_opened (h : segy_file) (c : list byte) (trace0 bsize i : Z) :
  opened h -> contents (fp h) = c ->
  trace_in_range (Z.of_nat (length c)) trace0 bsize i ->
  exists h',
    segy_readtrace h i trace0 bsize
      = Some (SEGY_OK, h', samples_at c trace0 bsize i) /\
    opened h' /\ contents (fp h') = c.
Proof.
  intros Ho Hc Hin. unfold samples_at. subst c.
  destruct Ho as [Hb|Hm].
  - destruct (segy_readtrace_buffered h trace0 bsize i Hb Hin)
      as (h' & E & Hc' & Hb').
    exists h'. split; [exact E|]. split; [left; exact Hb' | exact Hc'].
  - destruct (segy_readtrace_mapped h trace0 bsize i Hm Hin)
      as (h' & E & Hc' & Hm').
    exists h'. split; [exact E|]. split; [right; exact Hm' | exact Hc'].
Qed.

Lemma samples_at_length (c : list byte) (trace0 bsize i : Z) :
  trace_in_range (Z.of_nat (length c)) trace0 bsize i ->
  Z.of_nat (length (samples_at c trace0 bsize i)) = bsize.
Proof.
  intros Hin. destruct (trace_pos_in_range _ _ _ _ Hin) as (_ & Hp0 & Hp1).
  destruct Hin as (_ & Hb & _).
  unfold samples_at. apply slice_length; unfold SEGY_TRACE_HEADER_SIZE; lia.
Qed.

Lemma overwrite_at_end (acc data : list byte) :
  overwrite acc (Z.of_nat (length acc)) data = acc ++ data.
Proof.
  unfold overwrite. rewrite Nat2Z.id.
  rewrite firstn_all, Nat.sub_diag. simpl repeat.
  rewrite skipn_all2 by lia. rewrite app_nil_r. reflexivity.
Qed.

(** The traces [segy_read_line]'s loop visits: [line_trace0 + k * stride]
    for [k] below [n], and what it stores: their samples, one after the
    other. *)
Lemma read_line_loop_in_range (c : list byte) (trace0 bsize stride : Z) (n : nat) :
  bsize mod 4 = 0 -> 0 <= stride ->
  forall (h : segy_file) (line_trace0 : Z) (acc : list byte),
    opened h -> contents (fp h) = c ->
    (forall k, (k < n)%nat ->
       trace_in_range (Z.of_nat (length c)) trace0 bsize
         (line_trace0 + Z.of_nat k * stride)) ->
    exists h',
      read_line_loop n h line_trace0 stride trace0 bsize acc
        (Z.of_nat (length acc)) =
      Some (SEGY_OK, h',
            acc ++ concat (map (fun k => samples_at c trace0 bsize
                                           (line_trace0 + Z.of_nat k * stride))
                             (seq 0 n))) /\
      opened h' /\ contents (fp h') = c.
Proof.
  intros H4 Hs. induction n as [|n IH]; intros h lt0 acc Ho Hc Hin.
  - exists h. simpl. rewrite app_nil_r. repeat split; assumption.
  - assert (Hin0 : trace_in_range (Z.of_nat (length c)) trace0 bsize lt0).
    { specialize (Hin 0%nat ltac:(lia)). simpl in Hin.
      replace (lt0 + 0) with lt0 in Hin by lia. exact Hin. }
    destruct (readtrace_opened h c trace0 bsize lt0 Ho Hc Hin0)
      as (h1 & E & Ho1 & Hc1).
    cbn [read_line_loop]. rewrite E. cbn [negb segy_error_eqb].
    rewrite overwrite_at_end.
    pose proof (samples_at_length c trace0 bsize lt0 Hin0) as Hl.
    replace (Z.of_nat (length acc) + 4 * (bsize / 4))
      with (Z.of_nat (length (acc ++ samples_at c trace0 bsize lt0))).
    2:{ rewrite length_app, Nat2Z.inj_add, Hl.
        rewrite (Z.div_mod bsize 4) at 1 by lia. lia. }
    destruct n as [|n].
    + exists h1. simpl. rewrite app_nil_r.
      replace (lt0 + 0) with lt0 by lia. repeat split; assumption.
    + assert (Hnext : u32 (lt0 + stride) = lt0 + stride).
      { specialize (Hin 1%nat ltac:(lia)).
        destruct Hin as (_ & _ & _ & Hi & _).
        destruct Hin0 as (_ & _ & _ & Hi0 & _).
        apply u32_small. lia. }
      rewrite Hnext.
      destruct (IH h1 (lt0 + stride) (acc ++ samples_at c trace0 bsize lt0)
                  Ho1 Hc1) as (h2 & E2 & Ho2 & Hc2).
      { intros k Hk. specialize (Hin (S k) ltac:(lia)).
        replace (lt0 + stride + Z.of_nat k * stride)
          with (lt0 + Z.of_nat (S k) * stride) by lia.
        exact Hin. }
      exists h2. rewrite E2. split; [|split; assumption].
      f_equal. f_equal. rewrite <- app_assoc. f_equal.
      change (seq 0 (S (S n))) with (0%nat :: seq 1 (S n)).
      rewrite <- seq_shift, map_cons, map_map. cbn [concat].
      replace (lt0 + Z.of_nat 0 * stride) with lt0 by lia.
      f_equal. f_equal. apply map_ext. intros k. f_equal. lia.
Qed.

(** [segy_read_line] reads the traces at
    [line_trace0 + k * stride * offsets] for [k] in [0, line_length). *)
Lemma segy_read_line_positions (h : segy_file) (c : list byte)
  (line_trace0 stride offsets trace0 bsize : Z) (line_length : nat) :
  opened h -> contents (fp h) = c ->
  bsize mod 4 = 0 -> 0 <= stride * offsets < 2 ^ 32 ->
  (forall k, (k < line_length)%nat ->
     trace_in_range (Z.of_nat (length c)) trace0 bsize
       (line_trace0 + Z.of_nat k * (stride * offsets))) ->
  exists h',
    segy_read_line h line_trace0 (Z.of_nat line_length) stride offsets
      trace0 bsize =
    Some (SEGY_OK, h',
          concat (map (fun k => samples_at c trace0 bsize
                                  (line_trace0 + Z.of_nat k * (stride * offsets)))
                    (seq 0 line_length))).
Proof.
  intros Ho Hc H4 Hs Hin. unfold segy_read_line.
  rewrite Nat2Z.id, u32_small by exact Hs.
  destruct (read_line_loop_in_range c trace0 bsize (stride * offsets)
              line_length H4 (proj1 Hs) h line_trace0 [] Ho Hc Hin)
    as (h' & E & _).
  exists h'. exact E.
Qed.

(** [segy_write_line] runs the same loop from [line_trace0 * offsets]. *)
Lemma segy_write_line_start (h : segy_file)
  (line_trace0 line_length stride offsets : Z) (buf : list byte)
  (trace0 bsize : Z) :
  segy_write_line h line_trace0 line_length stride offsets buf trace0 bsize =
  write_line_loop (Z.to_nat line_length) h (u32 (line_trace0 * offsets))
    (u32 (stride * offsets)) buf trace0 bsize.
Proof. reflexivity. Qed.

Import Example ExampleTraces.

(** C5 at a failing input: in the file of eight traces with two offsets,
    the line that starts at trace 2 with stride 1.  [segy_read_line] reads
    traces 2 and 4.  [segy_write_line], given the same arguments, leaves
    trace 2 as it is and overwrites traces 4 and 6. *)
Theorem segy_write_line_other_traces :
  line_read offsets_file 2 2 1 2
    = Some (SEGY_OK, [x00; x00; x00; x02; x00; x00; x00; x04]) /\
  match after_write_line offsets_file 2 2 1 2
          [xaa; xaa; xaa; xaa; xbb; xbb; xbb; xbb] with
  | Some (err, disk) => Some (err, map (samples_of disk) [2; 4; 6])
  | None => None
  end = Some (SEGY_OK, [Some [x00; x00; x00; x02];
                        Some [xaa; xaa; xaa; xaa];
                        Some [xbb; xbb; xbb; xbb]]).
Proof. split; vm_compute; reflexivity. Qed.

End Lines.

(** ** Writing through a read-only handle *)

Module ReadOnly.
Import File Layout.

(** What [segy_open] returns for mode "rb". *)
Lemma segy_open_rb (disk : list byte) (h : segy_file) :
  segy_open disk "rb" = Some h ->
  addr h = None /\ writable (fp h) = false /\ contents (fp h) = disk.
Proof.
  intros H. cbv in H. inversion H; subst. repeat split.
Qed.

Lemma fwrite_read_only (f : FILE) (buf : list byte) (n : Z) :
  writable f = false -> fwrite f buf n = Some (0, f).
Proof. intros H. unfold fwrite. rewrite H. reflexivity. Qed.

(** C6 (as amended): on a handle whose stream is not open for writing, as
    [segy_open] with mode "rb" leaves it, [segy_write_binheader] and
    [segy_write_textheader] return an error and leave the file as it is;
    so do, while the handle is not memory-mapped, [segy_write_traceheader]
    and, for a non-empty trace, [segy_writetrace].  The text header must be
    a zero-terminated string that fits the local buffer. *)
Theorem read_only_writes_refused (h : segy_file) (traceno trace0 bsize pos : Z)
  (buf mbuf : list byte) :
  writable (fp h) = false ->
  (addr h = None ->
   exists err h',
     segy_write_traceheader h traceno buf trace0 bsize = Some (err, h') /\
     err <> SEGY_OK /\ contents (fp h') = contents (fp h)) /\
  (addr h = None -> bsize <> 0 ->
   exists err h',
     segy_writetrace h traceno buf trace0 bsize = Some (err, h') /\
     err <> SEGY_OK /\ contents (fp h') = contents (fp h)) /\
  (exists err h',
     segy_write_binheader h buf = Some (err, h') /\
     err <> SEGY_OK /\ contents (fp h') = contents (fp h)) /\
  (forall ebcdic,
     Codec.ascii2ebcdic buf = Some ebcdic ->
     (length ebcdic <= length mbuf)%nat ->
     exists err h',
       segy_write_textheader h pos buf mbuf = Some (err, h') /\
       err <> SEGY_OK /\ contents (fp h') = contents (fp h)).
Proof.
  intros Hw. repeat split.
  - intros Ha. unfold segy_write_traceheader, segy_seek, is_mapped.
    rewrite Ha. unfold fseek_set.
    destruct (_ <? 0); cbn -[Z.add Z.mul u32 s32].
    + eexists. eexists. split; [reflexivity|]. split; [discriminate | reflexivity].
    + rewrite Ha. rewrite fwrite_read_only by exact Hw.
      cbn -[Z.add Z.mul u32 s32].
      eexists. eexists. split; [reflexivity|]. split; [discriminate | reflexivity].
  - intros Ha Hb. unfold segy_writetrace, segy_seek, is_mapped.
    rewrite Ha. unfold fseek_set.
    destruct (_ <? 0); cbn -[Z.add Z.mul u32 s32].
    + eexists. eexists. split; [reflexivity|]. split; [discriminate | reflexivity].
    + unfold skip_traceheader, is_mapped. cbn -[Z.add Z.mul u32 s32].
      rewrite Ha. unfold fseek_cur. cbn -[Z.add Z.mul u32 s32].
      destruct (_ <? 0); cbn -[Z.add Z.mul u32 s32].
      * eexists. eexists. split; [reflexivity|]. split; [discriminate | reflexivity].
      * rewrite Ha. rewrite fwrite_read_only by exact Hw.
        replace (0 =? bsize) with false by (symmetry; apply Z.eqb_neq; lia).
        cbn -[Z.add Z.mul u32 s32].
        eexists. eexists. split; [reflexivity|]. split; [discriminate | reflexivity].
  - unfold segy_write_binheader. cbn.
    rewrite fwrite_read_only by exact Hw. cbn.
    eexists. eexists. split; [reflexivity|]. split; [discriminate | reflexivity].
  - intros ebcdic He Hl. unfold segy_write_textheader. rewrite He.
    replace (length mbuf <? length ebcdic)%nat with false
      by (symmetry; apply Nat.ltb_ge; exact Hl).
    unfold fseek_set.
    destruct (_ <? 0); cbn -[Z.add Z.mul u32 skipn].
    + eexists. eexists. split; [reflexivity|]. split; [discriminate | reflexivity].
    + rewrite fwrite_read_only by exact Hw. cbn -[Z.add Z.mul u32 skipn].
      eexists. eexists. split; [reflexivity|]. split; [discriminate | reflexivity].
Qed.

Import Example ExampleTraces.

Lemma read_only_writes_refused_witness :
  exists err h',
    segy_write_traceheader (open_rb offsets_file) 0 (repeat xff 240) 0 4
      = Some (err, h') /\
    err <> SEGY_OK /\ contents (fp h') = contents (fp (open_rb offsets_file)).
Proof.
  apply (proj1 (read_only_writes_refused (open_rb offsets_file) 0 0 4 0
                  (repeat xff 240) (repeat x00 3201) eq_refl)).
  reflexivity.
Defined.

(** C6 as stated fails in two places.  Once the handle opened with "rb" is
    memory-mapped, [segy_write_traceheader] no longer goes through the
    stream: it stores through the read-only mapping and has no error to
    return.  And on the plain handle [segy_writetrace] of an empty trace
    asks the stream for zero bytes, gets zero, and reports [SEGY_OK]. *)
Lemma read_only_writes_counterexample :
  segy_open offsets_file "rb" = Some (open_rb offsets_file) /\
  fst (segy_mmap (open_rb offsets_file)) = SEGY_OK /\
  segy_write_traceheader (snd (segy_mmap (open_rb offsets_file))) 0
    (repeat xff 240) 0 4 = None /\
  match segy_writetrace (open_rb offsets_file) 0 [] 0 0 with
  | Some (err, _) => Some err
  | None => None
  end = Some SEGY_OK.
Proof. repeat split; vm_compute; reflexivity. Qed.

(** The refusal comes from the stream, not from the stored mode: the same
    calls on a handle opened "r+b" go through. *)
Example read_write_handle_writes :
  match segy_write_traceheader (open_rw offsets_file) 0 (repeat xff 240) 0 4 with
  | Some (err, h) => Some (err, firstn 2 (contents (fp h)))
  | None => None
  end = Some (SEGY_OK, [xff; xff]).
Proof. vm_compute. reflexivity. Qed.

End ReadOnly.

(** ** Counting lines *)

Module CountLines.
Import File Field Geometry Layout GeometrySpec ReadFacts GeometryFacts.

Lemma same_store_refl (h : segy_file) : same_store h h.
Proof. repeat split. Qed.

Lemma same_store_trans (a b c : segy_file) :
  same_store a b -> same_store b c -> same_store a c.
Proof.
  unfold same_store. intros (H1 & H2 & H3 & H4) (H5 & H6 & H7 & H8).
  repeat split; congruence.
Qed.

Lemma same_store_sym (a b : segy_file) : same_store a b -> same_store b a.
Proof.
  unfold same_store. intros (H1 & H2 & H3 & H4). repeat split; congruence.
Qed.

(** A header read depends on the store only, and leaves it as it is. *)
Lemma traceheader_same_store (h1 h2 : segy_file) (t trace0 bsize : Z) :
  same_store h1 h2 ->
  match segy_traceheader h1 t trace0 bsize,
        segy_traceheader h2 t trace0 bsize with
  | Some (e1, h1', d1), Some (e2, h2', d2) =>
      e1 = e2 /\ d1 = d2 /\ same_store h1 h1' /\ same_store h2 h2'
  | None, None => True
  | _, _ => False
  end.
Proof.
  destruct h1 as [a1 c1 [k1 p1 r1 w1 ap1] s1 m1].
  destruct h2 as [a2 c2 [k2 p2 r2 w2 ap2] s2 m2].
  unfold same_store. cbn. intros (-> & -> & -> & ->).
  unfold segy_traceheader, segy_seek, is_mapped, fseek_set, map_read, fread.
  cbn -[Z.add Z.mul u32 s32 u64 slice Z.of_nat file_length].
  set (pos := trace0 + s32 t * u32 (bsize + SEGY_TRACE_HEADER_SIZE)).
  destruct a2 as [w|]; cbn -[Z.add Z.mul u32 s32 u64 slice Z.of_nat file_length].
  - destruct (u64 pos >=? s2);
      cbn -[Z.add Z.mul u32 s32 u64 slice Z.of_nat file_length].
    + repeat split.
    + unfold file_length.
      cbn -[Z.add Z.mul u32 s32 u64 slice Z.of_nat].
      destruct (_ && _); [|exact I]. repeat split.
  - destruct (pos <? 0);
      cbn -[Z.add Z.mul u32 s32 u64 slice Z.of_nat file_length].
    + repeat split.
    + destruct r2; cbn -[Z.add Z.mul u32 s32 u64 slice Z.of_nat file_length].
      * destruct (negb _); repeat split.
      * repeat split.
Qed.

(** A successful header read delivers 240 bytes. *)
Lemma traceheader_ok_length (h h' : segy_file) (t trace0 bsize : Z)
  (d : list byte) :
  segy_traceheader h t trace0 bsize = Some (SEGY_OK, h', d) ->
  Z.of_nat (length d) = SEGY_TRACE_HEADER_SIZE.
Proof.
  unfold segy_traceheader, segy_seek, fseek_set, map_read, fread.
  destruct (is_mapped h) eqn:Em.
  - destruct (u64 _ >=? fsize h); cbn -[slice]; [discriminate|].
    unfold is_mapped in *. cbn -[slice]. rewrite Em. cbn -[slice].
    destruct (_ && _) eqn:Eb; [|discriminate].
    intros H. inversion H; subst.
    apply andb_prop in Eb. destruct Eb as [Eb E3].
    apply andb_prop in Eb. destruct Eb as [E1 E2].
    apply Z.leb_le in E1, E2, E3.
    apply slice_length; unfold file_length, SEGY_TRACE_HEADER_SIZE in *; lia.
  - destruct (_ <? 0); cbn -[slice]; [discriminate|].
    unfold is_mapped in *. cbn -[slice]. rewrite Em.
    destruct (readable (fp h)); cbn -[slice].
    + destruct (Z.eqb_spec (Z.of_nat (length (slice (contents (fp h))
                  (trace0 + s32 t * u32 (bsize + SEGY_TRACE_HEADER_SIZE))
                  SEGY_TRACE_HEADER_SIZE))) SEGY_TRACE_HEADER_SIZE) as [E|E];
        cbn -[slice]; [|discriminate].
      intros H. inversion H; subst. exact E.
    + discriminate.
Qed.

Lemma traceheader_keeps_store (h h' : segy_file) (t trace0 bsize : Z)
  (e : segy_error) (d : list byte) :
  segy_traceheader h t trace0 bsize = Some (e, h', d) -> same_store h h'.
Proof.
  intros E.
  pose proof (traceheader_same_store h h t trace0 bsize (same_store_refl h)) as H.
  rewrite E in H. destruct H as (_ & _ & H & _). exact H.
Qed.

Section Loop.

Variable field_size : Z -> Z.
Variables field offsets fl fo trace0 bsize : Z.

Lemma leaves_at_same_store (h1 h2 : segy_file) (curr : Z) :
  same_store h1 h2 ->
  leaves_at field_size h1 field fl fo curr trace0 bsize ->
  leaves_at field_size h2 field fl fo curr trace0 bsize.
Proof.
  intros Hs. unfold leaves_at.
  pose proof (traceheader_same_store h1 h2 curr trace0 bsize Hs) as H.
  destruct (segy_traceheader h1 curr trace0 bsize) as [[[e1 h1'] d1]|];
    destruct (segy_traceheader h2 curr trace0 bsize) as [[[e2 h2'] d2]|];
    try contradiction; try (intros; exact I).
  destruct H as (-> & -> & _). intros H. exact H.
Qed.

Lemma err_cases (e : segy_error) :
  (e = SEGY_OK /\ segy_error_eqb e SEGY_OK = true) \/
  (e <> SEGY_OK /\ segy_error_eqb e SEGY_OK = false).
Proof. destruct e; (left; split; [reflexivity | reflexivity]) || (right; split; [discriminate | reflexivity]). Qed.

(** When the loop is left at the index reached after [n] more steps, [n + 1]
    iterations are enough. *)
Lemma count_lines_loop_reaches (h0 : segy_file) (n : nat) :
  forall (h : segy_file) (curr lines : Z),
    same_store h0 h -> 0 <= curr < 2 ^ 32 ->
    leaves_at field_size h0 field fl fo
      (u32 (curr + Z.of_nat n * offsets)) trace0 bsize ->
    exists r,
      count_lines_loop field_size (S n) h field offsets fl fo curr lines
        trace0 bsize = Finished r.
Proof.
  induction n as [|n IH]; intros h curr lines Hs Hc Hl.
  - replace (u32 (curr + Z.of_nat 0 * offsets)) with curr in Hl
      by (rewrite Z.mul_0_l, Z.add_0_r, u32_small; [reflexivity | exact Hc]).
    apply (leaves_at_same_store h0 h curr Hs) in Hl.
    unfold leaves_at in Hl. cbn [count_lines_loop].
    destruct (segy_traceheader h curr trace0 bsize) as [[[e h'] d]|];
      [|eexists; reflexivity].
    destruct (err_cases e) as [[-> Ee]|[Hne Ee]]; cbn [negb segy_error_eqb].
    + destruct Hl as [Hl|Hl]; [contradiction|].
      destruct (segy_get_field field_size d field) as [ln| |];
        try (eexists; reflexivity).
      destruct (segy_get_field field_size d 37) as [off| |];
        try (eexists; reflexivity).
      destruct Hl as [-> ->]. rewrite !Z.eqb_refl. eexists. reflexivity.
    + rewrite Ee. eexists. reflexivity.
  - cbn [count_lines_loop].
    destruct (segy_traceheader h curr trace0 bsize) as [[[e h'] d]|] eqn:Er;
      [|eexists; reflexivity].
    destruct (err_cases e) as [[-> Ee]|[Hne Ee]]; cbn [negb segy_error_eqb].
    + destruct (segy_get_field field_size d field) as [ln| |];
        try (eexists; reflexivity).
      destruct (segy_get_field field_size d 37) as [off| |];
        try (eexists; reflexivity).
      destruct ((fo =? off) && (ln =? fl)); [eexists; reflexivity|].
      apply IH.
      * apply (same_store_trans h0 h h' Hs).
        exact (traceheader_keeps_store _ _ _ _ _ _ _ Er).
      * apply Z.mod_pos_bound. lia.
      * replace (u32 (u32 (curr + offsets) + Z.of_nat n * offsets))
          with (u32 (curr + Z.of_nat (S n) * offsets)); [exact Hl|].
        unfold u32. rewrite Zplus_mod_idemp_l. f_equal. lia.
    + rewrite Ee. eexists. reflexivity.
Qed.

End Loop.

Lemma buffered_never_faults (h : segy_file) (trace0 bsize : Z) :
  addr h = None -> never_faults h trace0 bsize.
Proof.
  intros Ha h' t (Hs & _). rewrite Ha in Hs.
  unfold segy_traceheader, segy_seek, is_mapped. rewrite <- Hs.
  unfold fseek_set. destruct (_ <? 0); cbn -[Z.add Z.mul u32 s32 fread].
  - discriminate.
  - rewrite <- Hs. destruct (fread _ _) as [data f].
    destruct (negb _); discriminate.
Qed.

Lemma mapped_never_faults (h : segy_file) (trace0 bsize T : Z) :
  mapped h -> whole_traces (file_length (fp h)) trace0 bsize T ->
  never_faults h trace0 bsize.
Proof.
  intros (Hm & Hf & Hlim) Hw h' t (Ha & Hs & Hc & _).
  unfold whole_traces, SEGY_TRACE_HEADER_SIZE in Hw.
  destruct Hw as (H0 & Hb & Hwr & HT & Hlen & _).
  assert (Hm' : is_mapped h' = true) by (unfold is_mapped in *; rewrite <- Ha; exact Hm).
  assert (Hlen' : file_length (fp h') = file_length (fp h))
    by (unfold file_length; rewrite Hc; reflexivity).
  unfold segy_traceheader, segy_seek. rewrite Hm'.
  unfold SEGY_TRACE_HEADER_SIZE. rewrite (u32_small (bsize + 240)) by lia.
  assert (Ht : - 2 ^ 31 <= s32 t < 2 ^ 31).
  { unfold s32, u32.
    pose proof (Z.mod_pos_bound t (2 ^ 32) ltac:(lia)).
    destruct (t mod 2 ^ 32 <? 2 ^ 31) eqn:E;
      [apply Z.ltb_lt in E | apply Z.ltb_ge in E]; lia. }
  set (i := s32 t) in *. set (pos := trace0 + i * (bsize + 240)).
  destruct (u64 pos >=? fsize h') eqn:Eseek;
    cbn -[Z.add Z.mul map_read]; [discriminate|].
  change (is_mapped (with_cur h' pos)) with (is_mapped h').
  rewrite Hm'. rewrite Z.geb_leb in Eseek. apply Z.leb_gt in Eseek.
  assert (Hpos : 0 <= pos < fsize h').
  { unfold u64 in Eseek.
    assert (- 2 ^ 63 < pos < 2 ^ 64) by (subst pos; nia).
    destruct (Z.lt_ge_cases pos 0) as [Hneg|Hnn].
    - replace (pos mod 2 ^ 64) with (pos + 2 ^ 64) in Eseek
        by (apply Z.mod_unique with (q := -1); lia).
      lia.
    - rewrite Z.mod_small in Eseek by lia. lia. }
  assert (Hi : i < T) by (subst pos; nia).
  unfold map_read. cbn -[Z.add Z.mul slice file_length].
  replace (0 <=? pos) with true by (symmetry; apply Z.leb_le; lia).
  replace (pos + 240 <=? fsize h') with true
    by (symmetry; apply Z.leb_le; subst pos; nia).
  replace (pos + 240 <=? file_length (fp h')) with true
    by (symmetry; apply Z.leb_le; subst pos; nia).
  discriminate.
Qed.

Section Returns.

Variable field_size : Z -> Z.

(** Whether a field can be read depends on the length of the header only. *)
Lemma get_field_same_length (d1 d2 : list byte) (f v : Z) :
  segy_get_field field_size d1 f = FieldValue v ->
  length d2 = length d1 ->
  exists v', segy_get_field field_size d2 f = FieldValue v'.
Proof.
  unfold segy_get_field, get_field, header_bytes. intros H Hl. rewrite Hl.
  destruct (_ || _); [discriminate|].
  destruct (field_size f =? 4).
  - destruct (_ && _); [eexists; reflexivity | discriminate].
  - destruct (field_size f =? 2); [|discriminate].
    destruct (_ && _); [eexists; reflexivity | discriminate].
Qed.

Lemma get_field_not_outside (d : list byte) (f : Z) :
  table_in_header field_size ->
  Z.of_nat (length d) = SEGY_TRACE_HEADER_SIZE ->
  segy_get_field field_size d f <> FieldOutside.
Proof.
  unfold table_in_header, segy_get_field, get_field, header_bytes.
  intros Ht Hl. rewrite Hl. specialize (Ht f).
  destruct (_ || _); [discriminate|].
  destruct (Z.eqb_spec (field_size f) 4) as [E4|E4].
  - destruct (Ht (or_introl E4)) as [H1 H2]. rewrite E4 in H2.
    replace (1 <=? f) with true by (symmetry; apply Z.leb_le; lia).
    replace (f - 1 + 4 <=? SEGY_TRACE_HEADER_SIZE) with true
      by (symmetry; apply Z.leb_le; lia).
    discriminate.
  - destruct (Z.eqb_spec (field_size f) 2) as [E2|E2]; [|discriminate].
    destruct (Ht (or_intror E2)) as [H1 H2]. rewrite E2 in H2.
    replace (1 <=? f) with true by (symmetry; apply Z.leb_le; lia).
    replace (f - 1 + 2 <=? SEGY_TRACE_HEADER_SIZE) with true
      by (symmetry; apply Z.leb_le; lia).
    discriminate.
Qed.

Variables field offsets fl fo trace0 bsize : Z.
Variable h0 : segy_file.

Hypothesis Hsafe : never_faults h0 trace0 bsize.
Hypothesis Hfield : forall d,
  Z.of_nat (length d) = SEGY_TRACE_HEADER_SIZE ->
  (exists v, segy_get_field field_size d field = FieldValue v) /\
  (exists v, segy_get_field field_size d 37 = FieldValue v).

(** On such a store the loop, when it finishes, has a return code. *)
Lemma count_lines_loop_returns (fuel : nat) :
  forall (h : segy_file) (curr lines : Z) r,
    same_store h0 h ->
    count_lines_loop field_size fuel h field offsets fl fo curr lines
      trace0 bsize = Finished r ->
    exists err h' n, r = Some (err, h', n).
Proof.
  induction fuel as [|fuel IH]; intros h curr lines r Hs; cbn [count_lines_loop].
  - discriminate.
  - pose proof (Hsafe h curr Hs) as Hnf.
    destruct (segy_traceheader h curr trace0 bsize) as [[[e h'] d]|] eqn:Er;
      [|contradiction].
    destruct (err_cases e) as [[-> Ee]|[Hne Ee]]; cbn [negb segy_error_eqb].
    + destruct (Hfield d (traceheader_ok_length _ _ _ _ _ _ Er))
        as [[ln Eln] [off Eoff]].
      rewrite Eln, Eoff.
      destruct ((fo =? off) && (ln =? fl)).
      * intros H. inversion H; subst. eexists. eexists. eexists. reflexivity.
      * apply IH. apply (same_store_trans h0 h h' Hs).
        exact (traceheader_keeps_store _ _ _ _ _ _ _ Er).
    + rewrite Ee. intros H. inversion H; subst.
      eexists. eexists. eexists. reflexivity.
Qed.

End Returns.


Import Example ExampleTraces.


(** The two ways out, on files: the pair of trace 0 recurs after two
    crosslines; in a file of one trace the second read fails. *)
Example count_lines_two_crosslines :
  match count_lines Example.field_size 3 (open_rb offsets_file)
          CROSSLINE_3D 2 0 4 with
  | Finished (Some (err, _, lines)) => Some (err, lines)
  | _ => None
  end = Some (SEGY_OK, 2).
Proof. vm_compute. reflexivity. Qed.

Example count_lines_runs_off_the_file :
  match count_lines Example.field_size 3
          (open_rb (trace 1 1 10 [x00; x00; x00; x00])) CROSSLINE_3D 1 0 4 with
  | Finished (Some (err, _, _)) => Some err
  | _ => None
  end = Some SEGY_FREAD_ERROR.
Proof. vm_compute. reflexivity. Qed.

(** Past the last trace the header read fails: with [SEGY_FREAD_ERROR] on
    the stream, with [SEGY_FSEEK_ERROR] on the mapping. *)
Lemma traceheader_past_the_end (h : segy_file) (trace0 bsize T i : Z) :
  opened h -> whole_traces (file_length (fp h)) trace0 bsize T ->
  T <= i < 2 ^ 31 ->
  exists err h' d,
    segy_traceheader h i trace0 bsize = Some (err, h', d) /\ err <> SEGY_OK.
Proof.
  intros Ho Hw Hi.
  unfold whole_traces, SEGY_TRACE_HEADER_SIZE in Hw.
  destruct Hw as (H0 & Hb & Hwr & HT & Hlen & Hlim).
  unfold segy_traceheader, segy_seek, SEGY_TRACE_HEADER_SIZE.
  rewrite s32_small by lia. rewrite (u32_small (bsize + 240)) by lia.
  set (pos := trace0 + i * (bsize + 240)).
  assert (Hpos : file_length (fp h) <= pos < 2 ^ 64) by (subst pos; nia).
  destruct Ho as [[Ha Hr]|(Hm & Hf & _)].
  - unfold is_mapped. rewrite Ha. unfold fseek_set.
    replace (pos <? 0) with false by (symmetry; apply Z.ltb_ge; lia).
    cbn -[Z.add Z.mul slice]. rewrite Ha. unfold fread.
    cbn -[Z.add Z.mul slice]. rewrite Hr.
    assert (El : slice (contents (fp h)) pos 240 = []).
    { unfold slice. rewrite skipn_all2; [apply firstn_nil|].
      unfold file_length in Hpos. lia. }
    rewrite El. cbn.
    eexists. eexists. eexists. split; [reflexivity | discriminate].
  - rewrite Hm. unfold u64. rewrite Z.mod_small by lia.
    replace (pos >=? fsize h) with true
      by (symmetry; rewrite Z.geb_leb; apply Z.leb_le; lia).
    cbn. eexists. eexists. eexists. split; [reflexivity | discriminate].
Qed.

(** So on a file of [T] whole traces, as long as the index cannot jump
    beyond what an [int] holds, [T + 1] iterations are enough. *)
Lemma count_lines_fuel_bound (field_size : Z -> Z) (h : segy_file)
  (field offsets trace0 bsize T : Z) :
  opened h -> whole_traces (file_length (fp h)) trace0 bsize T ->
  1 <= offsets -> T + offsets < 2 ^ 31 ->
  exists fuel r,
    (fuel <= Z.to_nat T + 1)%nat /\
    count_lines field_size fuel h field offsets trace0 bsize = Finished r.
Proof.
  intros Ho Hw Hoff Hsum.
  assert (HT : 0 <= T < 2 ^ 31) by (destruct Hw as (_ & _ & _ & ? & _); lia).
  unfold count_lines.
  destruct (segy_traceheader h 0 trace0 bsize) as [[[e h1] d]|] eqn:Er.
  2:{ exists 0%nat. eexists. split; [lia | reflexivity]. }
  destruct (err_cases e) as [[-> Ee]|[Hne Ee]]; cbn [negb segy_error_eqb].
  2:{ rewrite Ee. exists 0%nat. eexists. split; [lia | reflexivity]. }
  destruct (segy_get_field field_size d field) as [fl| |];
    try (exists 0%nat; eexists; split; [lia | reflexivity]).
  destruct (segy_get_field field_size d 37) as [fo| |];
    try (exists 0%nat; eexists; split; [lia | reflexivity]).
  pose proof (traceheader_keeps_store _ _ _ _ _ _ _ Er) as Hs1.
  (* the first multiple of [offsets] that is not below [T] *)
  set (q := T / offsets).
  assert (Hq : 0 <= q /\ q * offsets <= T < (q + 1) * offsets).
  { subst q. pose proof (Z.div_mod T offsets ltac:(lia)).
    pose proof (Z.mod_pos_bound T offsets ltac:(lia)).
    split; [apply Z.div_pos; lia | nia]. }
  assert (Hnext : T <= (q + 1) * offsets < 2 ^ 31) by lia.
  destruct (count_lines_loop_reaches field_size field offsets fl fo trace0 bsize
              h (Z.to_nat q) h1 offsets 1 Hs1 ltac:(lia)) as [r Hr].
  { rewrite Z2Nat.id by lia.
    replace (offsets + q * offsets) with ((q + 1) * offsets) by lia.
    rewrite u32_small by lia.
    unfold leaves_at.
    destruct (traceheader_past_the_end h trace0 bsize T ((q + 1) * offsets)
                Ho Hw Hnext) as (err & h' & d' & E & Hne).
    rewrite E. left. exact Hne. }
  exists (S (Z.to_nat q)), r. split; [|exact Hr].
  assert (q <= T) by nia. lia.
Qed.

End CountLines.

(** ** Handles as the library makes them *)

Module OpenedHandles.
Import File Layout GeometrySpec.

(** Every mode [fopen] accepts with an "r" or a "+" gives a buffered handle. *)
Lemma segy_open_buffered (disk : list byte) (m : string) (h : segy_file) :
  segy_open disk m = Some h ->
  readable (fp h) = true ->
  buffered h.
Proof.
  unfold segy_open. destruct (fopen disk m); [|discriminate].
  intros H Hr. inversion H; subst. split; [reflexivity | exact Hr].
Qed.

(** A successful [segy_mmap] gives a mapped handle over the same bytes. *)
Lemma segy_mmap_mapped (h h' : segy_file) :
  segy_mmap h = (SEGY_OK, h') ->
  file_length (fp h) < 2 ^ 63 ->
  mapped h' /\ contents (fp h') = contents (fp h).
Proof.
  unfold segy_mmap. cbn [fp mode].
  destruct (_ || _); [discriminate|].
  intros H Hl. inversion H; subst. unfold mapped. cbn.
  repeat split. exact Hl.
Qed.

(** The two handles the library makes of one file, the one [segy_open]
    returns and the one [segy_mmap] turns it into, deliver the same header
    and the same samples for a trace in range. *)
Lemma open_and_mmap_same_bytes (disk : list byte) (m : string)
  (hb hm : segy_file) (trace0 bsize i : Z) :
  segy_open disk m = Some hb -> readable (fp hb) = true ->
  segy_mmap hb = (SEGY_OK, hm) ->
  file_length (fp hb) < 2 ^ 63 ->
  trace_in_range (file_length (fp hb)) trace0 bsize i ->
  exists hb1 hm1 hb2 hm2 header samples,
    segy_traceheader hb i trace0 bsize = Some (SEGY_OK, hb1, header) /\
    segy_traceheader hm i trace0 bsize = Some (SEGY_OK, hm1, header) /\
    segy_readtrace hb i trace0 bsize = Some (SEGY_OK, hb2, samples) /\
    segy_readtrace hm i trace0 bsize = Some (SEGY_OK, hm2, samples).
Proof.
  intros Ho Hr Hm Hl Hin.
  pose proof (segy_open_buffered disk m hb Ho Hr) as Hb.
  destruct (segy_mmap_mapped hb hm Hm Hl) as [Hmp Hc].
  assert (Hin' : trace_in_range (file_length (fp hm)) trace0 bsize i).
  { unfold file_length in *. rewrite Hc. exact Hin. }
  destruct (ReadFacts.segy_traceheader_buffered hb _ _ _ Hb Hin) as (hb1 & E1 & _).
  destruct (ReadFacts.segy_traceheader_mapped hm _ _ _ Hmp Hin') as (hm1 & E2 & _).
  destruct (ReadFacts.segy_readtrace_buffered hb _ _ _ Hb Hin) as (hb2 & E3 & _).
  destruct (ReadFacts.segy_readtrace_mapped hm _ _ _ Hmp Hin') as (hm2 & E4 & _).
  rewrite Hc in E2, E4.
  exists hb1, hm1, hb2, hm2. eexists. eexists.
  split; [exact E1|]. split; [exact E2|]. split; [exact E3 | exact E4].
Qed.

End OpenedHandles.

(** * Further properties of the code *)

(** ** Bytes, words and buffers *)

Module BufferFacts.
Import File.

Lemma b2z_z2b (z : Z) : b2z (z2b z) = z mod 256.
Proof.
  unfold z2b, b2z.
  pose proof (Z.mod_pos_bound z 256 ltac:(lia)) as Hm.
  destruct (Byte.of_N (Z.to_N (z mod 256))) as [b|] eqn:E.
  - apply Byte.to_of_N in E. rewrite E. rewrite Z2N.id by lia. reflexivity.
  - exfalso. apply Byte.of_N_None_iff in E. lia.
Qed.

Lemma be_decode_encode32 (w : Z) :
  0 <= w < 2 ^ 32 -> be_decode (be_encode32 w) = w.
Proof.
  intros Hw. unfold be_encode32, be_decode. cbn [fold_left].
  rewrite !b2z_z2b. rewrite !Z.shiftr_div_pow2 by lia.
  Z.div_mod_to_equations. lia.
Qed.

Lemma be_decode_encode16 (w : Z) :
  0 <= w < 2 ^ 16 -> be_decode (be_encode16 w) = w.
Proof.
  intros Hw. unfold be_encode16, be_decode. cbn [fold_left].
  rewrite !b2z_z2b. rewrite !Z.shiftr_div_pow2 by lia.
  Z.div_mod_to_equations. lia.
Qed.

Lemma host_store32_load (host : endianness) (a b c d : byte) :
  host_store32 host (host_load host [a; b; c; d]) = [a; b; c; d].
Proof.
  unfold host_load, host_store32. destruct host.
  - cbn [rev app]. rewrite be_encode32_decode. reflexivity.
  - apply be_encode32_decode.
Qed.

Lemma host_store16_load (host : endianness) (a b : byte) :
  host_store16 host (host_load host [a; b]) = [a; b].
Proof.
  unfold host_load, host_store16. destruct host.
  - cbn [rev app]. rewrite be_encode16_decode. reflexivity.
  - apply be_encode16_decode.
Qed.

(** [htonl] followed by [memcpy] stores a word most significant byte
    first, whatever the host. *)
Lemma host_store32_htonl (host : endianness) (w : Z) :
  host_store32 host (htonl host w) = be_encode32 w.
Proof. unfold htonl, be_encode32. apply host_store32_load. Qed.

Lemma host_store16_htons (host : endianness) (w : Z) :
  host_store16 host (htons host w) = be_encode16 w.
Proof. unfold htons, be_encode16. apply host_store16_load. Qed.

Lemma s32_u32 (v : Z) : s32 (u32 v) = s32 v.
Proof. unfold s32, u32. rewrite Z.mod_mod by lia. reflexivity. Qed.

Lemma s16_u16 (v : Z) : s16 (u16 v) = s16 v.
Proof. unfold s16, u16. rewrite Z.mod_mod by lia. reflexivity. Qed.

Lemma u32_range (z : Z) : 0 <= u32 z < 2 ^ 32.
Proof. apply Z.mod_pos_bound. lia. Qed.

Lemma u16_range (z : Z) : 0 <= u16 z < 2 ^ 16.
Proof. apply Z.mod_pos_bound. lia. Qed.

Lemma s32_range (z : Z) : - 2 ^ 31 <= s32 z < 2 ^ 31.
Proof.
  unfold s32. pose proof (u32_range z).
  destruct (Z.ltb_spec (u32 z) (2 ^ 31)); lia.
Qed.

Lemma s16_range (z : Z) : - 2 ^ 15 <= s16 z < 2 ^ 15.
Proof.
  unfold s16. pose proof (u16_range z).
  destruct (Z.ltb_spec (u16 z) (2 ^ 15)); lia.
Qed.

Lemma s32_of_int (v : Z) : - 2 ^ 31 <= v < 2 ^ 31 -> s32 v = v.
Proof.
  intros Hv. unfold s32, u32.
  destruct (Z.lt_ge_cases v 0) as [Hn|Hp].
  - replace (v mod 2 ^ 32) with (v + 2 ^ 32)
      by (apply Z.mod_unique with (q := -1); lia).
    destruct (Z.ltb_spec (v + 2 ^ 32) (2 ^ 31)); lia.
  - rewrite Z.mod_small by lia.
    destruct (Z.ltb_spec v (2 ^ 31)); lia.
Qed.

Lemma s16_of_short (v : Z) : - 2 ^ 15 <= v < 2 ^ 15 -> s16 v = v.
Proof.
  intros Hv. unfold s16, u16.
  destruct (Z.lt_ge_cases v 0) as [Hn|Hp].
  - replace (v mod 2 ^ 16) with (v + 2 ^ 16)
      by (apply Z.mod_unique with (q := -1); lia).
    destruct (Z.ltb_spec (v + 2 ^ 16) (2 ^ 15)); lia.
  - rewrite Z.mod_small by lia.
    destruct (Z.ltb_spec v (2 ^ 15)); lia.
Qed.

(** *** [overwrite] inside a buffer *)

Lemma overwrite_inside (l data : list byte) (p : Z) :
  0 <= p -> p + Z.of_nat (length data) <= Z.of_nat (length l) ->
  overwrite l p data =
    firstn (Z.to_nat p) l ++ data ++ skipn (Z.to_nat p + length data) l.
Proof.
  intros Hp Hl. unfold overwrite.
  replace (Z.to_nat p - length l)%nat with 0%nat by lia. reflexivity.
Qed.

Lemma overwrite_length (l data : list byte) (p : Z) :
  0 <= p -> p + Z.of_nat (length data) <= Z.of_nat (length l) ->
  length (overwrite l p data) = length l.
Proof.
  intros Hp Hl. rewrite overwrite_inside by assumption.
  rewrite !length_app, length_firstn, length_skipn. lia.
Qed.

Lemma slice_overwrite_same (l data : list byte) (p : Z) :
  0 <= p -> p + Z.of_nat (length data) <= Z.of_nat (length l) ->
  slice (overwrite l p data) p (Z.of_nat (length data)) = data.
Proof.
  intros Hp Hl. rewrite overwrite_inside by assumption. unfold slice.
  rewrite Nat2Z.id.
  assert (Hf : length (firstn (Z.to_nat p) l) = Z.to_nat p)
    by (rewrite length_firstn; lia).
  rewrite skipn_app, Hf, Nat.sub_diag.
  rewrite skipn_all2 by lia. cbn [skipn app].
  rewrite firstn_app, firstn_all, Nat.sub_diag. cbn [firstn].
  apply app_nil_r.
Qed.

Lemma nth_error_overwrite_outside (l data : list byte) (p : Z) (i : nat) :
  0 <= p -> p + Z.of_nat (length data) <= Z.of_nat (length l) ->
  (Z.of_nat i < p \/ p + Z.of_nat (length data) <= Z.of_nat i) ->
  nth_error (overwrite l p data) i = nth_error l i.
Proof.
  intros Hp Hl Hi. rewrite overwrite_inside by assumption.
  assert (Hf : length (firstn (Z.to_nat p) l) = Z.to_nat p)
    by (rewrite length_firstn; lia).
  destruct Hi as [Hi|Hi].
  - rewrite nth_error_app1 by lia. rewrite nth_error_firstn.
    destruct (Nat.ltb_spec i (Z.to_nat p)); [reflexivity | lia].
  - rewrite nth_error_app2 by lia. rewrite Hf.
    rewrite nth_error_app2 by lia.
    rewrite nth_error_skipn. f_equal. lia.
Qed.

Lemma slice_ext (l1 l2 : list byte) (p n : Z) :
  0 <= p -> 0 <= n ->
  (forall i, (Z.to_nat p <= i < Z.to_nat p + Z.to_nat n)%nat ->
             nth_error l1 i = nth_error l2 i) ->
  slice l1 p n = slice l2 p n.
Proof.
  intros Hp Hn H. unfold slice. apply nth_error_ext. intros i.
  destruct (Nat.lt_ge_cases i (Z.to_nat n)) as [Hi|Hi].
  - rewrite !nth_error_firstn.
    destruct (Nat.ltb_spec i (Z.to_nat n)); [|lia].
    rewrite !nth_error_skipn. apply H. lia.
  - rewrite !nth_error_firstn.
    destruct (Nat.ltb_spec i (Z.to_nat n)); [lia | reflexivity].
Qed.

Lemma slice_overwrite_outside (l data : list byte) (p q n : Z) :
  0 <= p -> p + Z.of_nat (length data) <= Z.of_nat (length l) ->
  0 <= q -> 0 <= n ->
  (q + n <= p \/ p + Z.of_nat (length data) <= q) ->
  slice (overwrite l p data) q n = slice l q n.
Proof.
  intros Hp Hl Hq Hn Hd. apply slice_ext; try assumption.
  intros i Hi. apply nth_error_overwrite_outside; try assumption. lia.
Qed.

End BufferFacts.

(** ** Header fields: store and load *)

Module FieldRoundTrip.
Import File Field FieldStore GeometrySpec BufferFacts.

Section Core.

Variable table : Z -> Z.

Lemma be_encode32_length (w : Z) : length (be_encode32 w) = 4%nat.
Proof. reflexivity. Qed.

Lemma be_encode16_length (w : Z) : length (be_encode16 w) = 2%nat.
Proof. reflexivity. Qed.

(** [set_field] then [get_field] at a field that lies in the header. *)
Lemma set_get_field (header : list byte) (field v : Z) :
  (table field = 4 \/ table field = 2) ->
  1 <= field -> field - 1 + table field <= Z.of_nat (length header) ->
  exists header',
    set_field header table field v = Some (SEGY_OK, header') /\
    length header' = length header /\
    get_field header' table field = FieldValue (as_stored (table field) v).
Proof.
  intros Hw H1 Hl. unfold set_field, get_field, store_bytes, header_bytes,
    as_stored.
  destruct Hw as [Hw|Hw]; rewrite Hw in *; cbn [Z.eqb Pos.eqb].
  - rewrite be_encode32_length.
    replace (1 <=? field) with true by (symmetry; apply Z.leb_le; lia).
    replace (field - 1 + Z.of_nat 4 <=? Z.of_nat (length header)) with true
      by (symmetry; apply Z.leb_le; lia).
    cbn [andb]. eexists. split; [reflexivity|].
    assert (Hlen : length (overwrite header (field - 1) (be_encode32 (u32 v)))
                   = length header)
      by (apply overwrite_length; rewrite ?be_encode32_length; lia).
    split; [exact Hlen|]. rewrite Hlen.
    replace (field - 1 + 4 <=? Z.of_nat (length header)) with true
      by (symmetry; apply Z.leb_le; lia).
    cbn [andb].
    pose proof (slice_overwrite_same header (be_encode32 (u32 v)) (field - 1))
      as Hs.
    rewrite be_encode32_length in Hs. change (Z.of_nat 4) with 4 in Hs.
    rewrite Hs by lia.
    rewrite be_decode_encode32 by apply u32_range.
    rewrite s32_u32. reflexivity.
  - rewrite be_encode16_length.
    replace (1 <=? field) with true by (symmetry; apply Z.leb_le; lia).
    replace (field - 1 + Z.of_nat 2 <=? Z.of_nat (length header)) with true
      by (symmetry; apply Z.leb_le; lia).
    cbn [andb]. eexists. split; [reflexivity|].
    assert (Hlen : length (overwrite header (field - 1) (be_encode16 (u16 v)))
                   = length header)
      by (apply overwrite_length; rewrite ?be_encode16_length; lia).
    split; [exact Hlen|]. rewrite Hlen.
    replace (field - 1 + 2 <=? Z.of_nat (length header)) with true
      by (symmetry; apply Z.leb_le; lia).
    cbn [andb].
    pose proof (slice_overwrite_same header (be_encode16 (u16 v)) (field - 1))
      as Hs.
    rewrite be_encode16_length in Hs. change (Z.of_nat 2) with 2 in Hs.
    rewrite Hs by lia.
    rewrite be_decode_encode16 by apply u16_range.
    rewrite s16_u16. reflexivity.
Qed.

(** [set_field] at one field leaves what [get_field] reads at another,
    when the two do not share a byte. *)
Lemma set_field_frame (header header' : list byte) (f g v : Z) :
  (table f = 4 \/ table f = 2) ->
  1 <= f -> f - 1 + table f <= Z.of_nat (length header) ->
  1 <= g ->
  (g + table g <= f \/ f + table f <= g) ->
  set_field header table f v = Some (SEGY_OK, header') ->
  get_field header' table g = get_field header table g.
Proof.
  intros Hw H1 Hl Hg Hd. unfold set_field, store_bytes.
  assert (Hgen : forall bs, Z.of_nat (length bs) = table f ->
            overwrite header (f - 1) bs = header' ->
            get_field header' table g = get_field header table g).
  { intros bs Hbs <-. unfold get_field, header_bytes.
    rewrite overwrite_length by lia.
    destruct (table g =? 4) eqn:E4.
    - apply Z.eqb_eq in E4. rewrite E4 in Hd.
      destruct (_ && _); [|reflexivity].
      rewrite slice_overwrite_outside by lia. reflexivity.
    - destruct (table g =? 2) eqn:E2; [|reflexivity].
      apply Z.eqb_eq in E2. rewrite E2 in Hd.
      destruct (_ && _); [|reflexivity].
      rewrite slice_overwrite_outside by lia. reflexivity. }
  destruct Hw as [Hw|Hw]; rewrite Hw in *; cbn [Z.eqb Pos.eqb].
  - destruct (_ && _); [|discriminate].
    intros H. injection H as H.
    exact (Hgen (be_encode32 (u32 v)) eq_refl H).
  - destruct (_ && _); [|discriminate].
    intros H. injection H as H.
    exact (Hgen (be_encode16 (u16 v)) eq_refl H).
Qed.

End Core.

Lemma as_stored_in_range (width v : Z) :
  width = 4 \/ width = 2 ->
  - 2 ^ (8 * width - 1) <= v < 2 ^ (8 * width - 1) ->
  as_stored width v = v.
Proof.
  unfold as_stored. intros [-> | ->] Hv; cbn [Z.eqb Pos.eqb].
  - apply s32_of_int. exact Hv.
  - apply s16_of_short. exact Hv.
Qed.

(** X1: in a trace header, [segy_get_field] after [segy_set_field] at a
    field of the table returns the value stored, converted to the field's
    width: an [int32_t] in a four-byte field, an [int16_t] in a two-byte
    field come back as they are, anything larger comes back wrapped.  The
    header keeps its length. *)
Theorem segy_set_field_then_get (field_size : Z -> Z) (header : list byte)
  (field v : Z) :
  valid_field field_size field ->
  Z.of_nat (length header) = SEGY_TRACE_HEADER_SIZE ->
  exists header',
    segy_set_field field_size header field v = Some (SEGY_OK, header') /\
    length header' = length header /\
    segy_get_field field_size header' field
      = FieldValue (as_stored (field_size field) v) /\
    (- 2 ^ (8 * field_size field - 1) <= v < 2 ^ (8 * field_size field - 1) ->
     segy_get_field field_size header' field = FieldValue v).
Proof.
  unfold valid_field, SEGY_TRACE_HEADER_SIZE. intros (Hr & Hw & Hi) Hl.
  unfold segy_set_field, segy_get_field, SEGY_TRACE_HEADER_SIZE.
  replace (field <? 0) with false by (symmetry; apply Z.ltb_ge; lia).
  replace (field >=? 240) with false
    by (symmetry; rewrite Z.geb_leb; apply Z.leb_gt; lia).
  cbn [orb].
  destruct (set_get_field field_size header field v Hw) as (h' & E & Hlen & G);
    try lia.
  exists h'. split; [exact E|]. split; [exact Hlen|]. split; [exact G|].
  intros Hv. rewrite G. f_equal. apply as_stored_in_range; assumption.
Qed.

Lemma segy_set_field_then_get_witness :
  exists header',
    segy_set_field Example.field_size (Example.trace_header 0 0 1 1)
      Example.INLINE_3D (-7) = Some (SEGY_OK, header') /\
    segy_get_field Example.field_size header' Example.INLINE_3D
      = FieldValue (-7).
Proof.
  destruct (segy_set_field_then_get Example.field_size
              (Example.trace_header 0 0 1 1) Example.INLINE_3D (-7))
    as (h' & E & _ & _ & G).
  - exact (proj1 Sorting.example_valid_fields).
  - reflexivity.
  - exists h'. split; [exact E|]. apply G. vm_compute.
    split; [intros Hc; discriminate Hc | reflexivity].
Defined.

(** X2: the same for the binary header, whose fields are named by their
    offset from the start of the text header (3201 to 3600). *)
Theorem segy_set_bfield_then_get (bfield_size : Z -> Z) (binheader : list byte)
  (field v : Z) :
  valid_bfield bfield_size field ->
  Z.of_nat (length binheader) = SEGY_BINARY_HEADER_SIZE ->
  exists binheader',
    segy_set_bfield bfield_size binheader field v = Some (SEGY_OK, binheader') /\
    length binheader' = length binheader /\
    segy_get_bfield bfield_size binheader' field
      = FieldValue (as_stored (bfield_size (field - SEGY_TEXT_HEADER_SIZE)) v).
Proof.
  unfold valid_bfield, SEGY_BINARY_HEADER_SIZE, SEGY_TEXT_HEADER_SIZE.
  cbv zeta. intros (Hr & Hw & Hi) Hl.
  unfold segy_set_bfield, segy_get_bfield, SEGY_BINARY_HEADER_SIZE,
    SEGY_TEXT_HEADER_SIZE. cbv zeta.
  replace (field - 3200 <? 0) with false by (symmetry; apply Z.ltb_ge; lia).
  replace (field - 3200 >=? 400) with false
    by (symmetry; rewrite Z.geb_leb; apply Z.leb_gt; lia).
  cbn [orb].
  destruct (set_get_field bfield_size binheader (field - 3200) v Hw)
    as (h' & E & Hlen & G); try lia.
  exists h'. split; [exact E|]. split; [exact Hlen | exact G].
Qed.

Lemma segy_set_bfield_then_get_witness :
  exists binheader',
    segy_set_bfield Example.bfield_size (Example.binary_header 0 0)
      Example.BIN_Samples 50 = Some (SEGY_OK, binheader') /\
    segy_get_bfield Example.bfield_size binheader' Example.BIN_Samples
      = FieldValue 50.
Proof.
  destruct (segy_set_bfield_then_get Example.bfield_size
              (Example.binary_header 0 0) Example.BIN_Samples 50)
    as (h' & E & _ & G).
  - unfold valid_bfield, SEGY_BINARY_HEADER_SIZE, SEGY_TEXT_HEADER_SIZE,
      Example.BIN_Samples. cbv zeta.
    repeat split; try lia; try (right; reflexivity);
      vm_compute; intros Hc; discriminate Hc.
  - reflexivity.
  - exists h'. split; [exact E | exact G].
Defined.

(** X3: storing one field of a trace header changes no other field: a
    field whose bytes lie before or after those of the stored one reads as
    it did. *)
Theorem segy_set_field_keeps_others (field_size : Z -> Z)
  (header header' : list byte) (f g v : Z) :
  valid_field field_size f ->
  Z.of_nat (length header) = SEGY_TRACE_HEADER_SIZE ->
  g + field_size g <= f \/ f + field_size f <= g ->
  segy_set_field field_size header f v = Some (SEGY_OK, header') ->
  segy_get_field field_size header' g = segy_get_field field_size header g.
Proof.
  unfold valid_field, SEGY_TRACE_HEADER_SIZE. intros (Hr & Hw & Hi) Hl Hd.
  unfold segy_set_field, segy_get_field, SEGY_TRACE_HEADER_SIZE.
  replace (f <? 0) with false by (symmetry; apply Z.ltb_ge; lia).
  replace (f >=? 240) with false
    by (symmetry; rewrite Z.geb_leb; apply Z.leb_gt; lia).
  cbn [orb]. intros E.
  destruct (_ || _); [reflexivity|].
  destruct (Z.le_gt_cases 1 g) as [Hg|Hg].
  - apply (set_field_frame field_size header header' f g v); try assumption; lia.
  - unfold get_field, header_bytes.
    replace (1 <=? g) with false by (symmetry; apply Z.leb_gt; lia).
    reflexivity.
Qed.

Lemma segy_set_field_keeps_others_witness :
  exists header',
    segy_set_field Example.field_size (Example.trace_header 0 0 1 1)
      Example.INLINE_3D 9 = Some (SEGY_OK, header') /\
    segy_get_field Example.field_size header' Example.CROSSLINE_3D
    = segy_get_field Example.field_size (Example.trace_header 0 0 1 1)
        Example.CROSSLINE_3D.
Proof.
  eexists. split; [reflexivity|].
  apply (segy_set_field_keeps_others Example.field_size
           (Example.trace_header 0 0 1 1) _
           Example.INLINE_3D Example.CROSSLINE_3D 9).
  - exact (proj1 Sorting.example_valid_fields).
  - reflexivity.
  - right. vm_compute. intros Hc. discriminate Hc.
  - reflexivity.
Defined.

(** X4: a value read from a header field is an [int32_t], and an
    [int16_t] when the field is two bytes wide: the two bytes are sign
    extended, never read as unsigned. *)
Theorem segy_get_field_range (field_size : Z -> Z) (header : list byte)
  (field v : Z) :
  segy_get_field field_size header field = FieldValue v ->
  - 2 ^ 31 <= v < 2 ^ 31 /\
  (field_size field = 2 -> - 2 ^ 15 <= v < 2 ^ 15).
Proof.
  unfold segy_get_field, get_field.
  destruct (_ || _); [discriminate|].
  destruct (Z.eqb_spec (field_size field) 4) as [E4|E4].
  - destruct (header_bytes header field 4); [|discriminate].
    intros H. injection H as <-. split; [apply s32_range | lia].
  - destruct (Z.eqb_spec (field_size field) 2) as [E2|E2]; [|discriminate].
    destruct (header_bytes header field 2); [|discriminate].
    intros H. injection H as <-.
    pose proof (s16_range (be_decode l)). split; [lia | intros _; lia].
Qed.

Lemma segy_get_field_range_witness :
  - 2 ^ 31 <= -2 < 2 ^ 31 /\ - 2 ^ 15 <= -2 < 2 ^ 15.
Proof.
  destruct (segy_get_field_range Example.field_size
              (Example.trace_header 0 65534 1 1)
              Example.TRACE_SAMPLE_INTERVAL (-2)) as [H32 H16].
  - reflexivity.
  - split; [exact H32 | apply H16; reflexivity].
Defined.

(** A two-byte field holding [FF FE] reads as -2. *)
Example two_byte_field_is_signed :
  segy_get_field Example.field_size (Example.trace_header 0 65534 1 1)
    Example.TRACE_SAMPLE_INTERVAL = FieldValue (-2).
Proof. reflexivity. Qed.

End FieldRoundTrip.

(** ** More on the two codecs *)

Module CodecMore.
Import Codec CodecFacts IbmFloat IbmFloatFacts IbmFloatRoundTrip IbmFloatTotal.

(** X5: the transcoders are inverse in the other direction too: the text
    [ebcdic2ascii] produces is mapped by [ascii2ebcdic] to an EBCDIC string
    that [ebcdic2ascii] maps to the same text again. *)
Theorem ebcdic2ascii_ascii2ebcdic_id (ebcdic text : list byte) :
  ebcdic2ascii ebcdic = Some text ->
  exists buf, ascii2ebcdic text = Some buf /\ ebcdic2ascii buf = Some text.
Proof.
  unfold ascii2ebcdic, ebcdic2ascii. intros H.
  apply transcode_some in H. destruct H as (pre & post & -> & Hpre & ->).
  pose proof (map_nonzero e2a pre e2a_nonzero Hpre) as Hmid.
  exists (map (lookup a2e) (map (lookup e2a) pre) ++ [x00]). split.
  - apply transcode_stop. exact Hmid.
  - rewrite transcode_stop by (apply map_nonzero; [exact a2e_nonzero | exact Hmid]).
    f_equal. f_equal. rewrite (map_map (lookup a2e) (lookup e2a)).
    transitivity (map (fun c => c) (map (lookup e2a) pre));
      [apply map_ext; intros c; apply e2a_a2e | apply map_id].
Qed.

Lemma ebcdic2ascii_ascii2ebcdic_id_witness :
  exists buf,
    ascii2ebcdic [x41; x20; x00] = Some buf /\
    ebcdic2ascii buf = Some [x41; x20; x00].
Proof.
  apply (ebcdic2ascii_ascii2ebcdic_id [xc1; x40; x00; xff]).
  reflexivity.
Defined.

(** What the renormalisation loop of [ieee2ibm] returns. *)
Lemma ieee_normalize_bounds (n : nat) (fr exp : Z) :
  (n <= 8)%nat -> 2 ^ (32 - 4 * Z.of_nat n) <= fr < 2 ^ 32 ->
  exists fr' exp',
    ieee_normalize n fr exp = Some (fr', exp') /\
    2 ^ 28 <= fr' < 2 ^ 32 /\ exp - Z.of_nat n <= exp' <= exp.
Proof.
  revert fr exp. induction n as [|n IH]; intros fr exp Hn Hfr.
  - simpl in Hfr. lia.
  - destruct (Z.lt_ge_cases fr 0x10000000) as [Hlt|Hge].
    + rewrite ieee_normalize_more by exact Hlt.
      assert (Hp : 2 ^ (32 - 4 * Z.of_nat n) = 16 * 2 ^ (32 - 4 * Z.of_nat (S n))).
      { change 16 with (2 ^ 4). rewrite <- Z.pow_add_r by lia. f_equal. lia. }
      destruct (IH (u32 (Z.shiftl fr 4)) (exp - 1)) as (fr' & exp' & E & B1 & B2).
      * lia.
      * replace (u32 (Z.shiftl fr 4)) with (16 * fr) by shift_arith. lia.
      * exists fr', exp'. repeat split; try assumption; lia.
    + exists fr, exp. rewrite ieee_normalize_done by exact Hge.
      change 0x10000000 with (2 ^ 28) in Hge. repeat split; lia.
Qed.

(** X6: [ibm2ieee] returns on every 32-bit word (its renormalisation loop
    ends within 32 rounds), the result is a 32-bit word with the sign bit of
    the input, and a zero fraction, whatever the exponent, gives the zero of
    that sign. *)
Theorem ibm2ieee_total_sign (x : Z) :
  0 <= x < 2 ^ 32 ->
  exists y,
    ibm2ieee_word x = Some y /\ 0 <= y < 2 ^ 32 /\
    y / 2 ^ 31 = x / 2 ^ 31 /\
    (ibm_fraction x = 0 -> y = x / 2 ^ 31 * 2 ^ 31).
Proof.
  intros Hx. destruct (ibm_fields x Hx) as (Ex & Hs & He & Hf).
  set (s := x / 2 ^ 31) in *. set (e := ibm_exponent x) in *.
  set (f := ibm_fraction x) in *.
  assert (Hpack : forall fr exp, 0 <= fr < 2 ^ 32 -> 0 <= exp < 2 ^ 8 ->
            0 <= pack_ieee fr exp s < 2 ^ 32 /\ pack_ieee fr exp s / 2 ^ 31 = s).
  { intros fr exp Hfr Hexp. rewrite pack_ieee_val by lia.
    assert (0 <= fr / 2 ^ 9 < 2 ^ 23) by (Z.div_mod_to_equations; lia).
    split; [lia|]. Z.div_mod_to_equations. lia. }
  assert (Ew : ibm2ieee_word x = ibm2ieee_word (s * 2 ^ 31 + e * 2 ^ 24 + f))
    by (f_equal; exact Ex).
  rewrite Ew, ibm2ieee_split by lia.
  destruct (Z.eqb_spec (f * 2 ^ 8) 0) as [Ez|Ez].
  - exists (pack_ieee (f * 2 ^ 8) 0 s). split; [reflexivity|].
    destruct (Hpack (f * 2 ^ 8) 0 ltac:(lia) ltac:(lia)) as [B S].
    split; [exact B|]. split; [exact S|]. intros _.
    rewrite pack_ieee_val by lia. rewrite Ez. reflexivity.
  - destruct (ibm_normalize_fuel 32 (f * 2 ^ 8) (4 * e - 130))
      as (fr' & exp' & E & Bf & Be); [lia | simpl; lia |].
    rewrite E.
    destruct (Z.leb_spec exp' 0) as [Hu|Hu].
    + cbv zeta.
      assert (Hfr : 0 <= (if exp' <? -24 then 0 else Z.shiftr fr' (- exp')) < 2 ^ 32).
      { destruct (Z.ltb_spec exp' (-24)); [lia|].
        rewrite Z.shiftr_div_pow2 by lia.
        assert (0 < 2 ^ (- exp')) by (apply Z.pow_pos_nonneg; lia).
        split; [apply Z.div_pos; lia|].
        apply Z.div_lt_upper_bound; [lia|]. nia. }
      eexists. split; [reflexivity|].
      destruct (Hpack _ 0 Hfr ltac:(lia)) as [B S].
      split; [exact B|]. split; [exact S|]. intros Hz. lia.
    + destruct (Z.geb_spec exp' 255) as [Ho|Ho].
      * eexists. split; [reflexivity|].
        destruct (Hpack 0 255 ltac:(lia) ltac:(lia)) as [B S].
        split; [exact B|]. split; [exact S|]. intros Hz. lia.
      * eexists. split; [reflexivity|].
        destruct (Hpack (u32 (Z.shiftl fr' 1)) exp'
                    (BufferFacts.u32_range _) ltac:(lia)) as [B S].
        split; [exact B|]. split; [exact S|]. intros Hz. lia.
Qed.

Lemma ibm2ieee_total_sign_witness :
  exists y,
    ibm2ieee_word 0xC2080000 = Some y /\ 0 <= y < 2 ^ 32 /\
    y / 2 ^ 31 = 0xC2080000 / 2 ^ 31 /\
    (ibm_fraction 0xC2080000 = 0 -> y = 0xC2080000 / 2 ^ 31 * 2 ^ 31).
Proof. apply (ibm2ieee_total_sign 0xC2080000). lia. Defined.

Lemma ieee_fields (y : Z) :
  0 <= y < 2 ^ 32 ->
  y = (y / 2 ^ 31) * 2 ^ 31 + ieee_exponent y * 2 ^ 23 + y mod 2 ^ 23 /\
  0 <= y / 2 ^ 31 < 2 /\ 0 <= ieee_exponent y < 2 ^ 8 /\
  0 <= y mod 2 ^ 23 < 2 ^ 23.
Proof.
  intros Hy. unfold ieee_exponent. Z.div_mod_to_equations. lia.
Qed.

(** The first lines of [ieee2ibm] on the word [s·2^31 + E·2^23 + m]. *)
Lemma ieee2ibm_split (s E m : Z) :
  0 <= s < 2 -> 0 <= E < 2 ^ 8 -> 0 <= m < 2 ^ 23 ->
  ieee2ibm_word (s * 2 ^ 31 + E * 2 ^ 23 + m) =
    if E =? 255 then Some (pack_ibm 0xffffff00 0x7f s)
    else if E >? 0 then ieee2ibm_rebase (m * 2 ^ 8 + 2 ^ 31) E s
    else if m * 2 ^ 9 =? 0 then Some (pack_ibm (m * 2 ^ 9) E s)
    else ieee2ibm_rebase (m * 2 ^ 9) E s.
Proof.
  intros Hs HE Hm. unfold ieee2ibm_word. cbv zeta.
  set (y := s * 2 ^ 31 + E * 2 ^ 23 + m).
  assert (E1 : Z.shiftr y 31 = s) by (subst y; shift_arith).
  assert (E2 : u32 (Z.shiftl y 1) = E * 2 ^ 24 + 2 * m) by (subst y; shift_arith).
  rewrite E1, E2.
  assert (E3 : Z.shiftr (E * 2 ^ 24 + 2 * m) 24 = E) by shift_arith.
  assert (E4 : u32 (Z.shiftl (E * 2 ^ 24 + 2 * m) 8) = m * 2 ^ 9) by shift_arith.
  rewrite E3, E4.
  assert (E5 : Z.lor (Z.shiftr (m * 2 ^ 9) 1) 0x80000000 = m * 2 ^ 8 + 2 ^ 31).
  { change 0x80000000 with (Z.shiftl 1 31).
    replace (Z.shiftr (m * 2 ^ 9) 1) with (m * 2 ^ 8) by shift_arith.
    rewrite lor_shiftl_add by lia. lia. }
  rewrite E5. reflexivity.
Qed.

(** The rebasing step returns a normalised fraction under an exponent that
    fits its seven bits. *)
Lemma ieee2ibm_rebase_bounds (fr E s : Z) :
  2 ^ 9 <= fr < 2 ^ 32 -> 0 <= E < 255 ->
  exists fr' exp',
    ieee2ibm_rebase fr E s = Some (pack_ibm fr' exp' s) /\
    2 ^ 28 <= fr' < 2 ^ 32 /\ 0 <= exp' < 2 ^ 7.
Proof.
  intros Hfr HE. unfold ieee2ibm_rebase. cbv zeta.
  rewrite land_3_mod.
  assert (Hsh : 0 <= (- (E + 130)) mod 4 < 4) by (apply Z.mod_pos_bound; lia).
  set (sh := (- (E + 130)) mod 4) in *.
  rewrite (Z.shiftr_div_pow2 _ sh) by lia.
  assert (Hq : 2 ^ 0 <= fr / 2 ^ sh < 2 ^ 32).
  { assert (Hc : sh = 0 \/ sh = 1 \/ sh = 2 \/ sh = 3) by lia.
    destruct Hc as [-> | [-> | [-> | ->]]]; Z.div_mod_to_equations; lia. }
  replace (Z.shiftr (E + 130 + 3) 2) with ((E + 133) / 4) by shift_arith.
  destruct (ieee_normalize_bounds 8 (fr / 2 ^ sh) ((E + 133) / 4))
    as (fr' & exp' & En & Bf & Be); [lia | exact Hq |].
  rewrite En. exists fr', exp'. split; [reflexivity|]. split; [exact Bf|].
  assert (33 <= (E + 133) / 4 <= 96) by (Z.div_mod_to_equations; lia).
  lia.
Qed.

(** X7: [ieee2ibm] returns on every 32-bit word and keeps its sign bit;
    unless the input is a zero, the fraction it emits is normalised (its
    leading hexadecimal digit is not zero). *)
Theorem ieee2ibm_total_normalized (y : Z) :
  0 <= y < 2 ^ 32 ->
  exists x,
    ieee2ibm_word y = Some x /\ 0 <= x < 2 ^ 32 /\
    x / 2 ^ 31 = y / 2 ^ 31 /\
    (y mod 2 ^ 31 <> 0 -> ibm_normalized x).
Proof.
  intros Hy. destruct (ieee_fields y Hy) as (Ey & Hs & HE & Hm).
  set (s := y / 2 ^ 31) in *. set (E := ieee_exponent y) in *.
  set (m := y mod 2 ^ 23) in *.
  assert (Hpack : forall fr exp, 2 ^ 28 <= fr < 2 ^ 32 -> 0 <= exp < 2 ^ 7 ->
            0 <= pack_ibm fr exp s < 2 ^ 32 /\ pack_ibm fr exp s / 2 ^ 31 = s /\
            ibm_normalized (pack_ibm fr exp s)).
  { intros fr exp Hfr Hexp. rewrite pack_ibm_val by lia.
    assert (2 ^ 20 <= fr / 2 ^ 8 < 2 ^ 24) by (Z.div_mod_to_equations; lia).
    split; [lia|]. unfold ibm_normalized, ibm_fraction.
    split; Z.div_mod_to_equations; lia. }
  assert (Ew : ieee2ibm_word y = ieee2ibm_word (s * 2 ^ 31 + E * 2 ^ 23 + m))
    by (f_equal; exact Ey).
  rewrite Ew, ieee2ibm_split by lia.
  destruct (Z.eqb_spec E 255) as [E255|E255].
  - eexists. split; [reflexivity|].
    destruct (Hpack 0xffffff00 0x7f ltac:(lia) ltac:(lia)) as (B & S & N).
    split; [exact B|]. split; [exact S|]. intros _. exact N.
  - destruct (Z.gtb_spec E 0) as [Epos|Ezero].
    + destruct (ieee2ibm_rebase_bounds (m * 2 ^ 8 + 2 ^ 31) E s)
        as (fr' & exp' & Er & Bf & Be); [lia | lia |].
      rewrite Er. eexists. split; [reflexivity|].
      destruct (Hpack fr' exp' Bf Be) as (B & S & N).
      split; [exact B|]. split; [exact S|]. intros _. exact N.
    + assert (E = 0) by lia.
      destruct (Z.eqb_spec (m * 2 ^ 9) 0) as [Ez|Ez].
      * eexists. split; [reflexivity|].
        rewrite pack_ibm_val by lia.
        replace (m * 2 ^ 9 / 2 ^ 8) with 0 by (rewrite Ez; reflexivity).
        split; [lia|]. split; [Z.div_mod_to_equations; lia|].
        intros Hnz. exfalso. apply Hnz.
        rewrite Ey. Z.div_mod_to_equations. lia.
      * destruct (ieee2ibm_rebase_bounds (m * 2 ^ 9) E s)
          as (fr' & exp' & Er & Bf & Be); [lia | lia |].
        rewrite Er. eexists. split; [reflexivity|].
        destruct (Hpack fr' exp' Bf Be) as (B & S & N).
        split; [exact B|]. split; [exact S|]. intros _. exact N.
Qed.

Lemma ieee2ibm_total_normalized_witness :
  exists x,
    ieee2ibm_word 0x3D800000 = Some x /\ 0 <= x < 2 ^ 32 /\
    x / 2 ^ 31 = 0x3D800000 / 2 ^ 31 /\
    (0x3D800000 mod 2 ^ 31 <> 0 -> ibm_normalized x).
Proof. apply (ieee2ibm_total_normalized 0x3D800000). lia. Defined.

(** X8: infinities and NaNs (exponent field 255) are encoded as the
    largest IBM magnitude [7FFFFFFF] under the sign of the input. *)
Theorem ieee2ibm_infinity_nan (y : Z) :
  0 <= y < 2 ^ 32 -> ieee_exponent y = 255 ->
  ieee2ibm_word y = Some (0x7fffffff + y / 2 ^ 31 * 2 ^ 31).
Proof.
  intros Hy H255. destruct (ieee_fields y Hy) as (Ey & Hs & HE & Hm).
  assert (Ew : ieee2ibm_word y =
               ieee2ibm_word (y / 2 ^ 31 * 2 ^ 31 + ieee_exponent y * 2 ^ 23 + y mod 2 ^ 23))
    by (f_equal; exact Ey).
  rewrite Ew, ieee2ibm_split by lia. rewrite H255.
  cbn [Z.eqb Pos.eqb]. f_equal. rewrite pack_ibm_val by lia.
  change (0xffffff00 / 2 ^ 8) with 0xffffff. lia.
Qed.

Lemma ieee2ibm_infinity_nan_witness :
  ieee2ibm_word 0xFF800000 = Some (0x7fffffff + 0xFF800000 / 2 ^ 31 * 2 ^ 31).
Proof.
  apply (ieee2ibm_infinity_nan 0xFF800000); [lia | reflexivity].
Defined.

End CodecMore.

(** ** Which IBM words come back *)

Module IbmFloatExact.
Import IbmFloat IbmFloatFacts IbmFloatRoundTrip IbmFloatTotal CodecMore.

(** A zero fraction decodes to the zero of its sign, whatever the exponent. *)
Lemma ibm2ieee_zero_fraction (s e : Z) :
  0 <= s < 2 -> 0 <= e < 2 ^ 7 ->
  ibm2ieee_word (s * 2 ^ 31 + e * 2 ^ 24 + 0) = Some (s * 2 ^ 31).
Proof.
  intros Hs He. rewrite ibm2ieee_split by lia.
  cbn [Z.mul Z.eqb]. rewrite pack_ieee_val by lia. f_equal.
Qed.

Lemma ieee2ibm_zero (s : Z) :
  0 <= s < 2 -> ieee2ibm_word (s * 2 ^ 31) = Some (s * 2 ^ 31).
Proof.
  intros Hs.
  replace (s * 2 ^ 31) with (s * 2 ^ 31 + 0 * 2 ^ 23 + 0) at 1 by lia.
  rewrite ieee2ibm_split by lia.
  cbn [Z.mul Z.eqb Z.gtb Z.compare]. rewrite pack_ibm_val by lia. f_equal.
Qed.

Lemma ieee2ibm_infinity (s : Z) :
  0 <= s < 2 ->
  ieee2ibm_word (s * 2 ^ 31 + 255 * 2 ^ 23) = Some (0x7fffffff + s * 2 ^ 31).
Proof.
  intros Hs.
  replace (s * 2 ^ 31 + 255 * 2 ^ 23)
    with (s * 2 ^ 31 + 255 * 2 ^ 23 + 0) by lia.
  rewrite ieee2ibm_split by lia.
  cbn [Z.eqb Pos.eqb]. rewrite pack_ibm_val by lia. f_equal.
Qed.

(** Whatever [ieee2ibm] returns has a zero or a normalised fraction. *)
Lemma ieee2ibm_shape (y : Z) :
  0 <= y < 2 ^ 32 ->
  exists x,
    ieee2ibm_word y = Some x /\
    (ibm_fraction x = 0 \/ 2 ^ 20 <= ibm_fraction x).
Proof.
  intros Hy. destruct (ieee_fields y Hy) as (Ey & Hs & HE & Hm).
  set (s := y / 2 ^ 31) in *. set (E := ieee_exponent y) in *.
  set (m := y mod 2 ^ 23) in *.
  assert (Hpack : forall fr exp, 2 ^ 28 <= fr < 2 ^ 32 -> 0 <= exp < 2 ^ 7 ->
            2 ^ 20 <= ibm_fraction (pack_ibm fr exp s)).
  { intros fr exp Hfr Hexp. rewrite pack_ibm_val by lia.
    assert (2 ^ 20 <= fr / 2 ^ 8 < 2 ^ 24) by (Z.div_mod_to_equations; lia).
    unfold ibm_fraction. Z.div_mod_to_equations. lia. }
  assert (Ew : ieee2ibm_word y = ieee2ibm_word (s * 2 ^ 31 + E * 2 ^ 23 + m))
    by (f_equal; exact Ey).
  rewrite Ew, ieee2ibm_split by lia.
  destruct (Z.eqb_spec E 255) as [E255|E255].
  - eexists. split; [reflexivity|]. right. apply Hpack; lia.
  - destruct (Z.gtb_spec E 0) as [Epos|Ezero].
    + destruct (ieee2ibm_rebase_bounds (m * 2 ^ 8 + 2 ^ 31) E s)
        as (fr' & exp' & Er & Bf & Be); [lia | lia |].
      rewrite Er. eexists. split; [reflexivity|]. right. apply Hpack; assumption.
    + destruct (Z.eqb_spec (m * 2 ^ 9) 0) as [Ez|Ez].
      * eexists. split; [reflexivity|]. left.
        rewrite pack_ibm_val by lia. rewrite Ez.
        unfold ibm_fraction. Z.div_mod_to_equations. lia.
      * destruct (ieee2ibm_rebase_bounds (m * 2 ^ 9) E s)
          as (fr' & exp' & Er & Bf & Be); [lia | lia |].
        rewrite Er. eexists. split; [reflexivity|]. right.
        apply Hpack; assumption.
Qed.

(** Above IEEE's range [ibm2ieee] returns the infinity of the sign. *)
Lemma ibm2ieee_overflow (s e f : Z) :
  0 <= s < 2 -> 0 <= e < 2 ^ 7 -> 2 ^ 20 <= f < 2 ^ 24 ->
  255 <= 4 * e - 130 - ibm_lz f ->
  ibm2ieee_word (s * 2 ^ 31 + e * 2 ^ 24 + f) = Some (s * 2 ^ 31 + 255 * 2 ^ 23).
Proof.
  intros Hs He Hf Hx.
  rewrite ibm2ieee_split by lia.
  replace (f * 2 ^ 8 =? 0) with false by (symmetry; apply Z.eqb_neq; lia).
  rewrite ibm_normalize_lz by lia.
  replace (4 * e - 130 - ibm_lz f <=? 0) with false
    by (symmetry; apply Z.leb_gt; lia).
  replace (4 * e - 130 - ibm_lz f >=? 255) with true
    by (symmetry; rewrite Z.geb_leb; apply Z.leb_le; lia).
  rewrite pack_ieee_val by lia. f_equal.
  change (0 / 2 ^ 9) with 0. lia.
Qed.

(** Below IEEE's normal range [ibm2ieee] returns a denormal number: the
    value [f * 2^(4e - 280)] in units of [2^-149], rounded towards zero. *)
Lemma ibm2ieee_denormal (s e f : Z) :
  0 <= s < 2 -> 0 <= e < 2 ^ 7 -> 2 ^ 20 <= f < 2 ^ 24 ->
  4 * e - 130 - ibm_lz f <= 0 ->
  ibm2ieee_word (s * 2 ^ 31 + e * 2 ^ 24 + f) =
    Some (s * 2 ^ 31 + (2 * f) / 2 ^ (132 - 4 * e)).
Proof.
  intros Hs He Hf Hx.
  pose proof (ibm_lz_range f) as Hk. pose proof (ibm_lz_spec f Hf) as Hn.
  rewrite ibm2ieee_split by lia.
  replace (f * 2 ^ 8 =? 0) with false by (symmetry; apply Z.eqb_neq; lia).
  rewrite ibm_normalize_lz by lia.
  set (k := ibm_lz f) in *.
  replace (4 * e - 130 - k <=? 0) with true by (symmetry; apply Z.leb_le; lia).
  cbv zeta.
  assert (Hpow : 2 ^ (8 + k) = 2 ^ 8 * 2 ^ k) by (apply Z.pow_add_r; lia).
  assert (Hfr : 2 ^ 31 <= f * 2 ^ (8 + k) < 2 ^ 32) by (rewrite Hpow; lia).
  destruct (Z.ltb_spec (4 * e - 130 - k) (-24)) as [Hlow|Hhigh].
  - assert (Hz : 2 * f / 2 ^ (132 - 4 * e) = 0).
    { apply Z.div_small. split; [lia|].
      assert (H27 : 2 ^ 27 <= 2 ^ (132 - 4 * e + k))
        by (apply Z.pow_le_mono_r; lia).
      rewrite Z.pow_add_r in H27 by lia.
      assert (0 < 2 ^ k) by (apply Z.pow_pos_nonneg; lia).
      assert (0 < 2 ^ (132 - 4 * e)) by (apply Z.pow_pos_nonneg; lia).
      nia. }
    rewrite pack_ieee_val by lia. rewrite Hz. f_equal.
    change (0 / 2 ^ 9) with 0. lia.
  - set (d := - (4 * e - 130 - k)).
    assert (Hd : 0 <= d <= 24) by (subst d; lia).
    rewrite Z.shiftr_div_pow2 by lia.
    assert (Hdpos : 0 < 2 ^ d) by (apply Z.pow_pos_nonneg; lia).
    assert (Hq : 0 <= f * 2 ^ (8 + k) / 2 ^ d < 2 ^ 32).
    { split; [apply Z.div_pos; lia|].
      apply Z.div_lt_upper_bound; [lia|]. nia. }
    rewrite pack_ieee_val by lia. f_equal.
    rewrite Z.mul_0_l, Z.add_0_r, Z.add_comm. f_equal.
    rewrite Z.div_div by lia.
    replace (f * 2 ^ (8 + k)) with (2 * f * 2 ^ (7 + k))
      by (rewrite Hpow, (Z.pow_add_r 2 7 k) by lia; lia).
    replace (2 ^ d * 2 ^ 9) with (2 ^ (132 - 4 * e) * 2 ^ (7 + k)).
    2:{ rewrite <- !Z.pow_add_r by lia. f_equal. subst d. lia. }
    rewrite Z.div_mul_cancel_r; [lia | |].
    + apply Z.pow_nonzero; lia.
    + apply Z.pow_nonzero; lia.
Qed.

(** The renormalisation loop of [ieee2ibm] shifts by as many hexadecimal
    digits as it takes to fill the leading one. *)
Lemma ieee_normalize_shift (j : nat) :
  forall (n : nat) (fr exp : Z),
    (j <= n)%nat -> 0 <= fr ->
    2 ^ 28 <= fr * 16 ^ Z.of_nat j < 2 ^ 32 ->
    ieee_normalize n fr exp = Some (fr * 16 ^ Z.of_nat j, exp - Z.of_nat j).
Proof.
  induction j as [|j IH]; intros n fr exp Hn Hfr Hw.
  - change (16 ^ Z.of_nat 0) with 1 in *. rewrite Z.mul_1_r in *.
    rewrite ieee_normalize_done by (change 0x10000000 with (2 ^ 28); lia).
    f_equal. f_equal. lia.
  - destruct n as [|n]; [lia|].
    assert (Hp : 16 ^ Z.of_nat (S j) = 16 * 16 ^ Z.of_nat j).
    { rewrite Nat2Z.inj_succ, Z.pow_succ_r by lia. reflexivity. }
    assert (Hpos : 0 < 16 ^ Z.of_nat j) by (apply Z.pow_pos_nonneg; lia).
    rewrite Hp in Hw.
    assert (Hlt : fr < 2 ^ 28) by nia.
    rewrite ieee_normalize_more by (change 0x10000000 with (2 ^ 28); exact Hlt).
    replace (u32 (Z.shiftl fr 4)) with (16 * fr) by shift_arith.
    rewrite (IH n (16 * fr) (exp - 1)) by (lia || nia).
    rewrite Hp. f_equal. f_equal; lia.
Qed.

(** Encoding a denormal IEEE number. *)
Lemma ieee2ibm_denormal (s m : Z) (j : nat) :
  0 <= s < 2 -> 0 < m < 2 ^ 23 -> (j <= 8)%nat ->
  2 ^ 28 <= m * 2 ^ 7 * 16 ^ Z.of_nat j < 2 ^ 32 ->
  ieee2ibm_word (s * 2 ^ 31 + m) =
    Some (m * 2 ^ 7 * 16 ^ Z.of_nat j / 2 ^ 8
          + (33 - Z.of_nat j) * 2 ^ 24 + s * 2 ^ 31).
Proof.
  intros Hs Hm Hj Hw.
  replace (s * 2 ^ 31 + m) with (s * 2 ^ 31 + 0 * 2 ^ 23 + m) by lia.
  rewrite ieee2ibm_split by lia.
  cbn [Z.eqb Z.gtb Z.compare].
  replace (m * 2 ^ 9 =? 0) with false by (symmetry; apply Z.eqb_neq; lia).
  unfold ieee2ibm_rebase. cbv zeta. rewrite land_3_mod.
  change ((- (0 + 130)) mod 4) with 2.
  change (Z.shiftr (0 + 130 + 3) 2) with 33.
  replace (Z.shiftr (m * 2 ^ 9) 2) with (m * 2 ^ 7) by shift_arith.
  rewrite (ieee_normalize_shift j 8 (m * 2 ^ 7) 33) by (lia || exact Hw).
  rewrite pack_ibm_val by lia. reflexivity.
Qed.

Lemma some_inj (a b : Z) : Some a = Some b -> a = b.
Proof. intros H. congruence. Qed.

(** A normalised word below IEEE's normal range comes back exactly when
    its value is a multiple of the smallest denormal. *)
Lemma roundtrip_denormal (s e f : Z) :
  0 <= s < 2 -> 0 <= e < 2 ^ 7 -> 2 ^ 20 <= f < 2 ^ 24 ->
  4 * e - 130 - ibm_lz f <= 0 ->
  (roundtrip_word (s * 2 ^ 31 + e * 2 ^ 24 + f)
     = Some (s * 2 ^ 31 + e * 2 ^ 24 + f)
   <-> (2 * f) mod 2 ^ (132 - 4 * e) = 0).
Proof.
  intros Hs He Hf Hb.
  pose proof (ibm_lz_range f) as Hk. pose proof (ibm_lz_spec f Hf) as Hn.
  unfold roundtrip_word. rewrite ibm2ieee_denormal by lia.
  set (k := ibm_lz f) in *.
  destruct (Z.le_gt_cases e 26) as [Hlow|Hhigh].
  - (* the value is below half the smallest denormal *)
    assert (H28 : 2 ^ 28 <= 2 ^ (132 - 4 * e)) by (apply Z.pow_le_mono_r; lia).
    rewrite (Z.div_small (2 * f)) by lia.
    rewrite (Z.mod_small (2 * f)) by lia.
    rewrite Z.add_0_r, ieee2ibm_zero by lia.
    split; [intros H; apply some_inj in H; lia | lia].
  - assert (Hk' : k = 0 \/ k = 1 \/ k = 2 \/ k = 3) by lia.
    assert (Hf' : k = 0 /\ 2 ^ 23 <= f \/ k = 1 /\ 2 ^ 22 <= f < 2 ^ 23 \/
                  k = 2 /\ 2 ^ 21 <= f < 2 ^ 22 \/ k = 3 /\ f < 2 ^ 21).
    { destruct Hk' as [E | [E | [E | E]]]; rewrite E in Hn; lia. }
    clear Hn Hk'.
    assert (He' : e = 27 \/ e = 28 \/ e = 29 \/ e = 30 \/ e = 31 \/ e = 32
                  \/ e = 33) by lia.
    assert (Hrun : forall (t : Z) (j : nat),
              132 - 4 * e = t -> Z.of_nat j = 33 - e -> (j <= 8)%nat ->
              (0 < 2 * f / 2 ^ t ->
               2 ^ 28 <= 2 * f / 2 ^ t * 2 ^ 7 * 16 ^ Z.of_nat j < 2 ^ 32) ->
              2 * f / 2 ^ t < 2 ^ 23 ->
              (2 * f / 2 ^ t * 2 ^ 7 * 16 ^ Z.of_nat j / 2 ^ 8 = f
               <-> (2 * f) mod 2 ^ t = 0) ->
              (2 * f / 2 ^ t = 0 -> (2 * f) mod 2 ^ t <> 0) ->
              (ieee2ibm_word (s * 2 ^ 31 + 2 * f / 2 ^ (132 - 4 * e))
                 = Some (s * 2 ^ 31 + e * 2 ^ 24 + f)
               <-> (2 * f) mod 2 ^ (132 - 4 * e) = 0)).
    { intros t j Et Ej Hj Hwin Hm Hiff Hnz. rewrite Et.
      assert (Hm0 : 0 <= 2 * f / 2 ^ t).
      { apply Z.div_pos; [lia|]. apply Z.pow_pos_nonneg; lia. }
      destruct (Z.eq_dec (2 * f / 2 ^ t) 0) as [Ez|Ez].
      - specialize (Hnz Ez).
        rewrite Ez, Z.add_0_r, ieee2ibm_zero by lia.
        split; [intros H; apply some_inj in H; lia | intros H; contradiction].
      - rewrite (ieee2ibm_denormal s (2 * f / 2 ^ t) j) by (lia || apply Hwin; lia).
        split.
        + intros H. apply some_inj in H. apply Hiff.
          assert (0 <= 2 * f / 2 ^ t * 2 ^ 7 * 16 ^ Z.of_nat j / 2 ^ 8 < 2 ^ 24).
          { specialize (Hwin ltac:(lia)).
            split; [apply Z.div_pos; lia|].
            apply Z.div_lt_upper_bound; lia. }
          lia.
        + intros H. apply Hiff in H. rewrite H. f_equal. lia. }
    destruct He' as [E | [E | [E | [E | [E | [E | E]]]]]]; subst e.
    + apply (Hrun 24 6%nat); [reflexivity | reflexivity | lia | | | |];
        change (16 ^ Z.of_nat 6) with (2 ^ 24);
        try split; intros; Z.div_mod_to_equations; lia.
    + apply (Hrun 20 5%nat); [reflexivity | reflexivity | lia | | | |];
        change (16 ^ Z.of_nat 5) with (2 ^ 20);
        try split; intros; Z.div_mod_to_equations; lia.
    + apply (Hrun 16 4%nat); [reflexivity | reflexivity | lia | | | |];
        change (16 ^ Z.of_nat 4) with (2 ^ 16);
        try split; intros; Z.div_mod_to_equations; lia.
    + apply (Hrun 12 3%nat); [reflexivity | reflexivity | lia | | | |];
        change (16 ^ Z.of_nat 3) with (2 ^ 12);
        try split; intros; Z.div_mod_to_equations; lia.
    + apply (Hrun 8 2%nat); [reflexivity | reflexivity | lia | | | |];
        change (16 ^ Z.of_nat 2) with (2 ^ 8);
        try split; intros; Z.div_mod_to_equations; lia.
    + apply (Hrun 4 1%nat); [reflexivity | reflexivity | lia | | | |];
        change (16 ^ Z.of_nat 1) with (2 ^ 4);
        try split; intros; Z.div_mod_to_equations; lia.
    + apply (Hrun 0 0%nat); [reflexivity | reflexivity | lia | | | |];
        change (16 ^ Z.of_nat 0) with (2 ^ 0);
        try split; intros; Z.div_mod_to_equations; lia.
Qed.

(** C1 (as amended): a 32-bit IBM word comes back unchanged from
    [ibm2ieee] followed by [ieee2ibm] exactly when it is one of the two
    zeros, the largest magnitude [7FFFFFFF] of either sign, or a word with a
    normalised fraction whose value is an IEEE number, normal or denormal.
    Every other word, an unnormalised one or one whose value IEEE cannot
    hold, comes back changed. *)
Theorem ibm_ieee_roundtrip_exact (x : Z) :
  0 <= x < 2 ^ 32 ->
  (roundtrip_word x = Some x <-> ibm_fixed x).
Proof.
  intros Hx. destruct (ibm_fields x Hx) as (Ex & Hs & He & Hf).
  assert (Hmod : x mod 2 ^ 31 = ibm_exponent x * 2 ^ 24 + ibm_fraction x).
  { rewrite Ex at 1. Z.div_mod_to_equations. lia. }
  unfold ibm_fixed, ibm_normalized, ibm_binexp. cbv zeta. rewrite Hmod.
  set (s := x / 2 ^ 31) in *. set (e := ibm_exponent x) in *.
  set (f := ibm_fraction x) in *.
  assert (Er : roundtrip_word x = roundtrip_word (s * 2 ^ 31 + e * 2 ^ 24 + f))
    by (f_equal; exact Ex).
  destruct (Z.eq_dec f 0) as [Ef0|Ef0].
  - (* zero fraction: the zero of the sign comes out *)
    rewrite Er, Ef0. unfold roundtrip_word.
    rewrite ibm2ieee_zero_fraction, ieee2ibm_zero by lia.
    split.
    + intros H. apply some_inj in H. left. lia.
    + intros [[E0 _] | [H | [[H _] | [H _]]]]; [f_equal; lia | lia | lia | lia].
  - destruct (Z.lt_ge_cases f (2 ^ 20)) as [Hun|Hnorm].
    + (* unnormalised fraction: what comes out is normalised or zero *)
      destruct (ibm2ieee_word_total x Hx) as (y & Ey & Hy).
      destruct (ieee2ibm_shape y Hy) as (x' & Ex' & Hshape).
      unfold roundtrip_word. rewrite Ey, Ex'.
      split.
      * intros H. apply some_inj in H. subst x'. fold f in Hshape. lia.
      * intros [[_ H] | [H | [[H _] | [H _]]]]; lia.
    + pose proof (ibm_lz_range f) as Hk.
      destruct (Z.le_gt_cases (4 * e - 130 - ibm_lz f) 0) as [Hlow|Hpos].
      * (* below the normal range *)
        pose proof (roundtrip_denormal s e f Hs He ltac:(lia) Hlow) as Hd.
        rewrite <- Ex in Hd.
        split.
        -- intros H. apply Hd in H. right. right. right.
           repeat split; lia.
        -- intros [[_ H] | [H | [[_ H] | [_ [_ H]]]]];
             [lia | lia | lia | apply Hd; exact H].
      * destruct (Z.le_gt_cases (4 * e - 130 - ibm_lz f) 254) as [Hin|Hover].
        -- (* the normal range *)
           rewrite Er, roundtrip_fields by lia. rewrite <- Ex.
           split; [intros _; right; right; left; lia | reflexivity].
        -- (* above the range: saturation *)
           rewrite Er. unfold roundtrip_word.
           rewrite ibm2ieee_overflow, ieee2ibm_infinity by lia.
           split.
           ++ intros H. apply some_inj in H. right. left. lia.
           ++ intros [[_ H] | [H | [[_ H] | [_ [H _]]]]];
                [lia | f_equal; lia | lia | lia].
Qed.

(** The four kinds of word that come back, and one of each kind that does
    not: a zero, the largest magnitude, 1.0, an exact denormal; the
    unnormalised 0.0625, a zero fraction under an exponent, a value above
    the range, a value with bits below the smallest denormal. *)
Lemma ibm_ieee_roundtrip_exact_witness :
  (roundtrip_word 0x80000000 = Some 0x80000000 /\
   roundtrip_word 0x7fffffff = Some 0x7fffffff /\
   roundtrip_word 0x41100000 = Some 0x41100000 /\
   roundtrip_word 0x21200000 = Some 0x21200000) /\
  (~ ibm_fixed 0x41010000 /\ ~ ibm_fixed 0x41000000 /\
   ~ ibm_fixed 0x61100000 /\ ~ ibm_fixed 0x1F123456).
Proof.
  split; [split; [|split; [|split]] | split; [|split; [|split]]].
  - apply (ibm_ieee_roundtrip_exact 0x80000000); [lia|].
    left. split; reflexivity.
  - apply (ibm_ieee_roundtrip_exact 0x7fffffff); [lia|].
    right. left. reflexivity.
  - apply (ibm_ieee_roundtrip_exact 0x41100000); [lia|].
    right. right. left. vm_compute.
    repeat split; intros Hc; discriminate Hc.
  - apply (ibm_ieee_roundtrip_exact 0x21200000); [lia|].
    right. right. right. vm_compute.
    repeat split; try reflexivity; intros Hc; discriminate Hc.
  - intros H. apply (ibm_ieee_roundtrip_exact 0x41010000) in H; [|lia].
    vm_compute in H. discriminate H.
  - intros H. apply (ibm_ieee_roundtrip_exact 0x41000000) in H; [|lia].
    vm_compute in H. discriminate H.
  - intros H. apply (ibm_ieee_roundtrip_exact 0x61100000) in H; [|lia].
    vm_compute in H. discriminate H.
  - intros H. apply (ibm_ieee_roundtrip_exact 0x1F123456) in H; [|lia].
    vm_compute in H. discriminate H.
Defined.

End IbmFloatExact.

(** ** Converting samples there and back *)

Module NativeRoundTrip.
Import IbmFloat Native NativeFacts BufferFacts.

Lemma host_load_store32 (host : endianness) (w : Z) :
  0 <= w < 2 ^ 32 -> host_load host (host_store32 host w) = w.
Proof.
  intros Hw. destruct host; unfold host_load, host_store32.
  - rewrite rev_involutive. apply be_decode_encode32. exact Hw.
  - apply be_decode_encode32. exact Hw.
Qed.

Lemma host_store32_four (host : endianness) (w : Z) :
  exists a b c d, host_store32 host w = [a; b; c; d].
Proof. destruct host; unfold host_store32, be_encode32; cbn [rev app]; eauto. Qed.

Lemma htonl_range (host : endianness) (a b c d : byte) :
  0 <= host_load host [a; b; c; d] < 2 ^ 32.
Proof. destruct host; unfold host_load; cbn [rev app]; apply be_decode4_range. Qed.

(** Two conversions that undo each other on every group satisfying [P] undo
    each other on a buffer all of whose samples satisfy [P]. *)
Lemma convert_loop_inverse (conv1 conv2 : list byte -> option (list byte))
  (P : list byte -> Prop) :
  (forall a b c d, P [a; b; c; d] ->
     exists a' b' c' d', conv1 [a; b; c; d] = Some [a'; b'; c'; d'] /\
                         conv2 [a'; b'; c'; d'] = Some [a; b; c; d]) ->
  forall (n : nat) (buf : list byte),
    (4 * n <= length buf)%nat ->
    (forall i, (i < n)%nat -> P (sample i buf)) ->
    exists mid, convert_loop conv1 n buf = Some mid /\
                convert_loop conv2 n mid = Some buf.
Proof.
  intros Hinv. induction n as [|n IH]; intros buf Hlen HP.
  - exists buf. split; reflexivity.
  - destruct buf as [|b0 [|b1 [|b2 [|b3 rest]]]]; simpl in Hlen; try lia.
    assert (P0 : P [b0; b1; b2; b3]).
    { specialize (HP 0%nat ltac:(lia)). exact HP. }
    destruct (Hinv _ _ _ _ P0) as (a' & b' & c' & d' & E1 & E2).
    destruct (IH rest) as (mid & M1 & M2); [lia | |].
    { intros i Hi. specialize (HP (S i) ltac:(lia)).
      change (b0 :: b1 :: b2 :: b3 :: rest) with ([b0; b1; b2; b3] ++ rest) in HP.
      rewrite sample_cons4 in HP by reflexivity. exact HP. }
    exists ([a'; b'; c'; d'] ++ mid).
    cbn [convert_loop]. rewrite E1, M1. cbn [option_map app].
    split; [reflexivity|]. cbn [convert_loop]. rewrite E2, M2. reflexivity.
Qed.

Lemma swap_htonl_ntohl (host : endianness) (a b c d : byte) :
  exists a' b' c' d',
    swap_htonl host [a; b; c; d] = Some [a'; b'; c'; d'] /\
    swap_ntohl host [a'; b'; c'; d'] = Some [a; b; c; d].
Proof.
  unfold swap_htonl. rewrite host_store32_htonl.
  exists (z2b (Z.shiftr (host_load host [a; b; c; d]) 24)),
         (z2b (Z.shiftr (host_load host [a; b; c; d]) 16)),
         (z2b (Z.shiftr (host_load host [a; b; c; d]) 8)),
         (z2b (host_load host [a; b; c; d])).
  split; [reflexivity|].
  change [z2b (Z.shiftr (host_load host [a; b; c; d]) 24);
          z2b (Z.shiftr (host_load host [a; b; c; d]) 16);
          z2b (Z.shiftr (host_load host [a; b; c; d]) 8);
          z2b (host_load host [a; b; c; d])]
    with (be_encode32 (host_load host [a; b; c; d])).
  unfold swap_ntohl.
  set (w := host_load host [a; b; c; d]).
  assert (Hw : 0 <= w < 2 ^ 32) by apply htonl_range.
  assert (En : ntohl host (host_load host (be_encode32 w)) = w).
  { unfold be_encode32. rewrite ntohl_host_load.
    apply (be_decode_encode32 w Hw). }
  rewrite En. subst w. rewrite host_store32_load. reflexivity.
Qed.

Lemma swap_ntohl_htonl (host : endianness) (a b c d : byte) :
  exists a' b' c' d',
    swap_ntohl host [a; b; c; d] = Some [a'; b'; c'; d'] /\
    swap_htonl host [a'; b'; c'; d'] = Some [a; b; c; d].
Proof.
  unfold swap_ntohl. rewrite ntohl_host_load.
  set (w := be_decode [a; b; c; d]).
  assert (Hw : 0 <= w < 2 ^ 32) by apply be_decode4_range.
  destruct (host_store32_four host w) as (p & q & r & t & Es).
  exists p, q, r, t. rewrite Es. split; [reflexivity|].
  unfold swap_htonl. rewrite <- Es, host_load_store32 by exact Hw.
  rewrite host_store32_htonl. subst w. rewrite be_encode32_decode. reflexivity.
Qed.

(** X9: for format 5 (IEEE) the two conversions are inverse on any host and
    any samples: a buffer of native floats put into file order by
    [segy_from_native] and brought back by [segy_to_native] is unchanged,
    and the same holds the other way round; both calls return SEGY_OK. *)
Theorem segy_native_ieee_roundtrip (host : endianness) (size : Z)
  (buf : list byte) :
  0 <= size -> 4 * size <= Z.of_nat (length buf) ->
  (exists mid, segy_from_native host IEEE_FLOAT_4_BYTE size buf = Some (SEGY_OK, mid) /\
               segy_to_native host IEEE_FLOAT_4_BYTE size mid = Some (SEGY_OK, buf)) /\
  (exists mid, segy_to_native host IEEE_FLOAT_4_BYTE size buf = Some (SEGY_OK, mid) /\
               segy_from_native host IEEE_FLOAT_4_BYTE size mid = Some (SEGY_OK, buf)).
Proof.
  intros Hs Hlen. unfold segy_from_native, segy_to_native.
  destruct (Z.ltb_spec size 0) as [Hneg|_]; [lia|].
  rewrite Z.eqb_refl. cbv zeta. split.
  - destruct (convert_loop_inverse (swap_htonl host) (swap_ntohl host)
                (fun _ => True)) with (n := Z.to_nat size) (buf := buf)
      as (mid & M1 & M2).
    + intros a b c d _. apply swap_htonl_ntohl.
    + lia.
    + intros; exact I.
    + exists mid. rewrite M1, M2. split; reflexivity.
  - destruct (convert_loop_inverse (swap_ntohl host) (swap_htonl host)
                (fun _ => True)) with (n := Z.to_nat size) (buf := buf)
      as (mid & M1 & M2).
    + intros a b c d _. apply swap_ntohl_htonl.
    + lia.
    + intros; exact I.
    + exists mid. rewrite M1, M2. split; reflexivity.
Qed.

Lemma segy_native_ieee_roundtrip_witness :
  let buf := [x3f; x80; x00; x00; x40; x49; x0f; xdb; xaa] in
  (exists mid, segy_from_native LittleEndian IEEE_FLOAT_4_BYTE 2 buf = Some (SEGY_OK, mid) /\
               segy_to_native LittleEndian IEEE_FLOAT_4_BYTE 2 mid = Some (SEGY_OK, buf)) /\
  (exists mid, segy_to_native LittleEndian IEEE_FLOAT_4_BYTE 2 buf = Some (SEGY_OK, mid) /\
               segy_from_native LittleEndian IEEE_FLOAT_4_BYTE 2 mid = Some (SEGY_OK, buf)).
Proof.
  apply (segy_native_ieee_roundtrip LittleEndian 2
           [x3f; x80; x00; x00; x40; x49; x0f; xdb; xaa]);
    [lia | simpl; lia].
Defined.

(** [ibm2ieee] then [ieee2ibm] on the four bytes of a normalised IBM float
    within IEEE's normal range. *)
Lemma ibm2ieee_ieee2ibm_group (host : endianness) (a b c d : byte) :
  ibm_normalized (be_decode [a; b; c; d]) ->
  1 <= ibm_binexp (be_decode [a; b; c; d]) <= 254 ->
  exists a' b' c' d',
    ibm2ieee host [a; b; c; d] = Some [a'; b'; c'; d'] /\
    ieee2ibm host [a'; b'; c'; d'] = Some [a; b; c; d].
Proof.
  intros Hn Hb. unfold ibm2ieee. rewrite ntohl_host_load.
  set (x := be_decode [a; b; c; d]) in *.
  assert (Hx : 0 <= x < 2 ^ 32) by apply be_decode4_range.
  destruct (IbmFloatRoundTrip.ibm_fields x Hx) as (Ex & Hs & He & Hf).
  pose proof (IbmFloatRoundTrip.roundtrip_fields
                (x / 2 ^ 31) (ibm_exponent x) (ibm_fraction x)
                Hs He ltac:(unfold ibm_normalized in Hn; lia)
                ltac:(unfold ibm_binexp in Hb; lia)) as Hr.
  rewrite <- Ex in Hr. unfold roundtrip_word in Hr.
  destruct (IbmFloatTotal.ibm2ieee_word_total x Hx) as (y & Ey & Hy).
  rewrite Ey in Hr. rewrite Ey. cbn [option_map].
  destruct (host_store32_four host y) as (p & q & r & t & Es).
  exists p, q, r, t. rewrite Es. split; [reflexivity|].
  unfold ieee2ibm. rewrite <- Es, host_load_store32 by exact Hy.
  rewrite Hr. cbn [option_map]. rewrite host_store32_htonl.
  subst x. rewrite be_encode32_decode. reflexivity.
Qed.

(** X10: for the IBM format (any code but 5) [segy_to_native] followed by
    [segy_from_native] gives back the buffer byte for byte when every sample
    is a normalised IBM float within IEEE's normal range; both calls return
    SEGY_OK. *)
Theorem segy_native_ibm_roundtrip (host : endianness) (format size : Z)
  (buf : list byte) :
  format <> IEEE_FLOAT_4_BYTE ->
  0 <= size -> 4 * size <= Z.of_nat (length buf) ->
  (forall i, (i < Z.to_nat size)%nat ->
     ibm_normalized (be_decode (sample i buf)) /\
     1 <= ibm_binexp (be_decode (sample i buf)) <= 254) ->
  exists mid, segy_to_native host format size buf = Some (SEGY_OK, mid) /\
              segy_from_native host format size mid = Some (SEGY_OK, buf).
Proof.
  intros Hf Hs Hlen Hok. unfold segy_from_native, segy_to_native.
  destruct (Z.ltb_spec size 0) as [Hneg|_]; [lia|].
  destruct (Z.eqb_spec format IEEE_FLOAT_4_BYTE) as [E|_]; [contradiction|].
  cbv zeta.
  destruct (convert_loop_inverse (ibm2ieee host) (ieee2ibm host)
              (fun g => ibm_normalized (be_decode g) /\
                        1 <= ibm_binexp (be_decode g) <= 254))
    with (n := Z.to_nat size) (buf := buf) as (mid & M1 & M2).
  - intros a b c d [Hn Hb]. apply ibm2ieee_ieee2ibm_group; assumption.
  - lia.
  - exact Hok.
  - exists mid. rewrite M1, M2. split; reflexivity.
Qed.

Lemma segy_native_ibm_roundtrip_witness :
  exists mid,
    segy_to_native LittleEndian IBM_FLOAT_4_BYTE 2
      [x41; x10; x00; x00; xc2; x76; xa0; x00] = Some (SEGY_OK, mid) /\
    segy_from_native LittleEndian IBM_FLOAT_4_BYTE 2 mid =
      Some (SEGY_OK, [x41; x10; x00; x00; xc2; x76; xa0; x00]).
Proof.
  apply (segy_native_ibm_roundtrip LittleEndian IBM_FLOAT_4_BYTE 2
           [x41; x10; x00; x00; xc2; x76; xa0; x00]).
  - discriminate.
  - lia.
  - simpl; lia.
  - intros i Hi.
    assert (Hc : i = 0%nat \/ i = 1%nat) by (simpl in Hi; lia).
    destruct Hc as [-> | ->]; vm_compute; repeat split; discriminate.
Defined.

End NativeRoundTrip.

(** ** Writing, then reading *)

Module WriteFacts.
Import File Layout GeometrySpec Update ReadFacts BufferFacts.

Lemma slice_all (buf : list byte) :
  slice buf 0 (Z.of_nat (length buf)) = buf.
Proof. unfold slice. rewrite Nat2Z.id. simpl skipn. apply firstn_all. Qed.

Lemma updatable_opened (h : segy_file) : updatable h -> opened h.
Proof. intros [(Hb & _)|(Hm & _)]; [left | right]; assumption. Qed.

(** A store of [n] bytes of [buf] at [p] through an updatable handle:
    [fseek]/[fwrite] on the stream, or cursor and [memcpy] on the mapping. *)
Lemma segy_writetrace_updatable (h : segy_file) (trace0 bsize i : Z)
  (buf : list byte) :
  updatable h ->
  trace_in_range (file_length (fp h)) trace0 bsize i ->
  bsize <= Z.of_nat (length buf) ->
  exists h',
    segy_writetrace h i buf trace0 bsize = Some (SEGY_OK, h') /\
    contents (fp h') =
      overwrite (contents (fp h))
        (trace_pos trace0 bsize i + SEGY_TRACE_HEADER_SIZE) (slice buf 0 bsize) /\
    updatable h'.
Proof.
  intros Hu Hin Hlen.
  destruct (trace_pos_in_range _ _ _ _ Hin) as (Ep & Hp0 & Hp1).
  assert (Hb : 0 <= bsize) by (destruct Hin as (_ & ? & _); assumption).
  assert (Hsl : Z.of_nat (length (slice buf 0 bsize)) = bsize)
    by (apply slice_length; lia).
  unfold trace_pos in *. unfold segy_writetrace.
  destruct Hu as [([Ha Hr] & Hw & Hap)|((Hm & Hs & Hlim) & Ha)].
  - rewrite segy_seek_buffered by (assumption || lia).
    cbn -[Z.mul Z.add slice s32 u32 Z.of_nat overwrite].
    unfold skip_traceheader, is_mapped, with_fp.
    cbn -[Z.mul Z.add slice s32 u32 Z.of_nat overwrite].
    rewrite Ha. unfold fseek_cur.
    cbn -[Z.mul Z.add slice s32 u32 Z.of_nat overwrite].
    unfold SEGY_TRACE_HEADER_SIZE in *.
    replace (_ <? 0) with false by (symmetry; apply Z.ltb_ge; lia).
    cbn -[Z.mul Z.add slice s32 u32 Z.of_nat overwrite].
    unfold fwrite. cbn -[Z.mul Z.add slice s32 u32 Z.of_nat overwrite].
    rewrite Hw, Hap.
    replace (Z.of_nat (length buf) <? bsize) with false
      by (symmetry; apply Z.ltb_ge; lia).
    rewrite Z.eqb_refl.
    cbn -[Z.mul Z.add slice s32 u32 Z.of_nat overwrite].
    eexists. split; [reflexivity|]. split; [reflexivity|].
    left. repeat split; cbn; assumption.
  - rewrite segy_seek_mapped by (assumption || lia).
    cbn -[Z.mul Z.add slice s32 u32 Z.of_nat overwrite].
    unfold skip_traceheader.
    replace (is_mapped (with_cur h _)) with true by (symmetry; exact Hm).
    cbn -[Z.mul Z.add slice s32 u32 Z.of_nat overwrite is_mapped].
    replace (is_mapped (with_cur _ _)) with true by (symmetry; exact Hm).
    unfold map_write.
    cbn -[Z.mul Z.add slice s32 u32 Z.of_nat overwrite file_length].
    rewrite Ha. unfold SEGY_TRACE_HEADER_SIZE in *.
    replace (0 <=? _) with true by (symmetry; apply Z.leb_le; lia).
    replace (_ <=? fsize h) with true by (symmetry; apply Z.leb_le; lia).
    replace (_ <=? file_length (fp h)) with true by (symmetry; apply Z.leb_le; lia).
    replace (bsize <=? Z.of_nat (length buf)) with true
      by (symmetry; apply Z.leb_le; lia).
    cbn -[Z.mul Z.add slice s32 u32 Z.of_nat overwrite file_length].
    eexists. split; [reflexivity|]. split; [reflexivity|].
    right. split; [|exact Ha]. split; [exact Hm|].
    cbn -[Z.mul Z.add slice s32 u32 Z.of_nat overwrite].
    unfold file_length in *.
    cbn -[Z.mul Z.add slice s32 u32 Z.of_nat overwrite].
    rewrite overwrite_length by lia. split; assumption.
Qed.

Lemma segy_write_traceheader_updatable (h : segy_file) (trace0 bsize i : Z)
  (buf : list byte) :
  updatable h ->
  trace_in_range (file_length (fp h)) trace0 bsize i ->
  SEGY_TRACE_HEADER_SIZE <= Z.of_nat (length buf) ->
  exists h',
    segy_write_traceheader h i buf trace0 bsize = Some (SEGY_OK, h') /\
    contents (fp h') =
      overwrite (contents (fp h)) (trace_pos trace0 bsize i)
        (slice buf 0 SEGY_TRACE_HEADER_SIZE) /\
    updatable h'.
Proof.
  intros Hu Hin Hlen.
  destruct (trace_pos_in_range _ _ _ _ Hin) as (Ep & Hp0 & Hp1).
  assert (Hb : 0 <= bsize) by (destruct Hin as (_ & ? & _); assumption).
  assert (Hsl : Z.of_nat (length (slice buf 0 240)) = 240)
    by (apply slice_length; unfold SEGY_TRACE_HEADER_SIZE in *; lia).
  unfold trace_pos in *. unfold segy_write_traceheader.
  destruct Hu as [([Ha Hr] & Hw & Hap)|((Hm & Hs & Hlim) & Ha)].
  - rewrite segy_seek_buffered by (assumption || lia).
    cbn -[Z.mul Z.add slice s32 u32 Z.of_nat overwrite].
    unfold is_mapped, with_fp.
    cbn -[Z.mul Z.add slice s32 u32 Z.of_nat overwrite].
    rewrite Ha.
    unfold fwrite. cbn -[Z.mul Z.add slice s32 u32 Z.of_nat overwrite].
    rewrite Hw, Hap. unfold SEGY_TRACE_HEADER_SIZE in *.
    replace (Z.of_nat (length buf) <? 240) with false
      by (symmetry; apply Z.ltb_ge; lia).
    cbn -[Z.mul Z.add slice s32 u32 Z.of_nat overwrite].
    eexists. split; [reflexivity|]. split; [reflexivity|].
    left. repeat split; cbn; assumption.
  - rewrite segy_seek_mapped by (assumption || lia).
    cbn -[Z.mul Z.add slice s32 u32 Z.of_nat overwrite].
    replace (is_mapped (with_cur h _)) with true by (symmetry; exact Hm).
    unfold map_write.
    cbn -[Z.mul Z.add slice s32 u32 Z.of_nat overwrite file_length].
    rewrite Ha. unfold SEGY_TRACE_HEADER_SIZE in *.
    replace (0 <=? _) with true by (symmetry; apply Z.leb_le; lia).
    replace (_ <=? fsize h) with true by (symmetry; apply Z.leb_le; lia).
    replace (_ <=? file_length (fp h)) with true by (symmetry; apply Z.leb_le; lia).
    replace (240 <=? Z.of_nat (length buf)) with true
      by (symmetry; apply Z.leb_le; lia).
    cbn -[Z.mul Z.add slice s32 u32 Z.of_nat overwrite file_length].
    eexists. split; [reflexivity|]. split; [reflexivity|].
    right. split; [|exact Ha]. split; [exact Hm|].
    cbn -[Z.mul Z.add slice s32 u32 Z.of_nat overwrite].
    unfold file_length in *.
    cbn -[Z.mul Z.add slice s32 u32 Z.of_nat overwrite].
    rewrite overwrite_length by lia. split; assumption.
Qed.

Lemma readtrace_then (h : segy_file) (c : list byte) (trace0 bsize i : Z) :
  opened h -> contents (fp h) = c ->
  trace_in_range (Z.of_nat (length c)) trace0 bsize i ->
  exists h',
    segy_readtrace h i trace0 bsize
      = Some (SEGY_OK, h', samples_at c trace0 bsize i).
Proof.
  intros Ho Hc Hin.
  destruct (Lines.readtrace_opened h c trace0 bsize i Ho Hc Hin) as (h' & E & _).
  exists h'. exact E.
Qed.

Lemma traceheader_then (h : segy_file) (c : list byte) (trace0 bsize i : Z) :
  opened h -> contents (fp h) = c ->
  trace_in_range (Z.of_nat (length c)) trace0 bsize i ->
  exists h',
    segy_traceheader h i trace0 bsize
      = Some (SEGY_OK, h', header_at c trace0 bsize i).
Proof.
  intros Ho Hc Hin.
  destruct (GeometryFacts.traceheader_opened h c trace0 bsize i Ho Hc Hin)
    as (h' & E & _).
  exists h'. exact E.
Qed.

(** Two traces in range do not overlap. *)
Lemma trace_pos_apart (len trace0 bsize i j : Z) :
  trace_in_range len trace0 bsize i -> trace_in_range len trace0 bsize j ->
  i <> j ->
  trace_pos trace0 bsize j + SEGY_TRACE_HEADER_SIZE + bsize
    <= trace_pos trace0 bsize i \/
  trace_pos trace0 bsize i + SEGY_TRACE_HEADER_SIZE + bsize
    <= trace_pos trace0 bsize j.
Proof.
  intros Hi Hj Hne.
  destruct (trace_pos_in_range _ _ _ _ Hi) as (Ei & _).
  destruct (trace_pos_in_range _ _ _ _ Hj) as (Ej & _).
  rewrite Ei, Ej. unfold SEGY_TRACE_HEADER_SIZE.
  destruct Hi as (_ & Hb & _).
  assert (Hc : j < i \/ i < j) by lia. destruct Hc; [left | right]; nia.
Qed.

End WriteFacts.

Module WriteRead.
Import File Layout GeometrySpec Update ReadFacts BufferFacts WriteFacts.
Import Example ExampleTraces.

Lemma open_rw_is_segy_open (disk : list byte) :
  segy_open disk "r+b" = Some (open_rw disk).
Proof. reflexivity. Qed.

Lemma open_rw_updatable (disk : list byte) : updatable (open_rw disk).
Proof. left. repeat split. Qed.

Lemma mmap_rw_updatable :
  fst (segy_mmap (open_rw inline_file)) = SEGY_OK /\
  updatable (snd (segy_mmap (open_rw inline_file))).
Proof.
  split; [vm_compute; reflexivity|]. right. split; [|vm_compute; reflexivity].
  unfold mapped. split; [vm_compute; reflexivity|].
  split; vm_compute; reflexivity.
Qed.

Lemma inline_file_in_range (h : segy_file) (i : Z) :
  contents (fp h) = inline_file -> 0 <= i < 4 ->
  trace_in_range (file_length (fp h)) 0 4 i.
Proof.
  intros Hc Hi. unfold trace_in_range, SEGY_TRACE_HEADER_SIZE, file_length.
  rewrite Hc.
  replace (Z.of_nat (length inline_file)) with 976 by (vm_compute; reflexivity).
  lia.
Qed.

(** X11: through a handle open for update, stream or writable mapping,
    [segy_writetrace] of a trace in range returns SEGY_OK; [segy_readtrace]
    of that trace then returns the samples written; the file keeps its
    length, every trace header stays as it was and so do the samples of
    every other trace. *)
Theorem segy_writetrace_then_readtrace (h : segy_file) (trace0 bsize i : Z)
  (buf : list byte) :
  updatable h ->
  trace_in_range (file_length (fp h)) trace0 bsize i ->
  Z.of_nat (length buf) = bsize ->
  exists h',
    segy_writetrace h i buf trace0 bsize = Some (SEGY_OK, h') /\
    (exists h'', segy_readtrace h' i trace0 bsize = Some (SEGY_OK, h'', buf)) /\
    file_length (fp h') = file_length (fp h) /\
    forall j, trace_in_range (file_length (fp h)) trace0 bsize j ->
      header_at (contents (fp h')) trace0 bsize j
        = header_at (contents (fp h)) trace0 bsize j /\
      (j <> i ->
       samples_at (contents (fp h')) trace0 bsize j
         = samples_at (contents (fp h)) trace0 bsize j).
Proof.
  intros Hu Hin Hlen.
  destruct (segy_writetrace_updatable h trace0 bsize i buf Hu Hin ltac:(lia))
    as (h' & Ew & Ec & Hu').
  destruct (trace_pos_in_range _ _ _ _ Hin) as (Ep & Hp0 & Hp1).
  assert (Hb : 0 <= bsize) by (destruct Hin as (_ & ? & _); assumption).
  assert (Es : slice buf 0 bsize = buf) by (rewrite <- Hlen; apply slice_all).
  rewrite Es in Ec.
  unfold file_length, SEGY_TRACE_HEADER_SIZE in *.
  assert (El : length (contents (fp h')) = length (contents (fp h))).
  { rewrite Ec. apply overwrite_length; lia. }
  exists h'. split; [exact Ew|]. split; [|split].
  - destruct (readtrace_then h' (contents (fp h')) trace0 bsize i)
      as (h'' & Er); [apply updatable_opened; exact Hu' | reflexivity | |].
    { rewrite El. exact Hin. }
    exists h''. rewrite Er. do 2 f_equal.
    unfold samples_at, SEGY_TRACE_HEADER_SIZE. rewrite Ec.
    pose proof (slice_overwrite_same (contents (fp h))
                  buf (trace_pos trace0 bsize i + 240)) as Hs.
    rewrite Hlen in Hs. apply Hs; lia.
  - rewrite El. reflexivity.
  - intros j Hj. destruct (trace_pos_in_range _ _ _ _ Hj) as (Ej & Hj0 & Hj1).
    split.
    + unfold header_at, SEGY_TRACE_HEADER_SIZE. rewrite Ec.
      apply slice_overwrite_outside; try lia.
      destruct (Z.eq_dec j i) as [->|Hne]; [left; lia|].
      pose proof (trace_pos_apart _ _ _ _ _ Hin Hj ltac:(congruence)) as Ha.
      unfold SEGY_TRACE_HEADER_SIZE in Ha. lia.
    + intros Hne. unfold samples_at, SEGY_TRACE_HEADER_SIZE. rewrite Ec.
      apply slice_overwrite_outside; try lia.
      pose proof (trace_pos_apart _ _ _ _ _ Hin Hj ltac:(congruence)) as Ha.
      unfold SEGY_TRACE_HEADER_SIZE in Ha. lia.
Qed.

Lemma segy_writetrace_then_readtrace_witness :
  let h := snd (segy_mmap (open_rw inline_file)) in
  let buf := [x3f; x80; x00; x00] in
  exists h',
    segy_writetrace h 1 buf 0 4 = Some (SEGY_OK, h') /\
    (exists h'', segy_readtrace h' 1 0 4 = Some (SEGY_OK, h'', buf)) /\
    file_length (fp h') = file_length (fp h) /\
    forall j, trace_in_range (file_length (fp h)) 0 4 j ->
      header_at (contents (fp h')) 0 4 j = header_at (contents (fp h)) 0 4 j /\
      (j <> 1 ->
       samples_at (contents (fp h')) 0 4 j = samples_at (contents (fp h)) 0 4 j).
Proof.
  apply (segy_writetrace_then_readtrace
           (snd (segy_mmap (open_rw inline_file))) 0 4 1 [x3f; x80; x00; x00]).
  - exact (proj2 mmap_rw_updatable).
  - apply inline_file_in_range; [reflexivity | lia].
  - reflexivity.
Defined.

(** X12: through a handle open for update [segy_write_traceheader] of a
    trace in range returns SEGY_OK; [segy_traceheader] of that trace then
    returns the 240 bytes written; the file keeps its length, the samples of
    every trace stay as they were and so does the header of every other
    trace. *)
Theorem segy_write_traceheader_then_read (h : segy_file) (trace0 bsize i : Z)
  (buf : list byte) :
  updatable h ->
  trace_in_range (file_length (fp h)) trace0 bsize i ->
  Z.of_nat (length buf) = SEGY_TRACE_HEADER_SIZE ->
  exists h',
    segy_write_traceheader h i buf trace0 bsize = Some (SEGY_OK, h') /\
    (exists h'', segy_traceheader h' i trace0 bsize = Some (SEGY_OK, h'', buf)) /\
    file_length (fp h') = file_length (fp h) /\
    forall j, trace_in_range (file_length (fp h)) trace0 bsize j ->
      samples_at (contents (fp h')) trace0 bsize j
        = samples_at (contents (fp h)) trace0 bsize j /\
      (j <> i ->
       header_at (contents (fp h')) trace0 bsize j
         = header_at (contents (fp h)) trace0 bsize j).
Proof.
  intros Hu Hin Hlen.
  destruct (segy_write_traceheader_updatable h trace0 bsize i buf Hu Hin
              ltac:(lia)) as (h' & Ew & Ec & Hu').
  destruct (trace_pos_in_range _ _ _ _ Hin) as (Ep & Hp0 & Hp1).
  assert (Hb : 0 <= bsize) by (destruct Hin as (_ & ? & _); assumption).
  assert (Es : slice buf 0 SEGY_TRACE_HEADER_SIZE = buf)
    by (rewrite <- Hlen; apply slice_all).
  rewrite Es in Ec.
  unfold file_length, SEGY_TRACE_HEADER_SIZE in *.
  assert (El : length (contents (fp h')) = length (contents (fp h))).
  { rewrite Ec. apply overwrite_length; lia. }
  exists h'. split; [exact Ew|]. split; [|split].
  - destruct (traceheader_then h' (contents (fp h')) trace0 bsize i)
      as (h'' & Er); [apply updatable_opened; exact Hu' | reflexivity | |].
    { rewrite El. exact Hin. }
    exists h''. rewrite Er. do 2 f_equal.
    unfold header_at, SEGY_TRACE_HEADER_SIZE. rewrite Ec.
    pose proof (slice_overwrite_same (contents (fp h))
                  buf (trace_pos trace0 bsize i)) as Hs.
    rewrite Hlen in Hs. apply Hs; lia.
  - rewrite El. reflexivity.
  - intros j Hj. destruct (trace_pos_in_range _ _ _ _ Hj) as (Ej & Hj0 & Hj1).
    split.
    + unfold samples_at, SEGY_TRACE_HEADER_SIZE. rewrite Ec.
      apply slice_overwrite_outside; try lia.
      destruct (Z.eq_dec j i) as [->|Hne]; [right; lia|].
      pose proof (trace_pos_apart _ _ _ _ _ Hin Hj ltac:(congruence)) as Ha.
      unfold SEGY_TRACE_HEADER_SIZE in Ha. lia.
    + intros Hne. unfold header_at, SEGY_TRACE_HEADER_SIZE. rewrite Ec.
      apply slice_overwrite_outside; try lia.
      pose proof (trace_pos_apart _ _ _ _ _ Hin Hj ltac:(congruence)) as Ha.
      unfold SEGY_TRACE_HEADER_SIZE in Ha. lia.
Qed.

Lemma segy_write_traceheader_then_read_witness :
  let h := open_rw inline_file in
  let buf := trace_header 0 4000 7 9 in
  exists h',
    segy_write_traceheader h 2 buf 0 4 = Some (SEGY_OK, h') /\
    (exists h'', segy_traceheader h' 2 0 4 = Some (SEGY_OK, h'', buf)) /\
    file_length (fp h') = file_length (fp h) /\
    forall j, trace_in_range (file_length (fp h)) 0 4 j ->
      samples_at (contents (fp h')) 0 4 j = samples_at (contents (fp h)) 0 4 j /\
      (j <> 2 ->
       header_at (contents (fp h')) 0 4 j = header_at (contents (fp h)) 0 4 j).
Proof.
  apply (segy_write_traceheader_then_read
           (open_rw inline_file) 0 4 2 (trace_header 0 4000 7 9)).
  - apply open_rw_updatable.
  - apply inline_file_in_range; [reflexivity | lia].
  - reflexivity.
Defined.

End WriteRead.

(** ** The two file headers, written and read back *)

Module HeaderRoundTrip.
Import File Codec CodecFacts BufferFacts ReadFacts WriteFacts.

Lemma overwrite_at_start (c data : list byte) :
  overwrite c 0 data = data ++ skipn (length data) c.
Proof. unfold overwrite. reflexivity. Qed.

Lemma slice_prefix (data rest : list byte) :
  slice (data ++ rest) 0 (Z.of_nat (length data)) = data.
Proof.
  unfold slice. rewrite Nat2Z.id. simpl skipn.
  rewrite firstn_app, Nat.sub_diag, firstn_all. simpl. apply app_nil_r.
Qed.

(** X13: on a stream open for reading and for writing in place that holds
    the two headers, [segy_write_binheader] returns SEGY_OK and replaces
    bytes 3200 to 3599 by the 400 bytes given, leaving the rest of the file
    as it was; [segy_binheader] then returns those 400 bytes. *)
Theorem segy_write_binheader_then_read (h : segy_file) (buf : list byte) :
  readable (fp h) = true -> writable (fp h) = true -> append (fp h) = false ->
  SEGY_TEXT_HEADER_SIZE + SEGY_BINARY_HEADER_SIZE <= file_length (fp h) ->
  Z.of_nat (length buf) = SEGY_BINARY_HEADER_SIZE ->
  exists h',
    segy_write_binheader h buf = Some (SEGY_OK, h') /\
    contents (fp h') =
      firstn 3200 (contents (fp h)) ++ buf ++ skipn 3600 (contents (fp h)) /\
    exists h'', segy_binheader h' = (SEGY_OK, h'', buf).
Proof.
  unfold SEGY_TEXT_HEADER_SIZE, SEGY_BINARY_HEADER_SIZE, file_length.
  intros Hr Hw Ha Hlen Hb.
  assert (Es : slice buf 0 400 = buf) by (rewrite <- Hb; apply slice_all).
  unfold segy_write_binheader, SEGY_TEXT_HEADER_SIZE, SEGY_BINARY_HEADER_SIZE.
  unfold fseek_set. cbn -[slice overwrite Z.of_nat].
  unfold fwrite. cbn -[slice overwrite Z.of_nat]. rewrite Hw, Ha.
  replace (Z.of_nat (length buf) <? 400) with false
    by (symmetry; apply Z.ltb_ge; lia).
  cbn -[slice overwrite Z.of_nat]. rewrite Es.
  assert (Eo : overwrite (contents (fp h)) 3200 buf =
               firstn 3200 (contents (fp h)) ++ buf ++ skipn 3600 (contents (fp h))).
  { rewrite overwrite_inside by lia.
    replace (Z.to_nat 3200 + length buf)%nat with 3600%nat by lia.
    reflexivity. }
  eexists. split; [reflexivity|].
  cbn -[slice overwrite Z.of_nat]. split; [exact Eo|].
  unfold segy_binheader, SEGY_TEXT_HEADER_SIZE, SEGY_BINARY_HEADER_SIZE.
  unfold fseek_set. cbn -[slice overwrite Z.of_nat].
  unfold fread. cbn -[slice overwrite Z.of_nat]. rewrite Hr.
  pose proof (slice_overwrite_same (contents (fp h)) buf 3200) as Hs.
  rewrite Hb in Hs. rewrite Hs by lia. rewrite Hb.
  cbn -[slice overwrite Z.of_nat].
  eexists. reflexivity.
Qed.

Lemma segy_write_binheader_then_read_witness :
  let h := Example.open_rw (Example.interval_file 4000 0) in
  let buf := Example.binary_header 2000 50 in
  exists h',
    segy_write_binheader h buf = Some (SEGY_OK, h') /\
    contents (fp h') =
      firstn 3200 (contents (fp h)) ++ buf ++ skipn 3600 (contents (fp h)) /\
    exists h'', segy_binheader h' = (SEGY_OK, h'', buf).
Proof.
  apply (segy_write_binheader_then_read
           (Example.open_rw (Example.interval_file 4000 0))
           (Example.binary_header 2000 50));
    try reflexivity.
  vm_compute. intros Hc; discriminate Hc.
Defined.

Lemma firstn_through_zero (n : nat) (e tail : list byte) :
  (length e <= n)%nat ->
  exists post, firstn n (e ++ x00 :: tail) ++ [x00] = e ++ x00 :: post.
Proof.
  intros Hn. rewrite firstn_app, firstn_all2 by exact Hn.
  destruct (n - length e)%nat as [|m] eqn:Em.
  - exists []. simpl. rewrite app_nil_r. reflexivity.
  - exists (firstn m tail ++ [x00]). simpl. rewrite <- app_assoc. reflexivity.
Qed.

(** X14: on a stream open for reading and for writing in place,
    [segy_write_textheader] at position 0 of a zero-terminated text of at
    most 3200 characters returns SEGY_OK and touches the first 3200 bytes of
    the file only; the buffer [segy_read_textheader] then fills starts with
    the same zero-terminated text. *)
Theorem segy_write_textheader_then_read (h : segy_file)
  (text tail mbuf : list byte) :
  readable (fp h) = true -> writable (fp h) = true -> append (fp h) = false ->
  Forall (fun c => c <> x00) text ->
  Z.of_nat (length text) <= SEGY_TEXT_HEADER_SIZE ->
  Z.of_nat (length mbuf) = SEGY_TEXT_HEADER_SIZE + 1 ->
  exists h',
    segy_write_textheader h 0 (text ++ x00 :: tail) mbuf = Some (SEGY_OK, h') /\
    skipn 3200 (contents (fp h')) = skipn 3200 (contents (fp h)) /\
    exists h'' rest,
      segy_read_textheader h' = Some (SEGY_OK, h'', text ++ x00 :: rest).
Proof.
  unfold SEGY_TEXT_HEADER_SIZE. intros Hr Hw Ha Hnz Hk Hm.
  unfold segy_write_textheader, ascii2ebcdic.
  rewrite transcode_stop by exact Hnz.
  set (e := map (lookup a2e) text).
  assert (Le : length e = length text) by (subst e; apply length_map).
  assert (Lz : length (e ++ [x00]) = S (length text))
    by (rewrite length_app, Le; simpl; lia).
  replace (length mbuf <? length (e ++ [x00]))%nat with false
    by (symmetry; apply Nat.ltb_ge; lia).
  cbv zeta. rewrite Z.eqb_refl.
  unfold fseek_set. cbn -[slice overwrite Z.of_nat skipn length app].
  unfold fwrite. cbn -[slice overwrite Z.of_nat skipn length app].
  rewrite Hw, Ha.
  set (m' := (e ++ [x00]) ++ skipn (length (e ++ [x00])) mbuf).
  assert (Lm : length m' = 3201%nat).
  { subst m'. rewrite length_app, length_skipn. lia. }
  unfold SEGY_TEXT_HEADER_SIZE.
  replace (Z.of_nat (length m') <? 3200) with false
    by (symmetry; apply Z.ltb_ge; lia).
  cbn -[slice overwrite Z.of_nat skipn length app].
  set (data := slice m' 0 3200).
  assert (Ld : length data = 3200%nat).
  { apply Nat2Z.inj. subst data. rewrite slice_length by lia. reflexivity. }
  eexists. split; [reflexivity|].
  cbn -[slice overwrite Z.of_nat skipn length app].
  rewrite overwrite_at_start, Ld.
  split.
  { rewrite skipn_app, Ld, Nat.sub_diag. rewrite skipn_all2 by lia.
    reflexivity. }
  unfold segy_read_textheader, SEGY_TEXT_HEADER_SIZE.
  unfold fread. cbn -[slice overwrite Z.of_nat skipn length app].
  rewrite Hr.
  pose proof (slice_prefix data (skipn 3200 (contents (fp h)))) as Hs.
  rewrite Ld in Hs. change (Z.of_nat 3200) with 3200 in Hs. rewrite Hs.
  rewrite Ld. cbn -[slice overwrite Z.of_nat skipn length app].
  destruct (firstn_through_zero 3200 e (skipn (length (e ++ [x00])) mbuf))
    as (post & Ep); [lia|].
  assert (Ed : data ++ [x00] = e ++ x00 :: post).
  { rewrite <- Ep. f_equal. subst data m'. unfold slice. simpl skipn.
    rewrite <- app_assoc. reflexivity. }
  rewrite Ed. unfold ebcdic2ascii.
  rewrite transcode_stop
    by (subst e; apply map_nonzero; [apply a2e_nonzero | exact Hnz]).
  assert (Et : map (lookup e2a) e = text).
  { subst e. rewrite map_map.
    transitivity (map (fun c => c) text);
      [apply map_ext; intros c; apply e2a_a2e | apply map_id]. }
  rewrite Et.
  exists (with_fp
            (with_fp h
               (set_contents (set_fpos (fp h) 0)
                  (data ++ skipn 3200 (contents (fp h))) (0 + 3200)))
            (set_fpos
               (set_fpos
                  (set_contents (set_fpos (fp h) 0)
                     (data ++ skipn 3200 (contents (fp h))) (0 + 3200)) 0)
               (0 + 3200))), post.
  f_equal. f_equal.
  rewrite <- app_assoc. f_equal. simpl app. f_equal.
  assert (Ll : length (text ++ [x00]) = (length e + 1)%nat)
    by (rewrite length_app, Le; reflexivity).
  rewrite Ll.
  change (e ++ x00 :: post) with (e ++ [x00] ++ post).
  rewrite app_assoc.
  rewrite skipn_app.
  replace (length e + 1 - length (e ++ [x00]))%nat with 0%nat
    by (rewrite length_app; simpl; lia).
  rewrite skipn_all2 by (rewrite length_app; simpl; lia).
  reflexivity.
Qed.

Lemma segy_write_textheader_then_read_witness :
  let h := Example.open_rw (Example.interval_file 4000 0) in
  exists h',
    segy_write_textheader h 0 ([x43; x30; x31] ++ x00 :: []) (repeat xff 3201)
      = Some (SEGY_OK, h') /\
    skipn 3200 (contents (fp h')) = skipn 3200 (contents (fp h)) /\
    exists h'' rest,
      segy_read_textheader h' = Some (SEGY_OK, h'', [x43; x30; x31] ++ x00 :: rest).
Proof.
  apply (segy_write_textheader_then_read
           (Example.open_rw (Example.interval_file 4000 0))
           [x43; x30; x31] [] (repeat xff 3201));
    try reflexivity.
  - repeat constructor; discriminate.
  - vm_compute. intros Hc; discriminate Hc.
Defined.

End HeaderRoundTrip.

(** ** The end of the file *)

Module Boundaries.
Import File Field Layout GeometrySpec ReadFacts WriteFacts.

Lemma same_store_opened (h h' : segy_file) :
  same_store h h' -> opened h -> opened h'.
Proof.
  unfold same_store, opened, buffered, mapped, is_mapped, file_length.
  intros (Ha & Hs & Hc & Hr) [[Hn Hrd]|(Hm & Hf & Hl)].
  - left. split; congruence.
  - right. rewrite <- Ha, <- Hs, <- Hc. repeat split; assumption.
Qed.

Lemma whole_traces_in_range_len (c : list byte) (trace0 bsize T i : Z) :
  whole_traces (Z.of_nat (length c)) trace0 bsize T -> 0 <= i < T ->
  trace_in_range (Z.of_nat (length c)) trace0 bsize i.
Proof. apply GeometryFacts.whole_traces_in_range. Qed.



(** X16: when the first trace starts inside the file, [segy_traces] returns
    SEGY_OK with a count [n] exactly when the file consists of [n] whole
    traces after [trace0]; for every other file length it returns
    SEGY_TRACE_SIZE_MISMATCH. *)
Theorem segy_traces_whole_or_mismatch (h : segy_file) (trace0 bsize : Z) :
  0 <= trace0 <= file_length (fp h) -> file_length (fp h) < 2 ^ 63 ->
  0 <= bsize -> bsize + SEGY_TRACE_HEADER_SIZE < 2 ^ 32 ->
  (forall n, segy_traces h trace0 bsize = Some (SEGY_OK, n) <->
             0 <= n /\
             file_length (fp h) = trace0 + n * (bsize + SEGY_TRACE_HEADER_SIZE)) /\
  ((exists n, segy_traces h trace0 bsize = Some (SEGY_OK, n)) \/
   segy_traces h trace0 bsize = Some (SEGY_TRACE_SIZE_MISMATCH, 0)).
Proof.
  unfold SEGY_TRACE_HEADER_SIZE. intros H0 Hlim Hb Hw.
  unfold segy_traces, SEGY_TRACE_HEADER_SIZE.
  rewrite u32_small by lia. unfold u64.
  set (len := file_length (fp h)) in *.
  rewrite (Z.mod_small (len - trace0)) by lia.
  replace (bsize + 240 =? 0) with false by (symmetry; apply Z.eqb_neq; lia).
  destruct (Z.eqb_spec ((len - trace0) mod (bsize + 240)) 0) as [Em|Em];
    cbn [negb].
  - split; [|left; eexists; reflexivity].
    intros n. split.
    + intros H. injection H as <-.
      split; [apply Z.div_pos; lia|].
      pose proof (Z.div_mod (len - trace0) (bsize + 240) ltac:(lia)). lia.
    + intros [Hn El]. do 2 f_equal.
      replace (len - trace0) with (n * (bsize + 240)) by lia.
      apply Z.div_mul. lia.
  - split; [|right; reflexivity].
    intros n. split; [discriminate|].
    intros [Hn El]. exfalso. apply Em.
    replace (len - trace0) with (n * (bsize + 240)) by lia.
    apply Z.mod_mul. lia.
Qed.

Lemma segy_traces_whole_or_mismatch_witness :
  let h := Example.open_rb ExampleTraces.inline_file in
  (forall n, segy_traces h 0 4 = Some (SEGY_OK, n) <->
             0 <= n /\
             file_length (fp h) = 0 + n * (4 + SEGY_TRACE_HEADER_SIZE)) /\
  ((exists n, segy_traces h 0 4 = Some (SEGY_OK, n)) \/
   segy_traces h 0 4 = Some (SEGY_TRACE_SIZE_MISMATCH, 0)).
Proof.
  apply (segy_traces_whole_or_mismatch
           (Example.open_rb ExampleTraces.inline_file) 0 4).
  - replace (file_length (fp (Example.open_rb ExampleTraces.inline_file)))
      with 976 by (vm_compute; reflexivity).
    lia.
  - replace (file_length (fp (Example.open_rb ExampleTraces.inline_file)))
      with 976 by (vm_compute; reflexivity).
    lia.
  - lia.
  - unfold SEGY_TRACE_HEADER_SIZE. lia.
Defined.

End Boundaries.

(** ** Offsets, line counts and line numbers of a file of whole traces *)

Module CubeFacts.
Import File Field Geometry Layout GeometrySpec ReadFacts GeometryFacts Cube.

Section WithFile.

Variable field_size : Z -> Z.
Variable c : list byte.
Variables trace0 bsize T : Z.

Hypothesis Hfile : whole_traces (Z.of_nat (length c)) trace0 bsize T.

Let at_ := field_at field_size c trace0 bsize.

Lemma T_range : 0 <= T < 2 ^ 31.
Proof. destruct Hfile as (_ & _ & _ & H & _). exact H. Qed.

(** Reading the header of a trace of the file, and a field of it. *)
Lemma header_of_trace (h : segy_file) (j : Z) :
  opened h -> contents (fp h) = c -> 0 <= j < T ->
  exists h',
    segy_traceheader h j trace0 bsize
      = Some (SEGY_OK, h', header_at c trace0 bsize j) /\
    opened h' /\ contents (fp h') = c /\
    forall f, valid_field field_size f ->
      segy_get_field field_size (header_at c trace0 bsize j) f
        = FieldValue (at_ f j).
Proof.
  intros Ho Hc Hj.
  assert (Hin : trace_in_range (Z.of_nat (length c)) trace0 bsize j)
    by (apply (whole_traces_in_range _ _ _ T); assumption).
  destruct (traceheader_opened h c trace0 bsize j Ho Hc Hin) as (h' & E & Ho' & Hc').
  exists h'. repeat split; try assumption.
  intros f Hf. apply get_field_valid; [exact Hf | apply header_at_length; exact Hin].
Qed.

Lemma valid_field_nonzero (f : Z) :
  valid_field field_size f -> (field_size f =? 0) = false.
Proof. intros (_ & [E|E] & _); rewrite E; reflexivity. Qed.

Section Offsets.

Variables il xl : Z.
Hypothesis Hil : valid_field field_size il.
Hypothesis Hxl : valid_field field_size xl.

Let same (j : Z) : Prop := at_ il j = at_ il 0 /\ at_ xl j = at_ xl 0.

Lemma offsets_loop_run (m : nat) :
  forall (fuel : nat) (h : segy_file) (o : Z),
    Z.of_nat m = T - (o + 1) -> (m < fuel)%nat -> 0 <= o ->
    opened h -> contents (fp h) = c ->
    (forall j, 0 <= j <= o -> same j) ->
    exists h' n,
      offsets_loop field_size fuel h il xl (at_ il 0) (at_ xl 0) T o
        trace0 bsize = Finished (Some (SEGY_OK, h', n)) /\
      o < n <= T /\ (forall j, 0 <= j < n -> same j) /\ (n < T -> ~ same n).
Proof.
  pose proof T_range as HT.
  induction m as [|m IH]; intros fuel h o Hm Hfuel Ho0 Ho Hc Hrun;
    (destruct fuel as [|fuel]; [lia|]); cbn [offsets_loop]; cbv zeta;
    rewrite (u32_small (o + 1)) by lia.
  - replace (o + 1 =? T) with true by (symmetry; apply Z.eqb_eq; lia).
    exists h, (o + 1). split; [reflexivity|]. split; [lia|].
    split; [intros j Hj; apply Hrun; lia | lia].
  - replace (o + 1 =? T) with false by (symmetry; apply Z.eqb_neq; lia).
    destruct (header_of_trace h (o + 1) Ho Hc ltac:(lia))
      as (h' & E & Ho' & Hc' & Hf).
    rewrite E. cbn [negb segy_error_eqb].
    rewrite (Hf il Hil), (Hf xl Hxl).
    destruct (Z.eqb_spec (at_ il 0) (at_ il (o + 1))) as [Ei|Ei];
      [destruct (Z.eqb_spec (at_ xl 0) (at_ xl (o + 1))) as [Ex|Ex]|];
      cbn [andb].
    + destruct (IH fuel h' (o + 1) ltac:(lia) ltac:(lia) ltac:(lia) Ho' Hc')
        as (h'' & n & En & Hn & Hall & Hstop).
      { intros j Hj. destruct (Z.eq_dec j (o + 1)) as [->|Hne].
        - split; symmetry; assumption.
        - apply Hrun. lia. }
      exists h'', n. split; [exact En|]. split; [lia|]. split; assumption.
    + exists h', (o + 1). split; [reflexivity|]. split; [lia|].
      split; [intros j Hj; apply Hrun; lia|].
      intros _ [_ Hx]. apply Ex. symmetry. exact Hx.
    + exists h', (o + 1). split; [reflexivity|]. split; [lia|].
      split; [intros j Hj; apply Hrun; lia|].
      intros _ [Hi _]. apply Ei. symmetry. exact Hi.
Qed.

End Offsets.

Section Indices.

Variable f : Z.
Hypothesis Hf : valid_field field_size f.

Lemma offset_indices_loop_run (n : nat) :
  forall (h : segy_file) (i x : Z) (out : list Z),
    opened h -> contents (fp h) = c -> 0 <= i -> i + Z.of_nat n <= T ->
    exists h',
      offset_indices_loop field_size n h f i x out trace0 bsize =
        Some (SEGY_OK, h',
              out ++ map (fun k => at_ f (i + Z.of_nat k)) (seq 0 n)).
Proof.
  induction n as [|n IH]; intros h i x out Ho Hc Hi Hn; cbn [offset_indices_loop].
  - exists h. simpl. rewrite app_nil_r. reflexivity.
  - destruct (header_of_trace h i Ho Hc ltac:(lia)) as (h' & E & Ho' & Hc' & Hv).
    rewrite E. cbn [negb segy_error_eqb]. rewrite (Hv f Hf).
    destruct (IH h' (i + 1) (at_ f i) (out ++ [at_ f i]) Ho' Hc'
                ltac:(lia) ltac:(lia)) as (h'' & E').
    exists h''. rewrite E'. do 2 f_equal. rewrite <- app_assoc. f_equal.
    change (seq 0 (S n)) with (0%nat :: seq 1 n).
    rewrite <- seq_shift, map_cons, map_map. cbn [app].
    replace (i + Z.of_nat 0) with i by lia. f_equal.
    apply map_ext. intros k. f_equal. lia.
Qed.

Lemma store_at_inside (buf : list Z) (k : nat) (v : Z) :
  (k < length buf)%nat ->
  store_at buf k v = Some (firstn k buf ++ v :: skipn (S k) buf).
Proof.
  intros Hk. unfold store_at.
  destruct (Nat.ltb_spec k (length buf)); [reflexivity | lia].
Qed.

Lemma line_indices_loop_run (stride : Z) (n : nat) :
  forall (h : segy_file) (t : Z) (buf : list Z) (k : nat),
    opened h -> contents (fp h) = c -> 0 <= stride ->
    (forall m, (m < n)%nat -> 0 <= t + Z.of_nat m * stride < T) ->
    (k + n <= length buf)%nat ->
    exists h',
      line_indices_loop field_size n h f t stride buf k trace0 bsize =
        Some (SEGY_OK, h',
              firstn k buf
              ++ map (fun m => u32 (at_ f (t + Z.of_nat m * stride))) (seq 0 n)
              ++ skipn (k + n) buf).
Proof.
  pose proof T_range as HT.
  induction n as [|n IH]; intros h t buf k Ho Hc Hs Hin Hlen;
    cbn [line_indices_loop].
  - exists h. simpl. rewrite Nat.add_0_r, firstn_skipn. reflexivity.
  - pose proof (Hin 0%nat ltac:(lia)) as H0.
    replace (t + Z.of_nat 0 * stride) with t in H0 by lia.
    destruct (header_of_trace h t Ho Hc H0) as (h' & E & Ho' & Hc' & Hv).
    rewrite E. cbn [negb segy_error_eqb]. rewrite (Hv f Hf).
    rewrite store_at_inside by lia.
    set (buf1 := firstn k buf ++ u32 (at_ f t) :: skipn (S k) buf).
    assert (L1 : length buf1 = length buf).
    { subst buf1. rewrite length_app, length_firstn. cbn [length].
      rewrite length_skipn. lia. }
    assert (F1 : firstn (S k) buf1 = firstn k buf ++ [u32 (at_ f t)]).
    { subst buf1.
      assert (Lk : length (firstn k buf) = k) by (rewrite length_firstn; lia).
      rewrite firstn_app, Lk, (firstn_all2 (firstn k buf)) by lia.
      replace (S k - k)%nat with 1%nat by lia. reflexivity. }
    assert (S1 : skipn (S k + n) buf1 = skipn (k + S n) buf).
    { subst buf1.
      assert (Lk : length (firstn k buf) = k) by (rewrite length_firstn; lia).
      rewrite skipn_app, Lk, (skipn_all2 (firstn k buf)) by lia.
      replace (S k + n - k)%nat with (S n) by lia. cbn [app].
      rewrite skipn_cons, skipn_skipn. f_equal. lia. }
    destruct n as [|n].
    + cbn [line_indices_loop]. exists h'. do 2 f_equal.
      cbn [seq map app]. replace (t + Z.of_nat 0 * stride) with t by lia.
      subst buf1. rewrite <- S1. cbn [app].
      replace (S k + 0)%nat with (S k) by lia.
      assert (Lk : length (firstn k buf) = k) by (rewrite length_firstn; lia).
      rewrite skipn_app, Lk, (skipn_all2 (firstn k buf)) by lia.
      replace (S k - k)%nat with 1%nat by lia. reflexivity.
    + pose proof (Hin 1%nat ltac:(lia)) as H1.
      replace (t + Z.of_nat 1 * stride) with (t + stride) in H1 by lia.
      rewrite (u32_small (t + stride)) by lia.
      destruct (IH h' (t + stride) buf1 (S k) Ho' Hc' Hs) as (h'' & E').
      { intros m Hm. specialize (Hin (S m) ltac:(lia)).
        replace (t + stride + Z.of_nat m * stride)
          with (t + Z.of_nat (S m) * stride) by lia.
        exact Hin. }
      { lia. }
      exists h''. rewrite E'. do 2 f_equal.
      rewrite F1, S1, <- app_assoc. f_equal.
      change (seq 0 (S (S n))) with (0%nat :: seq 1 (S n)).
      rewrite <- seq_shift, map_cons, map_map. cbn [app].
      replace (t + Z.of_nat 0 * stride) with t by lia. f_equal. f_equal.
      apply map_ext. intros m. do 2 f_equal. lia.
Qed.

(** [segy_line_indices] from trace 0. *)
Lemma segy_line_indices_run (h : segy_file) (stride n : Z) (buf : list Z) :
  opened h -> contents (fp h) = c -> 0 <= stride -> 0 <= n ->
  (forall m, 0 <= m < n -> m * stride < T) ->
  n <= Z.of_nat (length buf) ->
  exists h',
    segy_line_indices field_size h f 0 stride n buf trace0 bsize =
      Some (SEGY_OK, h',
            map (fun m => u32 (at_ f (Z.of_nat m * stride))) (seq 0 (Z.to_nat n))
            ++ skipn (Z.to_nat n) buf).
Proof.
  intros Ho Hc Hs Hn Hin Hlen. unfold segy_line_indices.
  rewrite (valid_field_nonzero f Hf).
  destruct (line_indices_loop_run stride (Z.to_nat n) h 0 buf 0 Ho Hc Hs)
    as (h' & E).
  - intros m Hm. specialize (Hin (Z.of_nat m) ltac:(lia)). nia.
  - lia.
  - exists h'. rewrite E. reflexivity.
Qed.

End Indices.

Section Lines.

Variables f o : Z.
Hypothesis Hf : valid_field field_size f.
Hypothesis Hoff : valid_field field_size offset.
Hypothesis Ho1 : 1 <= o.

(** Trace [j * o] carries the line number and the offset of trace 0. *)
Let repeats (j : Z) : Prop :=
  at_ offset (j * o) = at_ offset 0 /\ at_ f (j * o) = at_ f 0.

(** The loop of [count_lines] passes every trace that does not repeat
    trace 0. *)
Lemma count_lines_loop_advance (k : Z) (m : nat) :
  forall (fuel : nat) (h : segy_file) (j : Z),
    Z.of_nat m = k - j -> 1 <= j -> k * o < 2 ^ 31 ->
    opened h -> contents (fp h) = c ->
    (forall j', j <= j' < k -> j' * o < T /\ ~ repeats j') ->
    exists h',
      opened h' /\ contents (fp h') = c /\
      count_lines_loop field_size (m + fuel) h f o (at_ f 0) (at_ offset 0)
        (j * o) j trace0 bsize =
      count_lines_loop field_size fuel h' f o (at_ f 0) (at_ offset 0)
        (k * o) k trace0 bsize.
Proof.
  induction m as [|m IH]; intros fuel h j Hm Hj Hk Ho Hc Hpass.
  - assert (j = k) by lia. subst j. exists h. repeat split; assumption.
  - destruct (Hpass j ltac:(lia)) as [Hin Hno].
    destruct (header_of_trace h (j * o) Ho Hc ltac:(nia))
      as (h' & E & Ho' & Hc' & Hv).
    destruct (IH fuel h' (j + 1) ltac:(lia) ltac:(lia) Hk Ho' Hc')
      as (h'' & Ho'' & Hc'' & E').
    { intros j' Hj'. apply Hpass. lia. }
    exists h''. split; [exact Ho''|]. split; [exact Hc''|].
    rewrite <- E'. cbn [Nat.add count_lines_loop]. rewrite E.
    cbn [negb segy_error_eqb].
    rewrite (Hv f Hf). change 37 with offset. rewrite (Hv offset Hoff).
    replace ((at_ offset 0 =? at_ offset (j * o)) && (at_ f (j * o) =? at_ f 0))
      with false.
    2:{ symmetry. apply Bool.andb_false_iff.
        destruct (Z.eqb_spec (at_ offset 0) (at_ offset (j * o))) as [E1|E1];
          [|left; reflexivity].
        destruct (Z.eqb_spec (at_ f (j * o)) (at_ f 0)) as [E2|E2];
          [|right; reflexivity].
        exfalso. apply Hno. split; [symmetry; exact E1 | exact E2]. }
    rewrite (u32_small (j * o + o)) by nia.
    rewrite (u32_small (j + 1)) by nia.
    replace (j * o + o) with ((j + 1) * o) by lia. reflexivity.
Qed.

(** [count_lines] when trace [k * o] is the first to repeat trace 0. *)
Lemma count_lines_first_repeat (h : segy_file) (k : Z) (fuel : nat) :
  opened h -> contents (fp h) = c ->
  1 <= k -> k * o < T -> repeats k ->
  (forall j, 1 <= j < k -> ~ repeats j) ->
  (Z.to_nat k <= fuel)%nat ->
  exists h',
    count_lines field_size fuel h f o trace0 bsize
      = Finished (Some (SEGY_OK, h', k)) /\
    opened h' /\ contents (fp h') = c.
Proof.
  pose proof T_range as HT.
  intros Ho Hc Hk Hin [Hr1 Hr2] Hno Hfuel. unfold count_lines.
  destruct (header_of_trace h 0 Ho Hc ltac:(nia)) as (h0 & E0 & Ho0 & Hc0 & Hv0).
  rewrite E0. cbn [negb segy_error_eqb].
  rewrite (Hv0 f Hf). change 37 with offset. rewrite (Hv0 offset Hoff).
  destruct (count_lines_loop_advance k (Z.to_nat (k - 1))
              (fuel - Z.to_nat (k - 1)) h0 1 ltac:(lia) ltac:(lia) ltac:(nia)
              Ho0 Hc0) as (h1 & Ho1' & Hc1 & Ea).
  { intros j Hj. split; [nia | apply Hno; lia]. }
  replace (Z.to_nat (k - 1) + (fuel - Z.to_nat (k - 1)))%nat with fuel in Ea
    by lia.
  replace (1 * o) with o in Ea by lia. rewrite Ea.
  destruct (fuel - Z.to_nat (k - 1))%nat as [|fuel'] eqn:Ef; [lia|].
  cbn [count_lines_loop].
  destruct (header_of_trace h1 (k * o) Ho1' Hc1 ltac:(nia))
    as (h2 & E2 & Ho2 & Hc2 & Hv2).
  rewrite E2. cbn [negb segy_error_eqb].
  rewrite (Hv2 f Hf). change 37 with offset. rewrite (Hv2 offset Hoff).
  rewrite Hr1, Hr2, !Z.eqb_refl. cbn [andb].
  exists h2. repeat split; assumption.
Qed.

(** [count_lines] when no trace at a multiple of [o] repeats trace 0. *)
Lemma count_lines_no_repeat (h : segy_file) (fuel : nat) :
  opened h -> contents (fp h) = c ->
  1 <= T -> T + o < 2 ^ 31 ->
  (forall j, 1 <= j -> j * o < T -> ~ repeats j) ->
  (Z.to_nat T <= fuel)%nat ->
  exists err h' n,
    count_lines field_size fuel h f o trace0 bsize
      = Finished (Some (err, h', n)) /\ err <> SEGY_OK.
Proof.
  intros Ho Hc HT1 Hsum Hno Hfuel. unfold count_lines.
  destruct (header_of_trace h 0 Ho Hc ltac:(lia)) as (h0 & E0 & Ho0 & Hc0 & Hv0).
  rewrite E0. cbn [negb segy_error_eqb].
  rewrite (Hv0 f Hf). change 37 with offset. rewrite (Hv0 offset Hoff).
  set (k := (T + o - 1) / o).
  assert (Hk : (k - 1) * o < T /\ T <= k * o /\ 1 <= k).
  { subst k. pose proof (Z.div_mod (T + o - 1) o ltac:(lia)) as Hd.
    pose proof (Z.mod_pos_bound (T + o - 1) o ltac:(lia)) as Hb.
    split; [nia|]. split; nia. }
  destruct (count_lines_loop_advance k (Z.to_nat (k - 1))
              (fuel - Z.to_nat (k - 1)) h0 1 ltac:(lia) ltac:(lia) ltac:(nia)
              Ho0 Hc0) as (h1 & Ho1' & Hc1 & Ea).
  { intros j Hj. assert (j * o < T) by nia. split; [assumption|].
    apply Hno; [lia | assumption]. }
  assert (Hkf : (Z.to_nat (k - 1) < fuel)%nat) by nia.
  replace (Z.to_nat (k - 1) + (fuel - Z.to_nat (k - 1)))%nat with fuel in Ea
    by lia.
  replace (1 * o) with o in Ea by lia. rewrite Ea.
  destruct (fuel - Z.to_nat (k - 1))%nat as [|fuel'] eqn:Ef; [lia|].
  cbn [count_lines_loop].
  destruct (CountLines.traceheader_past_the_end h1 trace0 bsize T (k * o) Ho1')
    as (err & h2 & d & E2 & Hne).
  { unfold file_length. rewrite Hc1. exact Hfile. }
  { nia. }
  rewrite E2.
  destruct err; try contradiction; cbn [negb segy_error_eqb];
    eexists _, _, _; (split; [reflexivity | discriminate]).
Qed.

End Lines.

End WithFile.

Lemma offsets_file_whole :
  whole_traces (Z.of_nat (length ExampleTraces.offsets_file)) 0 4 8.
Proof.
  unfold whole_traces, SEGY_TRACE_HEADER_SIZE.
  replace (Z.of_nat (length ExampleTraces.offsets_file)) with 1952
    by (vm_compute; reflexivity).
  lia.
Qed.

(** One inline of two crosslines. *)
Lemma single_line_whole :
  whole_traces
    (Z.of_nat (length (Example.trace 0 1 10 [x00; x00; x00; x00]
                       ++ Example.trace 0 1 11 [x00; x00; x00; x01])))
    0 4 2.
Proof.
  unfold whole_traces, SEGY_TRACE_HEADER_SIZE.
  replace (Z.of_nat (length (Example.trace 0 1 10 [x00; x00; x00; x00]
                             ++ Example.trace 0 1 11 [x00; x00; x00; x01])))
    with 488 by (vm_compute; reflexivity).
  lia.
Qed.

Lemma open_rb_opened (disk : list byte) : opened (Example.open_rb disk).
Proof. left. split; reflexivity. Qed.

(** X17: on a file of [T >= 1] whole traces [segy_offsets] returns SEGY_OK
    within [T] rounds of its loop, and the count [n] it stores is the length
    of the run of traces at the start of the file that carry the inline and
    crossline numbers of trace 0: traces [0 .. n-1] agree with trace 0 on
    both fields, and trace [n], when there is one, differs. *)
Theorem segy_offsets_first_run (field_size : Z -> Z) (h : segy_file)
  (c : list byte) (il xl trace0 bsize T : Z) (fuel : nat) :
  opened h -> contents (fp h) = c ->
  whole_traces (Z.of_nat (length c)) trace0 bsize T -> 1 <= T ->
  valid_field field_size il -> valid_field field_size xl ->
  (Z.to_nat T <= fuel)%nat ->
  let at_ := field_at field_size c trace0 bsize in
  exists h' n,
    segy_offsets field_size fuel h il xl T trace0 bsize
      = Finished (Some (SEGY_OK, h', n)) /\
    1 <= n <= T /\
    (forall j, 0 <= j < n -> at_ il j = at_ il 0 /\ at_ xl j = at_ xl 0) /\
    (n < T -> ~ (at_ il n = at_ il 0 /\ at_ xl n = at_ xl 0)).
Proof.
  intros Ho Hc Hfile HT Hil Hxl Hfuel at_. unfold segy_offsets.
  destruct (Z.eqb_spec T 1) as [->|H1].
  - exists h, 1. split; [reflexivity|]. split; [lia|].
    split; [|lia]. intros j Hj. assert (j = 0) by lia. subst j. split; reflexivity.
  - rewrite (valid_field_nonzero field_size il Hil),
      (valid_field_nonzero field_size xl Hxl). cbn [orb].
    destruct (header_of_trace field_size c trace0 bsize T Hfile h 0 Ho Hc
                ltac:(lia)) as (h' & E & Ho' & Hc' & Hf).
    rewrite E. cbn [negb segy_error_eqb].
    rewrite (Hf il Hil), (Hf xl Hxl).
    destruct (offsets_loop_run field_size c trace0 bsize T Hfile il xl Hil Hxl
                (Z.to_nat (T - 1)) fuel h' 0 ltac:(lia) ltac:(lia) ltac:(lia)
                Ho' Hc') as (h'' & n & En & Hn & Hall & Hstop).
    { intros j Hj. assert (j = 0) by lia. subst j. split; reflexivity. }
    exists h'', n. split; [exact En|]. split; [lia|]. split; assumption.
Qed.

Lemma segy_offsets_first_run_witness :
  let at_ := field_at Example.field_size ExampleTraces.offsets_file 0 4 in
  exists h' n,
    segy_offsets Example.field_size 8 (Example.open_rb ExampleTraces.offsets_file)
      Example.INLINE_3D Example.CROSSLINE_3D 8 0 4
      = Finished (Some (SEGY_OK, h', n)) /\
    1 <= n <= 8 /\
    (forall j, 0 <= j < n ->
       at_ Example.INLINE_3D j = at_ Example.INLINE_3D 0 /\
       at_ Example.CROSSLINE_3D j = at_ Example.CROSSLINE_3D 0) /\
    (n < 8 ->
     ~ (at_ Example.INLINE_3D n = at_ Example.INLINE_3D 0 /\
        at_ Example.CROSSLINE_3D n = at_ Example.CROSSLINE_3D 0)).
Proof.
  apply (segy_offsets_first_run Example.field_size
           (Example.open_rb ExampleTraces.offsets_file)
           ExampleTraces.offsets_file
           Example.INLINE_3D Example.CROSSLINE_3D 0 4 8 8).
  - apply open_rb_opened.
  - reflexivity.
  - exact offsets_file_whole.
  - lia.
  - exact (proj1 Sorting.example_valid_fields).
  - exact (proj1 (proj2 Sorting.example_valid_fields)).
  - simpl. lia.
Defined.

(** X18: [segy_offset_indices] for a count of at most the number of traces
    returns SEGY_OK and stores the offset field of the traces
    [0 .. offsets-1], in this order. *)
Theorem segy_offset_indices_values (field_size : Z -> Z) (h : segy_file)
  (c : list byte) (offset_field offsets trace0 bsize T : Z) :
  opened h -> contents (fp h) = c ->
  whole_traces (Z.of_nat (length c)) trace0 bsize T ->
  valid_field field_size offset_field -> 0 <= offsets <= T ->
  exists h',
    segy_offset_indices field_size h offset_field offsets trace0 bsize =
      Some (SEGY_OK, h',
            map (fun k => field_at field_size c trace0 bsize offset_field
                            (Z.of_nat k))
              (seq 0 (Z.to_nat offsets))).
Proof.
  intros Ho Hc Hfile Hf Hn. unfold segy_offset_indices.
  rewrite (valid_field_nonzero field_size offset_field Hf).
  destruct (offset_indices_loop_run field_size c trace0 bsize T Hfile
              offset_field Hf (Z.to_nat offsets) h 0 0 [] Ho Hc
              ltac:(lia) ltac:(lia)) as (h' & E).
  exists h'. rewrite E. reflexivity.
Qed.

Lemma segy_offset_indices_values_witness :
  exists h',
    segy_offset_indices Example.field_size
      (Example.open_rb ExampleTraces.offsets_file) offset 2 0 4 =
      Some (SEGY_OK, h',
            map (fun k => field_at Example.field_size ExampleTraces.offsets_file
                            0 4 offset (Z.of_nat k))
              (seq 0 (Z.to_nat 2))).
Proof.
  apply (segy_offset_indices_values Example.field_size
           (Example.open_rb ExampleTraces.offsets_file)
           ExampleTraces.offsets_file offset 2 0 4 8).
  - apply open_rb_opened.
  - reflexivity.
  - exact offsets_file_whole.
  - exact (proj2 (proj2 Sorting.example_valid_fields)).
  - lia.
Defined.

(** X19: [segy_inline_indices] on a file of whole traces returns SEGY_OK
    and fills the first [inline_count] slots of the caller's array with the
    inline number of every [stride]-th trace from trace 0 on, where
    [stride] is [crossline_count * offsets] for an inline sorted file and
    [offsets] for a crossline sorted one; the other slots keep their
    content. *)
Theorem segy_inline_indices_values (field_size : Z -> Z) (h : segy_file)
  (c : list byte) (il : Z) (s : sorting)
  (inline_count crossline_count offsets : Z) (buf : list Z)
  (trace0 bsize T : Z) :
  opened h -> contents (fp h) = c ->
  whole_traces (Z.of_nat (length c)) trace0 bsize T ->
  valid_field field_size il -> s <> UNKNOWN_SORTING ->
  let stride :=
    match s with INLINE_SORTING => crossline_count * offsets | _ => offsets end in
  0 <= stride < 2 ^ 32 ->
  0 <= inline_count <= Z.of_nat (length buf) ->
  (forall m, 0 <= m < inline_count -> m * stride < T) ->
  exists h',
    segy_inline_indices field_size h il s inline_count crossline_count offsets
      buf trace0 bsize =
      Some (SEGY_OK, h',
            map (fun m => u32 (field_at field_size c trace0 bsize il
                                 (Z.of_nat m * stride)))
              (seq 0 (Z.to_nat inline_count))
            ++ skipn (Z.to_nat inline_count) buf).
Proof.
  intros Ho Hc Hfile Hf Hs stride Hst Hn Hin. unfold segy_inline_indices.
  destruct s; [contradiction | |]; subst stride; cbv beta iota in *.
  - apply (segy_line_indices_run field_size c trace0 bsize T Hfile il Hf);
      try assumption; lia.
  - rewrite (segy_traces_whole h trace0 bsize T)
      by (unfold file_length; rewrite Hc; exact Hfile).
    cbn [negb segy_error_eqb]. rewrite u32_small by exact Hst.
    apply (segy_line_indices_run field_size c trace0 bsize T Hfile il Hf);
      try assumption; lia.
Qed.

Lemma segy_inline_indices_values_witness :
  exists h',
    segy_inline_indices Example.field_size
      (Example.open_rb ExampleTraces.offsets_file) Example.INLINE_3D
      INLINE_SORTING 2 2 2 [0; 0; 7] 0 4 =
      Some (SEGY_OK, h',
            map (fun m => u32 (field_at Example.field_size
                                 ExampleTraces.offsets_file 0 4
                                 Example.INLINE_3D (Z.of_nat m * (2 * 2))))
              (seq 0 (Z.to_nat 2))
            ++ skipn (Z.to_nat 2) [0; 0; 7]).
Proof.
  apply (segy_inline_indices_values Example.field_size
           (Example.open_rb ExampleTraces.offsets_file)
           ExampleTraces.offsets_file Example.INLINE_3D INLINE_SORTING
           2 2 2 [0; 0; 7] 0 4 8).
  - apply open_rb_opened.
  - reflexivity.
  - exact offsets_file_whole.
  - exact (proj1 Sorting.example_valid_fields).
  - discriminate.
  - lia.
  - simpl. lia.
  - intros m Hm. lia.
Defined.

(** X20: [segy_crossline_indices] on a file of whole traces returns SEGY_OK
    and fills the first [crossline_count] slots of the caller's array with
    the crossline number of every [stride]-th trace from trace 0 on, where
    [stride] is [offsets] for an inline sorted file and
    [inline_count * offsets] for a crossline sorted one; the other slots
    keep their content. *)
Theorem segy_crossline_indices_values (field_size : Z -> Z) (h : segy_file)
  (c : list byte) (xl : Z) (s : sorting)
  (inline_count crossline_count offsets : Z) (buf : list Z)
  (trace0 bsize T : Z) :
  opened h -> contents (fp h) = c ->
  whole_traces (Z.of_nat (length c)) trace0 bsize T ->
  valid_field field_size xl -> s <> UNKNOWN_SORTING ->
  let stride :=
    match s with INLINE_SORTING => offsets | _ => inline_count * offsets end in
  0 <= stride < 2 ^ 32 ->
  0 <= crossline_count <= Z.of_nat (length buf) ->
  (forall m, 0 <= m < crossline_count -> m * stride < T) ->
  exists h',
    segy_crossline_indices field_size h xl s inline_count crossline_count
      offsets buf trace0 bsize =
      Some (SEGY_OK, h',
            map (fun m => u32 (field_at field_size c trace0 bsize xl
                                 (Z.of_nat m * stride)))
              (seq 0 (Z.to_nat crossline_count))
            ++ skipn (Z.to_nat crossline_count) buf).
Proof.
  intros Ho Hc Hfile Hf Hs stride Hst Hn Hin. unfold segy_crossline_indices.
  destruct s; [contradiction | |]; subst stride; cbv beta iota in *.
  - rewrite (segy_traces_whole h trace0 bsize T)
      by (unfold file_length; rewrite Hc; exact Hfile).
    cbn [negb segy_error_eqb]. rewrite u32_small by exact Hst.
    apply (segy_line_indices_run field_size c trace0 bsize T Hfile xl Hf);
      try assumption; lia.
  - apply (segy_line_indices_run field_size c trace0 bsize T Hfile xl Hf);
      try assumption; lia.
Qed.

Lemma segy_crossline_indices_values_witness :
  exists h',
    segy_crossline_indices Example.field_size
      (Example.open_rb ExampleTraces.offsets_file) Example.CROSSLINE_3D
      INLINE_SORTING 2 2 2 [0; 0; 7] 0 4 =
      Some (SEGY_OK, h',
            map (fun m => u32 (field_at Example.field_size
                                 ExampleTraces.offsets_file 0 4
                                 Example.CROSSLINE_3D (Z.of_nat m * 2)))
              (seq 0 (Z.to_nat 2))
            ++ skipn (Z.to_nat 2) [0; 0; 7]).
Proof.
  apply (segy_crossline_indices_values Example.field_size
           (Example.open_rb ExampleTraces.offsets_file)
           ExampleTraces.offsets_file Example.CROSSLINE_3D INLINE_SORTING
           2 2 2 [0; 0; 7] 0 4 8).
  - apply open_rb_opened.
  - reflexivity.
  - exact offsets_file_whole.
  - exact (proj1 (proj2 Sorting.example_valid_fields)).
  - discriminate.
  - lia.
  - simpl. lia.
  - intros m Hm. lia.
Defined.

(** X21: on a file of whole traces in which, among the traces at the
    multiples of [offsets], trace [k * offsets] is the first to carry the
    line number and the offset of trace 0, [segy_lines_count] returns
    SEGY_OK within [k] rounds; the slow direction gets
    [T / (k * offsets)] lines and the fast one [k]: for an inline sorted
    file [il_count = T / (k * offsets)] and [xl_count = k], for a crossline
    sorted file the other way round. *)
Theorem segy_lines_count_first_repeat (field_size : Z -> Z) (h : segy_file)
  (c : list byte) (il xl : Z) (s : sorting) (offsets trace0 bsize T k : Z)
  (fuel : nat) :
  opened h -> contents (fp h) = c ->
  whole_traces (Z.of_nat (length c)) trace0 bsize T ->
  valid_field field_size il -> valid_field field_size xl ->
  valid_field field_size offset ->
  s <> UNKNOWN_SORTING ->
  let at_ := field_at field_size c trace0 bsize in
  let field := match s with INLINE_SORTING => xl | _ => il end in
  1 <= offsets -> 1 <= k -> k * offsets < T ->
  (at_ offset (k * offsets) = at_ offset 0 /\
   at_ field (k * offsets) = at_ field 0) ->
  (forall j, 1 <= j < k ->
     ~ (at_ offset (j * offsets) = at_ offset 0 /\
        at_ field (j * offsets) = at_ field 0)) ->
  (Z.to_nat k <= fuel)%nat ->
  exists h',
    segy_lines_count field_size fuel h il xl s offsets trace0 bsize =
      Finished (Some (SEGY_OK, h',
                      match s with
                      | INLINE_SORTING => (T / (k * offsets), k)
                      | _ => (k, T / (k * offsets))
                      end)).
Proof.
  intros Ho Hc Hfile Hil Hxl Hoff Hs at_ field Ho1 Hk Hin Hrep Hno Hfuel.
  pose proof (T_range c trace0 bsize T Hfile) as HT.
  assert (Hfield : valid_field field_size field)
    by (subst field; destruct s; assumption).
  assert (Hko : 0 < k * offsets < 2 ^ 31) by nia.
  assert (Hq : 0 <= T / (k * offsets) < 2 ^ 31).
  { split; [apply Z.div_pos; lia|].
    apply Z.div_lt_upper_bound; nia. }
  destruct (count_lines_first_repeat field_size c trace0 bsize T Hfile
              field offsets Hfield Hoff Ho1 h k fuel Ho Hc Hk Hin Hrep Hno Hfuel)
    as (h' & Ec & Ho' & Hc').
  assert (Ecount :
    segy_count_lines field_size fuel h field (u32 offsets) trace0 bsize =
      Finished (Some (SEGY_OK, h', (T / (k * offsets), k)))).
  { unfold segy_count_lines. rewrite (u32_small offsets) by nia.
    rewrite Ec. cbn [negb segy_error_eqb].
    rewrite (segy_traces_whole h' trace0 bsize T)
      by (unfold file_length; rewrite Hc'; exact Hfile).
    cbn [negb segy_error_eqb]. cbv zeta.
    rewrite (u32_small (k * offsets)) by lia.
    replace (k * offsets =? 0) with false by (symmetry; apply Z.eqb_neq; lia).
    rewrite (u32_small (T / (k * offsets))) by lia. reflexivity. }
  exists h'. unfold segy_lines_count.
  destruct s; [contradiction | |]; subst field; cbv beta iota zeta in *;
    rewrite Ecount; cbn [negb segy_error_eqb];
    rewrite !s32_small by lia; reflexivity.
Qed.

Lemma segy_lines_count_first_repeat_witness :
  exists h',
    segy_lines_count Example.field_size 2
      (Example.open_rb ExampleTraces.offsets_file)
      Example.INLINE_3D Example.CROSSLINE_3D INLINE_SORTING 2 0 4 =
      Finished (Some (SEGY_OK, h', (8 / (2 * 2), 2))).
Proof.
  apply (segy_lines_count_first_repeat Example.field_size
           (Example.open_rb ExampleTraces.offsets_file)
           ExampleTraces.offsets_file
           Example.INLINE_3D Example.CROSSLINE_3D INLINE_SORTING 2 0 4 8 2 2).
  - apply open_rb_opened.
  - reflexivity.
  - exact offsets_file_whole.
  - exact (proj1 Sorting.example_valid_fields).
  - exact (proj1 (proj2 Sorting.example_valid_fields)).
  - exact (proj2 (proj2 Sorting.example_valid_fields)).
  - discriminate.
  - lia.
  - lia.
  - lia.
  - vm_compute. split; reflexivity.
  - intros j Hj. assert (j = 1) by lia. subst j.
    vm_compute. intros [_ Hc]. discriminate Hc.
  - simpl. lia.
Defined.

(** X22: on a file of whole traces in which no trace at a multiple of
    [offsets] carries the line number and the offset of trace 0 again, as in
    a file that holds a single line, [count_lines] runs off the end of the
    file and returns the error of the failed header read, never SEGY_OK. *)
Theorem count_lines_single_line_fails (field_size : Z -> Z) (h : segy_file)
  (c : list byte) (field offsets trace0 bsize T : Z) (fuel : nat) :
  opened h -> contents (fp h) = c ->
  whole_traces (Z.of_nat (length c)) trace0 bsize T ->
  valid_field field_size field -> valid_field field_size offset ->
  let at_ := field_at field_size c trace0 bsize in
  1 <= offsets -> 1 <= T -> T + offsets < 2 ^ 31 ->
  (forall j, 1 <= j -> j * offsets < T ->
     ~ (at_ offset (j * offsets) = at_ offset 0 /\
        at_ field (j * offsets) = at_ field 0)) ->
  (Z.to_nat T <= fuel)%nat ->
  exists err h' n,
    count_lines field_size fuel h field offsets trace0 bsize
      = Finished (Some (err, h', n)) /\ err <> SEGY_OK.
Proof.
  intros Ho Hc Hfile Hf Hoff at_ Ho1 HT Hsum Hno Hfuel.
  exact (count_lines_no_repeat field_size c trace0 bsize T Hfile
           field offsets Hf Hoff Ho1 h fuel Ho Hc HT Hsum Hno Hfuel).
Qed.

Lemma count_lines_single_line_fails_witness :
  exists err h' n,
    count_lines Example.field_size 2
      (Example.open_rb (Example.trace 0 1 10 [x00; x00; x00; x00]
                        ++ Example.trace 0 1 11 [x00; x00; x00; x01]))
      Example.CROSSLINE_3D 1 0 4
      = Finished (Some (err, h', n)) /\ err <> SEGY_OK.
Proof.
  apply (count_lines_single_line_fails Example.field_size
           (Example.open_rb (Example.trace 0 1 10 [x00; x00; x00; x00]
                             ++ Example.trace 0 1 11 [x00; x00; x00; x01]))
           (Example.trace 0 1 10 [x00; x00; x00; x00]
            ++ Example.trace 0 1 11 [x00; x00; x00; x01])
           Example.CROSSLINE_3D 1 0 4 2 2).
  - apply open_rb_opened.
  - reflexivity.
  - exact single_line_whole.
  - exact (proj1 (proj2 Sorting.example_valid_fields)).
  - exact (proj2 (proj2 Sorting.example_valid_fields)).
  - lia.
  - lia.
  - lia.
  - intros j Hj1 Hj2. assert (j = 1) by lia. subst j.
    vm_compute. intros [_ Hc]. discriminate Hc.
  - simpl. lia.
Defined.

End CubeFacts.

(** ** Addressing a line *)

Module LineAddress.
Import File Field Geometry Layout GeometrySpec ReadFacts GeometryFacts Cube.

Lemma index_of_first (x : Z) (pre post : list Z) (i : Z) :
  ~ In x pre ->
  index_of x (pre ++ x :: post) i = i + Z.of_nat (length pre).
Proof.
  revert i. induction pre as [|y pre IH]; intros i Hn; cbn [app index_of length].
  - rewrite Z.eqb_refl. lia.
  - destruct (Z.eqb_spec y x) as [->|Hne]; [exfalso; apply Hn; left; reflexivity|].
    rewrite IH by (intros Hin; apply Hn; right; exact Hin). lia.
Qed.

Lemma index_of_missing (x : Z) (xs : list Z) (i : Z) :
  ~ In x xs -> index_of x xs i = -1.
Proof.
  revert i. induction xs as [|y xs IH]; intros i Hn; cbn [index_of].
  - reflexivity.
  - destruct (Z.eqb_spec y x) as [->|Hne]; [exfalso; apply Hn; left; reflexivity|].
    apply IH. intros Hin. apply Hn. right. exact Hin.
Qed.

(** X23: [segy_line_trace0] returns SEGY_MISSING_LINE_INDEX exactly when the
    line number is not in the table; when it is there, the result is SEGY_OK
    and the trace number is taken from the position [k] of its first
    occurrence: [k * line_length * offsets] for a stride of 1 and
    [k * offsets] otherwise. *)
Theorem segy_line_trace0_first_occurrence
  (lineno line_length stride offsets : Z) (linenos : list Z) :
  (fst (segy_line_trace0 lineno line_length stride offsets linenos)
     = SEGY_MISSING_LINE_INDEX <-> ~ In lineno linenos) /\
  (forall pre post, linenos = pre ++ lineno :: post -> ~ In lineno pre ->
     let k := Z.of_nat (length pre) in
     segy_line_trace0 lineno line_length stride offsets linenos =
       (SEGY_OK,
        u32 ((if stride =? 1 then k * line_length else k) * offsets))).
Proof.
  assert (Hfound : forall pre post, linenos = pre ++ lineno :: post ->
            ~ In lineno pre ->
            segy_line_trace0 lineno line_length stride offsets linenos =
              (SEGY_OK,
               u32 ((if stride =? 1 then Z.of_nat (length pre) * line_length
                     else Z.of_nat (length pre)) * offsets))).
  { intros pre post -> Hn. unfold segy_line_trace0.
    rewrite index_of_first by exact Hn. rewrite Z.add_0_l.
    destruct (Z.ltb_spec (Z.of_nat (length pre)) 0); [lia | reflexivity]. }
  split; [|exact Hfound]. split.
  - intros Hm Hin. destruct (in_split _ _ Hin) as (l1 & l2 & E).
    assert (Hex : exists pre post, linenos = pre ++ lineno :: post /\
                                   ~ In lineno pre).
    { clear Hm Hfound Hin. revert l1 l2 E.
      induction linenos as [|y ys IH]; intros l1 l2 E.
      - destruct l1; discriminate.
      - destruct (Z.eq_dec y lineno) as [->|Hne].
        + exists [], ys. split; [reflexivity | intros []].
        + destruct l1 as [|z l1]; [injection E as E1 E2; contradiction|].
          injection E as E1 E2.
          destruct (IH l1 l2 E2) as (pre & post & Ep & Hp).
          exists (y :: pre), post. split; [rewrite Ep; reflexivity|].
          intros [Hy|Hy]; [contradiction | exact (Hp Hy)]. }
    destruct Hex as (pre & post & Ep & Hp).
    rewrite (Hfound pre post Ep Hp) in Hm. discriminate.
  - intros Hn. unfold segy_line_trace0.
    rewrite index_of_missing by exact Hn. reflexivity.
Qed.

Lemma cell_bound (a b A B o : Z) :
  0 <= a < A -> 0 <= b < B -> 1 <= o ->
  0 <= (a * B + b) * o < A * B * o.
Proof.
  intros Ha Hb Ho.
  assert (H1 : a * B + b + 1 <= A * B) by nia.
  assert (H2 : 0 <= a * B + b) by nia.
  split; [nia|].
  assert (H3 : (a * B + b + 1) * o <= A * B * o)
    by (apply Z.mul_le_mono_nonneg_r; lia).
  lia.
Qed.

Section Cube.

Variable c : list byte.
Variables trace0 bsize T : Z.
Variable o : Z.

Hypothesis Hfile : whole_traces (Z.of_nat (length c)) trace0 bsize T.
Hypothesis H4 : bsize mod 4 = 0.

Lemma read_line_at (h : segy_file) (t0 stride n : Z) (pos : Z -> Z) :
  opened h -> contents (fp h) = c ->
  0 <= stride * o < 2 ^ 32 -> 0 <= n ->
  (forall k, 0 <= k < n ->
     pos k = t0 + k * (stride * o) /\ 0 <= pos k < T) ->
  exists h',
    segy_read_line h t0 n stride o trace0 bsize =
      Some (SEGY_OK, h',
            concat (map (fun k => samples_at c trace0 bsize (pos (Z.of_nat k)))
                      (seq 0 (Z.to_nat n)))).
Proof.
  intros Hop Hc Hs Hn Hpos.
  destruct (Lines.segy_read_line_positions h c t0 stride o trace0 bsize
              (Z.to_nat n) Hop Hc H4 Hs) as (h' & E).
  - intros k Hk. destruct (Hpos (Z.of_nat k) ltac:(lia)) as [Ep Hr].
    rewrite <- Ep.
    apply (whole_traces_in_range _ _ _ T); [exact Hfile | exact Hr].
  - rewrite Z2Nat.id in E by exact Hn.
    exists h'. rewrite E. do 3 f_equal.
    apply map_ext_in. intros k Hk. apply in_seq in Hk.
    destruct (Hpos (Z.of_nat k) ltac:(lia)) as [Ep _]. rewrite Ep. reflexivity.
Qed.

Lemma T_small : T < 2 ^ 31.
Proof. destruct Hfile as (_ & _ & _ & H & _). lia. Qed.

End Cube.

(** X24: reading an inline of a cube of [ni] inlines, [nx] crosslines and
    [o] offsets.  With the stride of [segy_inline_stride], the line length
    of [segy_inline_length] and the first trace of [segy_line_trace0] for a
    line number first found at position [i] of the table, [segy_read_line]
    returns SEGY_OK and delivers, for each crossline position
    [x = 0 .. nx-1] in turn, the samples of the trace that holds the first
    offset of inline [i] and crossline [x]: trace [(i*nx + x)*o] of an
    inline sorted file, trace [(x*ni + i)*o] of a crossline sorted one. *)
Theorem read_inline_of_cube (h : segy_file) (c : list byte)
  (trace0 bsize T ni nx o : Z) (s : sorting) (lineno : Z)
  (pre post : list Z) :
  opened h -> contents (fp h) = c ->
  whole_traces (Z.of_nat (length c)) trace0 bsize T -> bsize mod 4 = 0 ->
  1 <= ni -> 1 <= nx -> 1 <= o -> ni * nx * o <= T ->
  s <> UNKNOWN_SORTING ->
  ~ In lineno pre -> Z.of_nat (length pre) < ni ->
  let i := Z.of_nat (length pre) in
  let stride := snd (segy_inline_stride s ni 0) in
  let line_length := segy_inline_length nx in
  let line_trace0 :=
    snd (segy_line_trace0 lineno line_length stride o (pre ++ lineno :: post)) in
  fst (segy_inline_stride s ni 0) = SEGY_OK /\
  fst (segy_line_trace0 lineno line_length stride o (pre ++ lineno :: post))
    = SEGY_OK /\
  exists h',
    segy_read_line h line_trace0 line_length stride o trace0 bsize =
      Some (SEGY_OK, h',
            concat (map (fun x =>
                           samples_at c trace0 bsize
                             match s with
                             | INLINE_SORTING => (i * nx + Z.of_nat x) * o
                             | _ => (Z.of_nat x * ni + i) * o
                             end)
                      (seq 0 (Z.to_nat nx)))).
Proof.
  intros Hop Hc Hfile H4 Hni Hnx Ho Hfit Hs Hpre Hi i stride line_length
    line_trace0.
  pose proof (T_small c trace0 bsize T Hfile) as HT.
  assert (Hl : segy_line_trace0 lineno line_length stride o
                 (pre ++ lineno :: post) =
               (SEGY_OK,
                u32 ((if stride =? 1 then i * line_length else i) * o))).
  { unfold segy_line_trace0. rewrite index_of_first by exact Hpre.
    rewrite Z.add_0_l. fold i.
    destruct (Z.ltb_spec i 0); [lia | reflexivity]. }
  subst line_trace0. rewrite Hl. cbn [fst snd].
  unfold segy_inline_length in *. subst line_length.
  split; [destruct s; [contradiction | reflexivity | reflexivity]|].
  split; [reflexivity|].
  destruct s; [contradiction | |]; subst stride; cbn [segy_inline_stride snd].
  - (* crossline sorted: the inline is read with a stride of [ni] *)
    assert (Hcell : forall k, 0 <= k < nx -> 0 <= (k * ni + i) * o < T).
    { intros k Hk.
      pose proof (cell_bound k i nx ni o Hk ltac:(lia) Ho) as Hb.
      replace (nx * ni * o) with (ni * nx * o) in Hb by lia. lia. }
    destruct (Z.eqb_spec ni 1) as [E1|E1].
    + assert (Ei : i = 0) by lia.
      rewrite Ei, E1 in *. rewrite u32_small by lia.
      apply (read_line_at c trace0 bsize T o Hfile H4 h (0 * nx * o) 1 nx
               (fun x => (x * 1 + 0) * o) Hop Hc); [lia | lia |].
      intros k Hk. split; [lia | exact (Hcell k Hk)].
    + assert (Hio : 0 <= i * o < T).
      { pose proof (Hcell 0 ltac:(lia)) as Hb. lia. }
      assert (Hnio : 0 <= ni * o < T + o).
      { pose proof (Hcell 0 ltac:(lia)) as Hb. nia. }
      rewrite u32_small by lia.
      apply (read_line_at c trace0 bsize T o Hfile H4 h (i * o) ni nx
               (fun x => (x * ni + i) * o) Hop Hc); [nia | lia |].
      intros k Hk. split; [lia | exact (Hcell k Hk)].
  - (* inline sorted: the inline is contiguous *)
    assert (Hcell : forall k, 0 <= k < nx -> 0 <= (i * nx + k) * o < T).
    { intros k Hk.
      pose proof (cell_bound i k ni nx o ltac:(lia) Hk Ho) as Hb. lia. }
    assert (Hio : 0 <= i * nx * o < T).
    { pose proof (Hcell 0 ltac:(lia)) as Hb.
      replace ((i * nx + 0) * o) with (i * nx * o) in Hb by lia. exact Hb. }
    cbn [Z.eqb Pos.eqb]. rewrite u32_small by lia.
    apply (read_line_at c trace0 bsize T o Hfile H4 h (i * nx * o) 1 nx
             (fun x => (i * nx + x) * o) Hop Hc); [lia | lia |].
    intros k Hk. split; [lia | exact (Hcell k Hk)].
Qed.

Lemma read_inline_of_cube_witness :
  let h := Example.open_rb ExampleTraces.inline_file in
  let c := ExampleTraces.inline_file in
  let stride := snd (segy_inline_stride INLINE_SORTING 2 0) in
  let line_length := segy_inline_length 2 in
  let line_trace0 :=
    snd (segy_line_trace0 2 line_length stride 1 ([1] ++ 2 :: [])) in
  fst (segy_inline_stride INLINE_SORTING 2 0) = SEGY_OK /\
  fst (segy_line_trace0 2 line_length stride 1 ([1] ++ 2 :: [])) = SEGY_OK /\
  exists h',
    segy_read_line h line_trace0 line_length stride 1 0 4 =
      Some (SEGY_OK, h',
            concat (map (fun x =>
                           samples_at c 0 4
                             ((Z.of_nat (length [1]) * 2 + Z.of_nat x) * 1))
                      (seq 0 (Z.to_nat 2)))).
Proof.
  apply (read_inline_of_cube (Example.open_rb ExampleTraces.inline_file)
           ExampleTraces.inline_file 0 4 4 2 2 1 INLINE_SORTING 2 [1] []).
  - left. split; reflexivity.
  - reflexivity.
  - exact Sorting.inline_file_whole.
  - reflexivity.
  - lia.
  - lia.
  - lia.
  - lia.
  - discriminate.
  - intros [Hc|[]]. discriminate Hc.
  - simpl. lia.
Defined.

(** X25: reading a crossline of the same cube.  With the stride of
    [segy_crossline_stride], the line length of [segy_crossline_length] and
    the first trace of [segy_line_trace0] for a line number first found at
    position [x] of the table, [segy_read_line] returns SEGY_OK and
    delivers, for each inline position [i = 0 .. ni-1] in turn, the samples
    of the trace that holds the first offset of inline [i] and crossline
    [x]. *)
Theorem read_crossline_of_cube (h : segy_file) (c : list byte)
  (trace0 bsize T ni nx o : Z) (s : sorting) (lineno : Z)
  (pre post : list Z) :
  opened h -> contents (fp h) = c ->
  whole_traces (Z.of_nat (length c)) trace0 bsize T -> bsize mod 4 = 0 ->
  1 <= ni -> 1 <= nx -> 1 <= o -> ni * nx * o <= T ->
  s <> UNKNOWN_SORTING ->
  ~ In lineno pre -> Z.of_nat (length pre) < nx ->
  let x := Z.of_nat (length pre) in
  let stride := snd (segy_crossline_stride s nx 0) in
  let line_length := segy_crossline_length ni in
  let line_trace0 :=
    snd (segy_line_trace0 lineno line_length stride o (pre ++ lineno :: post)) in
  fst (segy_crossline_stride s nx 0) = SEGY_OK /\
  fst (segy_line_trace0 lineno line_length stride o (pre ++ lineno :: post))
    = SEGY_OK /\
  exists h',
    segy_read_line h line_trace0 line_length stride o trace0 bsize =
      Some (SEGY_OK, h',
            concat (map (fun i =>
                           samples_at c trace0 bsize
                             match s with
                             | INLINE_SORTING => (Z.of_nat i * nx + x) * o
                             | _ => (x * ni + Z.of_nat i) * o
                             end)
                      (seq 0 (Z.to_nat ni)))).
Proof.
  intros Hop Hc Hfile H4 Hni Hnx Ho Hfit Hs Hpre Hx x stride line_length
    line_trace0.
  pose proof (T_small c trace0 bsize T Hfile) as HT.
  assert (Hl : segy_line_trace0 lineno line_length stride o
                 (pre ++ lineno :: post) =
               (SEGY_OK,
                u32 ((if stride =? 1 then x * line_length else x) * o))).
  { unfold segy_line_trace0. rewrite index_of_first by exact Hpre.
    rewrite Z.add_0_l. fold x.
    destruct (Z.ltb_spec x 0); [lia | reflexivity]. }
  subst line_trace0. rewrite Hl. cbn [fst snd].
  unfold segy_crossline_length in *. subst line_length.
  split; [destruct s; [contradiction | reflexivity | reflexivity]|].
  split; [reflexivity|].
  destruct s; [contradiction | |]; subst stride;
    cbn [segy_crossline_stride snd].
  - (* crossline sorted: the crossline is contiguous *)
    assert (Hcell : forall k, 0 <= k < ni -> 0 <= (x * ni + k) * o < T).
    { intros k Hk.
      pose proof (cell_bound x k nx ni o ltac:(lia) Hk Ho) as Hb.
      replace (nx * ni * o) with (ni * nx * o) in Hb by lia. lia. }
    assert (Hxo : 0 <= x * ni * o < T).
    { pose proof (Hcell 0 ltac:(lia)) as Hb.
      replace ((x * ni + 0) * o) with (x * ni * o) in Hb by lia. exact Hb. }
    cbn [Z.eqb Pos.eqb]. rewrite u32_small by lia.
    apply (read_line_at c trace0 bsize T o Hfile H4 h (x * ni * o) 1 ni
             (fun i => (x * ni + i) * o) Hop Hc); [lia | lia |].
    intros k Hk. split; [lia | exact (Hcell k Hk)].
  - (* inline sorted: the crossline is read with a stride of [nx] *)
    assert (Hcell : forall k, 0 <= k < ni -> 0 <= (k * nx + x) * o < T).
    { intros k Hk.
      pose proof (cell_bound k x ni nx o Hk ltac:(lia) Ho) as Hb. lia. }
    destruct (Z.eqb_spec nx 1) as [E1|E1].
    + assert (Ex : x = 0) by lia.
      rewrite Ex, E1 in *. rewrite u32_small by lia.
      apply (read_line_at c trace0 bsize T o Hfile H4 h (0 * ni * o) 1 ni
               (fun i => (i * 1 + 0) * o) Hop Hc); [lia | lia |].
      intros k Hk. split; [lia | exact (Hcell k Hk)].
    + assert (Hxo : 0 <= x * o < T).
      { pose proof (Hcell 0 ltac:(lia)) as Hb. lia. }
      assert (Hnxo : 0 <= nx * o < T + o).
      { pose proof (Hcell 0 ltac:(lia)) as Hb. nia. }
      rewrite u32_small by lia.
      apply (read_line_at c trace0 bsize T o Hfile H4 h (x * o) nx ni
               (fun i => (i * nx + x) * o) Hop Hc); [nia | lia |].
      intros k Hk. split; [lia | exact (Hcell k Hk)].
Qed.

Lemma read_crossline_of_cube_witness :
  let h := Example.open_rb ExampleTraces.inline_file in
  let c := ExampleTraces.inline_file in
  let stride := snd (segy_crossline_stride INLINE_SORTING 2 0) in
  let line_length := segy_crossline_length 2 in
  let line_trace0 :=
    snd (segy_line_trace0 11 line_length stride 1 ([10] ++ 11 :: [])) in
  fst (segy_crossline_stride INLINE_SORTING 2 0) = SEGY_OK /\
  fst (segy_line_trace0 11 line_length stride 1 ([10] ++ 11 :: [])) = SEGY_OK /\
  exists h',
    segy_read_line h line_trace0 line_length stride 1 0 4 =
      Some (SEGY_OK, h',
            concat (map (fun i =>
                           samples_at c 0 4
                             ((Z.of_nat i * 2 + Z.of_nat (length [10])) * 1))
                      (seq 0 (Z.to_nat 2)))).
Proof.
  apply (read_crossline_of_cube (Example.open_rb ExampleTraces.inline_file)
           ExampleTraces.inline_file 0 4 4 2 2 1 INLINE_SORTING 11 [10] []).
  - left. split; reflexivity.
  - reflexivity.
  - exact Sorting.inline_file_whole.
  - reflexivity.
  - lia.
  - lia.
  - lia.
  - lia.
  - discriminate.
  - intros [Hc|[]]. discriminate Hc.
  - simpl. lia.
Defined.

End LineAddress.

(** ** A line, written and read back *)

Module LineRoundTrip.
Import File Field Geometry Layout GeometrySpec Update ReadFacts BufferFacts.
Import WriteFacts.

Lemma writetrace_effect (h : segy_file) (trace0 bsize i : Z) (buf : list byte) :
  updatable h ->
  trace_in_range (file_length (fp h)) trace0 bsize i ->
  bsize <= Z.of_nat (length buf) ->
  exists h',
    segy_writetrace h i buf trace0 bsize = Some (SEGY_OK, h') /\
    updatable h' /\
    file_length (fp h') = file_length (fp h) /\
    samples_at (contents (fp h')) trace0 bsize i = slice buf 0 bsize /\
    forall j, trace_in_range (file_length (fp h)) trace0 bsize j -> j <> i ->
      samples_at (contents (fp h')) trace0 bsize j
        = samples_at (contents (fp h)) trace0 bsize j.
Proof.
  intros Hu Hin Hlen.
  destruct (segy_writetrace_updatable h trace0 bsize i buf Hu Hin Hlen)
    as (h' & Ew & Ec & Hu').
  destruct (trace_pos_in_range _ _ _ _ Hin) as (Ep & Hp0 & Hp1).
  assert (Hb : 0 <= bsize) by (destruct Hin as (_ & ? & _); assumption).
  assert (Hsl : Z.of_nat (length (slice buf 0 bsize)) = bsize)
    by (apply slice_length; lia).
  unfold file_length, SEGY_TRACE_HEADER_SIZE in *.
  assert (El : length (contents (fp h')) = length (contents (fp h))).
  { rewrite Ec. apply overwrite_length; lia. }
  exists h'. split; [exact Ew|]. split; [exact Hu'|].
  split; [rewrite El; reflexivity|]. split.
  - unfold samples_at, SEGY_TRACE_HEADER_SIZE. rewrite Ec.
    pose proof (slice_overwrite_same (contents (fp h)) (slice buf 0 bsize)
                  (trace_pos trace0 bsize i + 240)) as Hs.
    rewrite Hsl in Hs. apply Hs; lia.
  - intros j Hj Hne.
    destruct (trace_pos_in_range _ _ _ _ Hj) as (Ej & Hj0 & Hj1).
    unfold samples_at, SEGY_TRACE_HEADER_SIZE. rewrite Ec.
    apply slice_overwrite_outside; try lia.
    pose proof (trace_pos_apart _ _ _ _ _ Hin Hj ltac:(congruence)) as Ha.
    unfold SEGY_TRACE_HEADER_SIZE in Ha. lia.
Qed.

Lemma slice_skipn (buf : list byte) (b p n : Z) :
  0 <= b -> 0 <= p ->
  slice (skipn (Z.to_nat b) buf) p n = slice buf (b + p) n.
Proof.
  intros Hb Hp. unfold slice. rewrite skipn_skipn. do 2 f_equal. lia.
Qed.

(** The chunks of [bsize] bytes of a buffer of [n] of them, put together. *)
Lemma concat_chunks (bsize : Z) (n : nat) :
  0 <= bsize ->
  forall buf, Z.of_nat (length buf) = Z.of_nat n * bsize ->
    concat (map (fun k => slice buf (Z.of_nat k * bsize) bsize) (seq 0 n)) = buf.
Proof.
  intros Hb. induction n as [|n IH]; intros buf Hlen.
  - destruct buf; [reflexivity | simpl in Hlen; lia].
  - change (seq 0 (S n)) with (0%nat :: seq 1 n).
    rewrite <- seq_shift, map_cons, map_map. cbn [concat].
    transitivity (firstn (Z.to_nat bsize) buf ++ skipn (Z.to_nat bsize) buf);
      [|apply firstn_skipn].
    apply (f_equal2 (@app byte)); [reflexivity|].
    rewrite <- (IH (skipn (Z.to_nat bsize) buf)) by (rewrite length_skipn; lia).
    f_equal. apply map_ext. intros k.
    rewrite slice_skipn by lia. f_equal. lia.
Qed.

Section Loop.

Variables trace0 bsize S : Z.
Hypothesis H4 : bsize mod 4 = 0.
Hypothesis HS : 1 <= S.

Lemma write_line_loop_run (n : nat) :
  forall (h : segy_file) (t : Z) (buf : list byte),
    updatable h ->
    (forall k, (k < n)%nat ->
       trace_in_range (file_length (fp h)) trace0 bsize (t + Z.of_nat k * S)) ->
    Z.of_nat n * bsize <= Z.of_nat (length buf) ->
    exists h',
      write_line_loop n h t S buf trace0 bsize = Some (SEGY_OK, h') /\
      updatable h' /\
      file_length (fp h') = file_length (fp h) /\
      (forall k, (k < n)%nat ->
         samples_at (contents (fp h')) trace0 bsize (t + Z.of_nat k * S)
           = slice buf (Z.of_nat k * bsize) bsize) /\
      (forall j, trace_in_range (file_length (fp h)) trace0 bsize j ->
         (forall k, (k < n)%nat -> j <> t + Z.of_nat k * S) ->
         samples_at (contents (fp h')) trace0 bsize j
           = samples_at (contents (fp h)) trace0 bsize j).
Proof.
  induction n as [|n IH]; intros h t buf Hu Hin Hlen; cbn [write_line_loop].
  - exists h. split; [reflexivity|]. split; [exact Hu|]. split; [reflexivity|].
    split; [intros k Hk; lia | intros; reflexivity].
  - pose proof (Hin 0%nat ltac:(lia)) as H0.
    replace (t + Z.of_nat 0 * S) with t in H0 by lia.
    assert (Hb : 0 <= bsize) by (destruct H0 as (_ & ? & _); assumption).
    destruct (writetrace_effect h trace0 bsize t buf Hu H0 ltac:(nia))
      as (h1 & Ew & Hu1 & El1 & Es1 & Hf1).
    rewrite Ew. cbn [negb segy_error_eqb].
    assert (E4 : 4 * (bsize / 4) = bsize).
    { pose proof (Z.div_mod bsize 4 ltac:(lia)). lia. }
    rewrite E4.
    assert (Hnext : exists h',
      write_line_loop n h1 (u32 (t + S)) S (skipn (Z.to_nat bsize) buf)
        trace0 bsize = Some (SEGY_OK, h') /\
      updatable h' /\
      file_length (fp h') = file_length (fp h1) /\
      (forall k, (k < n)%nat ->
         samples_at (contents (fp h')) trace0 bsize (t + S + Z.of_nat k * S)
           = slice (skipn (Z.to_nat bsize) buf) (Z.of_nat k * bsize) bsize) /\
      (forall j, trace_in_range (file_length (fp h1)) trace0 bsize j ->
         (forall k, (k < n)%nat -> j <> t + S + Z.of_nat k * S) ->
         samples_at (contents (fp h')) trace0 bsize j
           = samples_at (contents (fp h1)) trace0 bsize j)).
    { destruct n as [|n].
      - cbn [write_line_loop]. exists h1. split; [reflexivity|].
        split; [exact Hu1|]. split; [reflexivity|].
        split; [intros k Hk; lia | intros; reflexivity].
      - pose proof (Hin 1%nat ltac:(lia)) as H1.
        replace (t + Z.of_nat 1 * S) with (t + S) in H1 by lia.
        assert (Hr : 0 <= t + S < 2 ^ 31) by (destruct H1 as (_ & _ & _ & ? & _); lia).
        rewrite (u32_small (t + S)) by lia.
        apply IH; [exact Hu1 | |].
        + intros k Hk. rewrite El1.
          replace (t + S + Z.of_nat k * S) with (t + Z.of_nat (Datatypes.S k) * S)
            by lia.
          apply Hin. lia.
        + rewrite length_skipn. lia. }
    destruct Hnext as (h' & E' & Hu' & El' & Hs' & Hf').
    exists h'. split; [exact E'|]. split; [exact Hu'|].
    split; [rewrite El', El1; reflexivity|]. split.
    + intros k Hk. destruct k as [|k].
      * replace (t + Z.of_nat 0 * S) with t by lia.
        rewrite Hf'.
        -- rewrite Es1. reflexivity.
        -- rewrite El1. exact H0.
        -- intros k Hk'. nia.
      * replace (t + Z.of_nat (Datatypes.S k) * S) with (t + S + Z.of_nat k * S)
          by lia.
        rewrite Hs' by lia. rewrite slice_skipn by lia. f_equal. lia.
    + intros j Hj Hne. rewrite Hf'.
      * apply Hf1; [exact Hj|]. specialize (Hne 0%nat ltac:(lia)). lia.
      * rewrite El1. exact Hj.
      * intros k Hk. specialize (Hne (Datatypes.S k) ltac:(lia)). lia.
Qed.

End Loop.

(** X26: what [segy_write_line] stores for the line that starts at
    [line_trace0] is what [segy_read_line] delivers for the line that starts
    at [line_trace0 * offsets]: through a handle open for update, for traces
    in range and a buffer of [line_length] traces, the write returns SEGY_OK,
    the read that follows returns SEGY_OK with the bytes of the buffer, and
    the samples of the traces that are not on the line stay as they were. *)
Theorem segy_write_line_then_read_line (h : segy_file)
  (line_trace0 stride offsets trace0 bsize : Z) (line_length : nat)
  (buf : list byte) :
  updatable h -> bsize mod 4 = 0 ->
  1 <= stride * offsets < 2 ^ 32 -> 0 <= line_trace0 * offsets < 2 ^ 32 ->
  (forall k, (k < line_length)%nat ->
     trace_in_range (file_length (fp h)) trace0 bsize
       (line_trace0 * offsets + Z.of_nat k * (stride * offsets))) ->
  Z.of_nat (length buf) = Z.of_nat line_length * bsize ->
  exists h',
    segy_write_line h line_trace0 (Z.of_nat line_length) stride offsets buf
      trace0 bsize = Some (SEGY_OK, h') /\
    (exists h'',
       segy_read_line h' (line_trace0 * offsets) (Z.of_nat line_length)
         stride offsets trace0 bsize = Some (SEGY_OK, h'', buf)) /\
    (forall j, trace_in_range (file_length (fp h)) trace0 bsize j ->
       (forall k, (k < line_length)%nat ->
          j <> line_trace0 * offsets + Z.of_nat k * (stride * offsets)) ->
       samples_at (contents (fp h')) trace0 bsize j
         = samples_at (contents (fp h)) trace0 bsize j).
Proof.
  intros Hu H4 Hs Ht Hin Hlen.
  rewrite Lines.segy_write_line_start, Nat2Z.id.
  rewrite (u32_small (line_trace0 * offsets)) by exact Ht.
  rewrite (u32_small (stride * offsets)) by lia.
  destruct (write_line_loop_run trace0 bsize (stride * offsets) H4
              ltac:(lia) line_length h (line_trace0 * offsets) buf Hu Hin
              ltac:(lia)) as (h' & Ew & Hu' & El & Hs' & Hf').
  exists h'. split; [exact Ew|]. split; [|exact Hf'].
  destruct (Lines.segy_read_line_positions h' (contents (fp h'))
              (line_trace0 * offsets) stride offsets trace0 bsize line_length)
    as (h'' & Er).
  - apply updatable_opened. exact Hu'.
  - reflexivity.
  - exact H4.
  - lia.
  - intros k Hk. fold (file_length (fp h')). rewrite El. apply Hin. exact Hk.
  - exists h''. rewrite Er. do 2 f_equal.
    destruct line_length as [|n].
    + destruct buf; [reflexivity | simpl in Hlen; lia].
    + assert (Hb : 0 <= bsize)
        by (destruct (Hin 0%nat ltac:(lia)) as (_ & ? & _); assumption).
      transitivity
        (concat (map (fun k => slice buf (Z.of_nat k * bsize) bsize)
                   (seq 0 (Datatypes.S n))));
        [|exact (concat_chunks bsize (Datatypes.S n) Hb buf Hlen)].
      f_equal. apply map_ext_in. intros k Hk. apply in_seq in Hk.
      apply Hs'. lia.
Qed.

Lemma segy_write_line_then_read_line_witness :
  let h := Example.open_rw ExampleTraces.offsets_file in
  let buf := [x3f; x80; x00; x00; x40; x00; x00; x00] in
  exists h',
    segy_write_line h 1 (Z.of_nat 2) 1 2 buf 0 4 = Some (SEGY_OK, h') /\
    (exists h'',
       segy_read_line h' (1 * 2) (Z.of_nat 2) 1 2 0 4 = Some (SEGY_OK, h'', buf)) /\
    (forall j, trace_in_range (file_length (fp h)) 0 4 j ->
       (forall k, (k < 2)%nat -> j <> 1 * 2 + Z.of_nat k * (1 * 2)) ->
       samples_at (contents (fp h')) 0 4 j
         = samples_at (contents (fp h)) 0 4 j).
Proof.
  apply (segy_write_line_then_read_line
           (Example.open_rw ExampleTraces.offsets_file) 1 1 2 0 4 2
           [x3f; x80; x00; x00; x40; x00; x00; x00]).
  - left. repeat split.
  - reflexivity.
  - lia.
  - lia.
  - intros k Hk. unfold trace_in_range, SEGY_TRACE_HEADER_SIZE.
    replace (file_length (fp (Example.open_rw ExampleTraces.offsets_file)))
      with 1952 by (vm_compute; reflexivity).
    lia.
  - reflexivity.
Defined.

End LineRoundTrip.
